(** * Bibliographic reference consolidation: [utils/reference_manager.py]

    A shallow embedding of the reference manager of the notebook exporter
    ([Reference], [ReferenceManager]) and the verification of its
    specification.

    Conventions.
    - A Python [str] is a [list ascii]; a character is a code point below
      256 (Latin-1), so that ["233"%char] is the letter e-acute of
      "References" in French.  On this range [\s], [str.isspace] and the
      set used by [split()]/[strip()] are the same twelve characters, and
      [\d] is exactly ['0'..'9'].
    - [int] is [Z]; [enumerate] indices are [nat].
    - Dictionaries used for lookup only are [gmap]s; the dictionary whose
      iteration order matters ([defined_refs]) is an insertion-ordered
      association list.
    - [Reference] objects are shared and mutated ([global_num] is assigned
      after they were stored in three containers), so they live in a store
      and the containers hold addresses. *)

From Stdlib Require Import Ascii String List ZArith Bool Lia.
From stdpp Require Import base option list gmap strings pretty.
Import ListNotations.

Local Open Scope string_scope.
Local Open Scope list_scope.

(** ** Characters and text *)

Abbreviation text := (list ascii) (only parsing).

(** A Python string literal. *)
Definition str (s : string) : text := list_ascii_of_string s.

Definition code (c : ascii) : nat := nat_of_ascii c.

Definition in_range (lo hi : nat) (c : ascii) : bool :=
  (lo <=? code c)%nat && (code c <=? hi)%nat.

(** [str.isspace] on one character, which is also the class [\s]:
    TAB, LF, VT, FF, CR, the separators FS, GS, RS, US, the space, NEL and
    the no-break space. *)
Definition is_space (c : ascii) : bool :=
  in_range 9 13 c || in_range 28 32 c || (code c =? 133)%nat || (code c =? 160)%nat.

(** The class [\d]. *)
Definition is_digit (c : ascii) : bool := in_range 48 57 c.

Definition newline : ascii := "010"%char.

Definition dquote : ascii := "034"%char.

Definition is_newline (c : ascii) : bool := Ascii.eqb c newline.

Fixpoint take_while (p : ascii -> bool) (s : text) : text :=
  match s with
  | c :: s' => if p c then c :: take_while p s' else []
  | [] => []
  end.

Fixpoint drop_while (p : ascii -> bool) (s : text) : text :=
  match s with
  | c :: s' => if p c then drop_while p s' else s
  | [] => []
  end.

(** [s.lstrip()], [s.rstrip()], [s.strip()]. *)
Definition lstrip (s : text) : text := drop_while is_space s.
Definition rstrip (s : text) : text := rev (drop_while is_space (rev s)).
Definition strip (s : text) : text := lstrip (rstrip s).

(** [s.split()]: the maximal runs of non-space characters, in order. *)
Fixpoint split_ws (s : text) : list text :=
  match s with
  | [] => []
  | c :: s' =>
      if is_space c then split_ws s'
      else match s' with
           | [] => [[c]]
           | c' :: _ =>
               if is_space c' then [c] :: split_ws s'
               else match split_ws s' with
                    | w :: ws => (c :: w) :: ws
                    | [] => [[c]]
                    end
           end
  end.

(** [sep.join(parts)]. *)
Fixpoint join (sep : text) (parts : list text) : text :=
  match parts with
  | [] => []
  | [p] => p
  | p :: ps => p ++ sep ++ join sep ps
  end.

(** [s.split(sep)] for a one-character separator: the pieces between the
    separators, empty pieces included; never the empty list. *)
Fixpoint split_on (sep : ascii) (s : text) : list text :=
  match s with
  | [] => [[]]
  | c :: s' =>
      if Ascii.eqb c sep then [] :: split_on sep s'
      else match split_on sep s' with
           | l :: ls => (c :: l) :: ls
           | [] => [[c]]
           end
  end.

(** [needle in s]. *)
Fixpoint starts_with (needle s : text) : bool :=
  match needle, s with
  | [], _ => true
  | a :: n', b :: s' => Ascii.eqb a b && starts_with n' s'
  | _ :: _, [] => false
  end.

Fixpoint contains (needle s : text) : bool :=
  starts_with needle s ||
  match s with
  | [] => false
  | _ :: s' => contains needle s'
  end.

(** [s[-n:]]. *)
Definition last_chars (n : nat) (s : text) : text := skipn (length s - n) s.

(** [int(s)] on a string of decimal digits (the only strings the module
    converts are those matched by [\d+]): the number that the conversion
    returns.  The conversion itself refuses a string that is too long; the
    call with that failure is [int_call], at the end of the embedding. *)
Definition digit_value (c : ascii) : Z := Z.of_nat (code c - 48).

Definition int_of (s : text) : Z :=
  fold_left (fun acc c => (10 * acc + digit_value c)%Z) s 0%Z.

(** [str(n)] for an [int]. *)
Definition str_of_int (n : Z) : text := str (pretty n).

(** ** The regular expressions of the module

    The patterns only use literal characters, the classes [\s], [\d],
    [[^c]] and [.], the greedy quantifiers [*], [+], [?] on one class,
    groups, [^] (under [re.MULTILINE]) and [$] (without it).  The matcher
    below is the backtracking matcher of [re] on that fragment: a greedy
    quantifier takes as many characters as it can and gives them back one
    by one while the rest of the pattern fails. *)

Inductive atom :=
| Chr (c : ascii)       (* the character [c] *)
| Space                 (* [\s] *)
| Digit                 (* [\d] *)
| NotChr (c : ascii)    (* [[^c]] *)
| Dot.                  (* [.], anything but a newline *)

Definition accepts (a : atom) (c : ascii) : bool :=
  match a with
  | Chr c' => Ascii.eqb c c'
  | Space => is_space c
  | Digit => is_digit c
  | NotChr c' => negb (Ascii.eqb c c')
  | Dot => negb (is_newline c)
  end.

Inductive item :=
| One (a : atom)
| Star (a : atom)       (* [a*] *)
| Plus (a : atom)       (* [a+] *)
| Opt (a : atom)        (* [a?] *)
| Bol                   (* [^] under re.MULTILINE *)
| Eos                   (* [$] without re.MULTILINE *)
| Open                  (* [(] *)
| Close.                (* [)] *)

Abbreviation regex := (list item) (only parsing).

(** A literal piece of a pattern. *)
Definition lit (s : string) : regex := map (fun c => One (Chr c)) (str s).

(** The state of a match attempt: whether the position is at the start of
    a line, the text matched so far, the text matched since the last
    [Open], and the groups closed so far. *)
Record mstate := MState {
  at_bol : bool;
  matched : text;
  current : text;
  closed : list text
}.

Definition start_state (bol : bool) : mstate := MState bol [] [] [].

Definition eat (st : mstate) (c : ascii) : mstate :=
  MState (is_newline c) (matched st ++ [c]) (current st ++ [c]) (closed st).

Definition open_group (st : mstate) : mstate :=
  MState (at_bol st) (matched st) [] (closed st).

Definition close_group (st : mstate) : mstate :=
  MState (at_bol st) (matched st) (current st) (closed st ++ [current st]).

(** [star a k st s]: match [a*] greedily at the head of [s], then the
    continuation [k]; the longest run is tried first. *)
Fixpoint star (a : atom) (k : mstate -> text -> option (mstate * text))
    (st : mstate) (s : text) : option (mstate * text) :=
  match s with
  | c :: s' =>
      if accepts a c then
        match star a k (eat st c) s' with
        | Some r => Some r
        | None => k st s
        end
      else k st s
  | [] => k st []
  end.

(** [match_here p st s]: match the pattern [p] at the head of [s]; on
    success, the final state and the text after the match. *)
Fixpoint match_here (p : regex) (st : mstate) (s : text) : option (mstate * text) :=
  match p with
  | [] => Some (st, s)
  | One a :: p' =>
      match s with
      | c :: s' => if accepts a c then match_here p' (eat st c) s' else None
      | [] => None
      end
  | Star a :: p' => star a (match_here p') st s
  | Plus a :: p' =>
      match s with
      | c :: s' => if accepts a c then star a (match_here p') (eat st c) s' else None
      | [] => None
      end
  | Opt a :: p' =>
      match s with
      | c :: s' =>
          if accepts a c then
            match match_here p' (eat st c) s' with
            | Some r => Some r
            | None => match_here p' st s
            end
          else match_here p' st s
      | [] => match_here p' st []
      end
  | Bol :: p' => if at_bol st then match_here p' st s else None
  | Eos :: p' =>
      match s with
      | [] => match_here p' st s
      | [c] => if is_newline c then match_here p' st s else None
      | _ => None
      end
  | Open :: p' => match_here p' (open_group st) s
  | Close :: p' => match_here p' (close_group st) s
  end.

(** A match object: [m.start()], [m.end()], and the groups, [m.group(0)]
    first. *)
Record Match := MkMatch {
  m_start : nat;
  m_end : nat;
  m_groups : list text
}.

Definition group (m : Match) (k : nat) : text := nth k (m_groups m) [].

Definition match_at (pos : nat) (st : mstate) : Match :=
  MkMatch pos (pos + length (matched st)) (matched st :: closed st).

(** [p.search(s)]: the match at the leftmost position that has one.  The
    scan carries the position and whether it is at the start of a line. *)
Fixpoint search_from (p : regex) (bol : bool) (pos : nat) (s : text) : option Match :=
  match match_here p (start_state bol) s with
  | Some (st, _) => Some (match_at pos st)
  | None =>
      match s with
      | [] => None
      | c :: s' => search_from p (is_newline c) (S pos) s'
      end
  end.

Definition search (p : regex) (s : text) : option Match := search_from p true 0 s.

(** [p.finditer(s)]: the successive non-overlapping matches, left to
    right.  After a match the scan resumes at its end: [skip] counts the
    characters of the current match still to be passed over.  Every pattern
    of the module consumes at least one character, so a match is never
    empty. *)
Fixpoint finditer_from (p : regex) (skip : nat) (bol : bool) (pos : nat) (s : text)
    : list Match :=
  match s with
  | [] => []
  | c :: s' =>
      match skip with
      | S k => finditer_from p k (is_newline c) (S pos) s'
      | O =>
          match match_here p (start_state bol) s with
          | Some (st, _) =>
              match_at pos st
                :: finditer_from p (length (matched st) - 1) (is_newline c) (S pos) s'
          | None => finditer_from p 0 (is_newline c) (S pos) s'
          end
      end
  end.

Definition finditer (p : regex) (s : text) : list Match := finditer_from p 0 true 0 s.

(** [p.sub(repl, s)] with a replacement function: the text with every
    match of [finditer] replaced by [repl] of the match. *)
Fixpoint sub_from (p : regex) (repl : Match -> text) (skip : nat) (bol : bool)
    (pos : nat) (s : text) : text :=
  match s with
  | [] => []
  | c :: s' =>
      match skip with
      | S k => sub_from p repl k (is_newline c) (S pos) s'
      | O =>
          match match_here p (start_state bol) s with
          | Some (st, _) =>
              repl (match_at pos st)
                ++ sub_from p repl (length (matched st) - 1) (is_newline c) (S pos) s'
          | None => c :: sub_from p repl 0 (is_newline c) (S pos) s'
          end
      end
  end.

Definition sub (p : regex) (repl : Match -> text) (s : text) : text :=
  sub_from p repl 0 true 0 s.

(** [re.sub(pattern, replacement_string, s)] for a replacement without
    group references. *)
Definition sub_const (p : regex) (replacement : text) (s : text) : text :=
  sub p (fun _ => replacement) s.

(** ** [class Reference] *)

(** The page-break marker, as the rest of the exporter writes it. *)
Definition PAGE_BREAK : text := str "<!-- PAGE_BREAK -->".

(** [r'<!--\s*PAGE_BREAK\s*-->'] *)
Definition PAGE_BREAK_RE : regex :=
  lit "<!--" ++ [Star Space] ++ lit "PAGE_BREAK" ++ [Star Space] ++ lit "-->".

(** [r'\s*\([^)]+\)\s*\.?\s*$'] *)
Definition TRAILING_NOTE_RE : regex :=
  [Star Space; One (Chr "("); Plus (NotChr ")"); One (Chr ")");
   Star Space; Opt (Chr "."); Star Space; Eos].

(** [r'\.+'] *)
Definition DOTS_RE : regex := [Plus (Chr ".")].

Definition normalize_for_dedup (t : text) : text :=
  (* Remove PAGE_BREAK markers *)
  let t := sub_const PAGE_BREAK_RE [] t in
  (* Remove trailing parenthetical notes *)
  let t := sub_const TRAILING_NOTE_RE (str ".") t in
  (* Normalize multiple dots to single dot *)
  let t := sub_const DOTS_RE (str ".") t in
  (* Normalize whitespace *)
  let t := join (str " ") (split_ws t) in
  strip t.

Record Reference := MkReference {
  local_id : text;
  local_num : Z;
  definition : text;
  global_num : option Z;
  cell_index : nat
}.

(** [Reference.__init__] *)
Definition Reference_init (local_id : text) (local_num : Z) (definition : text)
    (cell_index : nat) : Reference :=
  MkReference local_id local_num (strip definition) None cell_index.

(** [Reference.__eq__] between two references. *)
Definition Reference_eq (a b : Reference) : bool :=
  bool_decide (normalize_for_dedup (definition a) = normalize_for_dedup (definition b)).

(** ** [class ReferenceManager]: patterns *)

(** [r'\[\[(\d+)\]\]\(#(ref\d+)\)'] *)
Definition CITATION_PATTERN : regex :=
  lit "[[" ++ [Open; Plus Digit; Close] ++ lit "]](#"
    ++ [Open] ++ lit "ref" ++ [Plus Digit; Close] ++ lit ")".

(** [r'<a\s+id=Q(ref\d+)Q\s*></a>\[(\d+)\]\s*(.+)'] with a double quote
    for Q, compiled with [re.MULTILINE]; the flag changes [^] and [$] only,
    and the pattern has neither. *)
Definition DEFINITION_START_PATTERN : regex :=
  lit "<a" ++ [Plus Space] ++ lit "id=" ++ [One (Chr dquote)]
    ++ [Open] ++ lit "ref" ++ [Plus Digit; Close; One (Chr dquote); Star Space]
    ++ lit "></a>[" ++ [Open; Plus Digit; Close] ++ lit "]"
    ++ [Star Space; Open; Plus Dot; Close].

Definition References_word : text :=
  str "R" ++ ["233"%char] ++ str "f" ++ ["233"%char] ++ str "rences".

(** [r'^\s*---\s*\n\s*\*\*R.f.rences\s*:\*\*\s*\n'] with e-acute for the
    two dots of the word, compiled with [re.MULTILINE]. *)
Definition REFERENCE_SECTION_PATTERN : regex :=
  [Bol; Star Space] ++ lit "---" ++ [Star Space; One (Chr newline); Star Space]
    ++ lit "**" ++ map (fun c => One (Chr c)) References_word
    ++ [Star Space] ++ lit ":**" ++ [Star Space; One (Chr newline)].

(** [r'( <!--\s*PAGE_BREAK\s*-->\s* )$'] (one group, written here with
    blanks inside its parentheses), local to the second
    [remove_reference_section]. *)
Definition page_break_pattern : regex :=
  [Open] ++ lit "<!--" ++ [Star Space] ++ lit "PAGE_BREAK" ++ [Star Space] ++ lit "-->"
    ++ [Star Space; Close; Eos].

(** ** The store of [Reference] objects

    A [Reference] is created in [extract_references_from_cell], kept in up
    to three containers of the manager, and mutated once, when its
    [global_num] is assigned.  The store lists the objects by address;
    the containers hold addresses, so that two entries for one object see
    the same [global_num]. *)

Abbreviation addr := nat (only parsing).
Abbreviation store := (list Reference) (only parsing).

Global Instance Reference_inhabited : Inhabited Reference :=
  populate (MkReference [] 0 [] None 0).

(** Object creation: the new object gets the next address. *)
Definition alloc (r : Reference) (h : store) : addr * store := (length h, h ++ [r]).

(** [ref.global_num = n] *)
Definition set_global_num (n : Z) (r : Reference) : Reference :=
  MkReference (local_id r) (local_num r) (definition r) (Some n) (cell_index r).

(** [d[k] = v] on an insertion-ordered dictionary: a key that is present
    keeps its place and takes the new value, a new key goes last. *)
Fixpoint dict_set {V} (k : text) (v : V) (d : list (text * V)) : list (text * V) :=
  match d with
  | [] => [(k, v)]
  | (k', v') :: d' => if bool_decide (k' = k) then (k', v) :: d' else (k', v') :: dict_set k v d'
  end.

(** [enumerate(l, start=n)] *)
Fixpoint enumerate_from {A} (n : Z) (l : list A) : list (Z * A) :=
  match l with
  | [] => []
  | x :: l' => (n, x) :: enumerate_from (n + 1) l'
  end.

(** [l[i:j]] *)
Definition slice {A} (i j : nat) (l : list A) : list A := firstn (j - i) (skipn i l).

(** ** [class ReferenceManager] *)

Record ReferenceManager := MkManager {
  (* Maps definition text -> Reference object (for deduplication) *)
  unique_references : gmap (list ascii) nat;
  (* Maps (cell_index, local_num) -> Reference object *)
  cell_local_refs : gmap (nat * Z) nat;
  (* Ordered list of unique references by first appearance *)
  global_order : list nat
}.

(** [ReferenceManager.__init__] *)
Definition ReferenceManager_init : ReferenceManager := MkManager ∅ ∅ [].

(** The text of one definition: group 3 of its match (the rest of the
    line), then the text up to the next definition start or to the end. *)
Definition definition_text_at (markdown_text : text) (m : Match) : text :=
  let start_pos := m_end m in
  let remaining_text := skipn start_pos markdown_text in
  let definition_text :=
    match search DEFINITION_START_PATTERN remaining_text with
    | Some next_match => group m 3 ++ firstn (m_start next_match) remaining_text
    | None => group m 3 ++ remaining_text
    end in
  strip definition_text.

(** The [Reference] built for one match of [DEFINITION_START_PATTERN]. *)
Definition reference_of_match (cell_index : nat) (markdown_text : text) (m : Match)
    : Reference :=
  let ref_id := group m 1 in
  let local_num := int_of (group m 2) in
  Reference_init ref_id local_num (definition_text_at markdown_text m) cell_index.

(** The definitions loop of [extract_references_from_cell]: one object per
    match, stored under its [ref_id]. *)
Definition extract_definitions (cell_index : nat) (markdown_text : text) (h : store)
    : list (text * nat) * store :=
  foldl (fun '(defined_refs, h) m =>
           let '(ref, h) := alloc (reference_of_match cell_index markdown_text m) h in
           (dict_set (group m 1) ref defined_refs, h))
        ([], h) (finditer DEFINITION_START_PATTERN markdown_text).

(** What [extract_references_from_cell] returns.  Its citations loop also
    converts each bracket number with [int] and drops the number; the
    failure of that conversion, and of the one in the definitions loop, on
    a string of more than [int_max_str_digits] digits is modelled for
    [update_citations_in_text] only, at the end of the embedding. *)
Definition extract_references_from_cell (cell_index : nat) (markdown_text : text)
    (h : store) : gset (list ascii) * list (text * nat) * store :=
  let cited_refs :=
    foldl (fun cited_refs m => cited_refs ∪ {[ group m 2 ]}) ∅
          (finditer CITATION_PATTERN markdown_text) in
  let '(defined_refs, h) := extract_definitions cell_index markdown_text h in
  (cited_refs, defined_refs, h).

(** Notebook cells.  [source] is a string or a list of strings, and may be
    missing from a cell given as a dictionary; a cell type that is missing
    behaves as any type other than ["markdown"]. *)
Inductive Source :=
| SourceStr (s : text)
| SourceList (parts : list text).

Record Cell := MkCell {
  cell_type : string;
  source : option Source;
  references_section : bool   (* metadata['references_section'] *)
}.

Definition is_markdown (cell : Cell) : bool := String.eqb (cell_type cell) "markdown".

(** [source = getattr(cell, 'source', None) or cell.get('source', [])],
    joined when it is a list. *)
Definition source_text (cell : Cell) : text :=
  match source cell with
  | Some (SourceStr s) => s
  | Some (SourceList parts) => concat parts
  | None => []
  end.

(** The body of the inner loop of [build_global_reference_map]. *)
Definition register_definition (cell_idx : nat) (h : store) (self : ReferenceManager)
    (ref : nat) : ReferenceManager :=
  let normalized := normalize_for_dedup (definition (h !!! ref)) in
  match unique_references self !! normalized with
  | Some existing_ref =>
      MkManager (unique_references self)
                (<[(cell_idx, local_num (h !!! ref)) := existing_ref]> (cell_local_refs self))
                (global_order self)
  | None =>
      MkManager (<[normalized := ref]> (unique_references self))
                (<[(cell_idx, local_num (h !!! ref)) := ref]> (cell_local_refs self))
                (global_order self ++ [ref])
  end.

(** The first pass of [build_global_reference_map] on one cell. *)
Definition scan_cell (st : store * ReferenceManager) (icell : nat * Cell)
    : store * ReferenceManager :=
  let '(h, self) := st in
  let '(cell_idx, cell) := icell in
  if negb (is_markdown cell) then (h, self)
  else
    let markdown_text := source_text cell in
    let '(_, defined_refs, h) := extract_references_from_cell cell_idx markdown_text h in
    (h, foldl (fun self '(ref_id, ref) => register_definition cell_idx h self ref)
              self defined_refs).

(** The last loop of [build_global_reference_map]. *)
Definition assign_global_numbers (h : store) (order : list nat) : store :=
  foldl (fun h '(global_num, ref) => alter (set_global_num global_num) ref h)
        h (enumerate_from 1 order).

Definition build_global_reference_map (notebook_cells : list Cell)
    (st : store * ReferenceManager) : store * ReferenceManager :=
  let '(h, self) := foldl scan_cell st (imap (fun i c => (i, c)) notebook_cells) in
  (assign_global_numbers h (global_order self), self).

(** The f-string rendering of [ref.global_num]. *)
Definition format_num (n : option Z) : text :=
  match n with
  | Some n => str_of_int n
  | None => str "None"
  end.

(** The local function [replace_citation] of [update_citations_in_text]. *)
Definition replace_citation (h : store) (self : ReferenceManager) (cell_index : nat)
    (m : Match) : text :=
  let local_num := int_of (group m 1) in
  let key := (cell_index, local_num) in
  match cell_local_refs self !! key with
  | None => group m 0
  | Some ref =>
      let global_num := global_num (h !!! ref) in
      let global_ref_id := str "global_ref" ++ format_num global_num in
      str "[[" ++ format_num global_num ++ str "]](#" ++ global_ref_id ++ str ")"
  end.

(** The text that [update_citations_in_text] returns.  The method as a
    call, which raises where a conversion fails, is
    [update_citations_in_text_call] at the end of the embedding. *)
Definition update_citations_in_text (h : store) (self : ReferenceManager)
    (cell_index : nat) (markdown_text : text) : text :=
  sub CITATION_PATTERN (replace_citation h self cell_index) markdown_text.

(** The first [def remove_reference_section] of the class body. *)
Definition remove_reference_section_first (markdown_text : text) : text :=
  match search REFERENCE_SECTION_PATTERN markdown_text with
  | None => markdown_text
  | Some m => rstrip (firstn (m_start m) markdown_text)
  end.

(** Strategy 2 of the second definition: the loop over
    [enumerate(lines)], which returns at the first [---] line that has a
    definition start in the window [lines[i:min(i+5, len(lines))]]. *)
Fixpoint separator_scan (lines : list text) (todo : list (nat * text)) : option text :=
  match todo with
  | [] => None
  | (i, line) :: todo' =>
      if bool_decide (strip line = str "---") then
        let next_lines := slice i (min (i + 5) (length lines)) lines in
        let next_text := join [newline] next_lines in
        match search DEFINITION_START_PATTERN next_text with
        | Some _ =>
            if (0 <? i)%nat && contains PAGE_BREAK (nth (i - 1) lines []) then
              Some (rstrip (join [newline] (firstn i lines)))
            else
              Some (rstrip (join [newline] (firstn i lines)))
        | None => separator_scan lines todo'
        end
      else separator_scan lines todo'
  end.

(** The second [def remove_reference_section], the one the class keeps. *)
Definition remove_reference_section (markdown_text : text) : text :=
  (* Strategy 1: the explicit separator *)
  match search REFERENCE_SECTION_PATTERN markdown_text with
  | Some m =>
      let before_separator := firstn (m_start m) markdown_text in
      match search page_break_pattern before_separator with
      | Some _ => rstrip before_separator
      | None => rstrip before_separator
      end
  | None =>
      (* Strategy 2: a [---] line followed by definitions *)
      let lines := split_on newline markdown_text in
      match separator_scan lines (imap (fun i l => (i, l)) lines) with
      | Some r => r
      | None =>
          (* Strategy 3: the first definition *)
          match search DEFINITION_START_PATTERN markdown_text with
          | Some m =>
              let before_ref := firstn (m_start m) markdown_text in
              if contains PAGE_BREAK (last_chars 50 before_ref) then rstrip before_ref
              else rstrip before_ref
          | None => markdown_text
          end
      end
  end.

Definition process_markdown_cell (h : store) (self : ReferenceManager)
    (cell_index : nat) (cell : Cell) : Cell :=
  if negb (is_markdown cell) then cell
  else
    let markdown_text := source_text cell in
    (* Step 1: Update citation numbers to global *)
    let markdown_text := update_citations_in_text h self cell_index markdown_text in
    (* Step 2: Remove local reference section *)
    let markdown_text := remove_reference_section markdown_text in
    MkCell (cell_type cell) (Some (SourceStr markdown_text)) (references_section cell).

Definition generate_references_section (h : store) (self : ReferenceManager) : text :=
  match global_order self with
  | [] => []
  | _ =>
      let lines :=
        [[newline; newline]; str "---" ++ [newline]; [newline];
         str "### " ++ References_word ++ [newline]; [newline]] in
      let lines :=
        foldl (fun lines ref =>
                 let r := h !!! ref in
                 let global_ref_id := str "global_ref" ++ format_num (global_num r) in
                 lines ++ [str "<a id=" ++ [dquote] ++ global_ref_id ++ [dquote]
                             ++ str "></a>**[" ++ format_num (global_num r) ++ str "]** "
                             ++ definition r ++ [newline; newline]])
              lines (global_order self) in
      concat lines
  end.

(** [process_notebook]: the notebook is given by its list of cells; the
    result is the list after the in-place updates and the final append. *)
Definition process_notebook (cells : list Cell) (st : store * ReferenceManager)
    : list Cell * (store * ReferenceManager) :=
  (* Step 1: Build global reference map *)
  let '(h, self) := build_global_reference_map cells st in
  (* Step 2: Process all markdown cells *)
  let cells :=
    imap (fun cell_idx cell =>
            if is_markdown cell then process_markdown_cell h self cell_idx cell else cell)
         cells in
  (* Step 3: Add final references section (if any references exist) *)
  match global_order self with
  | [] => (cells, (h, self))
  | _ =>
      let references_markdown := generate_references_section h self in
      let references_cell := MkCell "markdown" (Some (SourceStr references_markdown)) true in
      (cells ++ [references_cell], (h, self))
  end.

(** ** Attribute lookup and [get_local_to_global_map]

    [get_local_to_global_map] reads attributes by name, so the names a
    manager answers to are modelled: its instance dictionary, filled by
    [__init__], and the namespace of the class, filled by the statements of
    the class body in source order, a later binding of a name replacing an
    earlier one. *)

(** The bindings of the class body. *)
Inductive Member :=
| attr_CITATION_PATTERN
| attr_DEFINITION_START_PATTERN
| attr_REFERENCE_SECTION_PATTERN
| def_init
| def_extract_references_from_cell
| def_build_global_reference_map
| def_get_local_to_global_map
| def_remove_reference_section_first    (* the [def] before [update_citations_in_text] *)
| def_update_citations_in_text
| def_remove_reference_section_second   (* the [def] after [update_citations_in_text] *)
| def_process_markdown_cell
| def_generate_references_section
| def_process_notebook.

Definition class_body : list (string * Member) :=
  [ ("CITATION_PATTERN", attr_CITATION_PATTERN);
    ("DEFINITION_START_PATTERN", attr_DEFINITION_START_PATTERN);
    ("REFERENCE_SECTION_PATTERN", attr_REFERENCE_SECTION_PATTERN);
    ("__init__", def_init);
    ("extract_references_from_cell", def_extract_references_from_cell);
    ("build_global_reference_map", def_build_global_reference_map);
    ("get_local_to_global_map", def_get_local_to_global_map);
    ("remove_reference_section", def_remove_reference_section_first);
    ("update_citations_in_text", def_update_citations_in_text);
    ("remove_reference_section", def_remove_reference_section_second);
    ("process_markdown_cell", def_process_markdown_cell);
    ("generate_references_section", def_generate_references_section);
    ("process_notebook", def_process_notebook) ].

(** Executing the class body: each statement binds its name. *)
Definition class_namespace : gmap string Member :=
  foldl (fun ns '(name, m) => <[name := m]> ns) ∅ class_body.

(** The body of the members that take a text and return a text. *)
Definition text_method (m : Member) : option (list ascii -> list ascii) :=
  match m with
  | def_remove_reference_section_first => Some remove_reference_section_first
  | def_remove_reference_section_second => Some remove_reference_section
  | _ => None
  end.

Inductive PyError :=
| AttributeError (name : string)
| TypeError
| KeyError
| IndexError
| ValueError.

Inductive result (A : Type) :=
| Return (a : A)
| Raise (e : PyError).
Arguments Return {A} a.
Arguments Raise {A} e.

(** An exception propagates: [x ← c; k] runs [k] when [c] returns. *)
Global Instance result_bind : MBind result := fun A B f x =>
  match x with
  | Return a => f a
  | Raise e => Raise e
  end.

Fixpoint fold_result {A B} (f : A -> B -> result A) (a : A) (l : list B) : result A :=
  match l with
  | [] => Return a
  | b :: l' => a' ← f a b; fold_result f a' l'
  end.

(** The values an attribute of a manager can hold. *)
Inductive Scalar :=
| SInt (n : Z)
| SStr (s : list ascii)
| STuple (i : nat) (n : Z)
| SRef (a : nat).

Inductive Value :=
| VScalar (x : Scalar)
| VDict (d : list (Scalar * Scalar))
| VList (l : list Scalar)
| VMember (m : Member).

(** [__init__] creates exactly three instance attributes. *)
Definition instance_dict (self : ReferenceManager) : gmap string Value :=
  <["global_order" := VList (SRef <$> global_order self)]>
  (<["cell_local_refs" :=
       VDict ((fun '((i, n), a) => (STuple i n, SRef a)) <$> map_to_list (cell_local_refs self))]>
  (<["unique_references" :=
       VDict ((fun '(k, a) => (SStr k, SRef a)) <$> map_to_list (unique_references self))]>
   ∅)).

(** [self.name]: the instance dictionary, then the class. *)
Definition getattr (self : ReferenceManager) (name : string) : result Value :=
  match instance_dict self !! name with
  | Some v => Return v
  | None =>
      match class_namespace !! name with
      | Some m => Return (VMember m)
      | None => Raise (AttributeError name)
      end
  end.

(** [self.name(markdown_text)] for a method from text to text. *)
Definition call_text_method (self : ReferenceManager) (name : string) (arg : list ascii)
    : result (list ascii) :=
  v ← getattr self name;
  match v with
  | VMember m =>
      match text_method m with
      | Some f => Return (f arg)
      | None => Raise TypeError
      end
  | _ => Raise TypeError
  end.

(** [a == b]; between two references it is [Reference.__eq__]. *)
Definition scalar_eqb (h : store) (a b : Scalar) : bool :=
  match a, b with
  | SInt x, SInt y => bool_decide (x = y)
  | SStr x, SStr y => bool_decide (x = y)
  | STuple i x, STuple j y => bool_decide (i = j) && bool_decide (x = y)
  | SRef x, SRef y => Reference_eq (h !!! x) (h !!! y)
  | _, _ => false
  end.

(** [x in v] *)
Definition value_contains (h : store) (v : Value) (x : Scalar) : result bool :=
  match v with
  | VDict d => Return (existsb (fun kv => scalar_eqb h kv.1 x) d)
  | VList l => Return (existsb (fun y => scalar_eqb h y x) l)
  | VScalar _ | VMember _ => Raise TypeError
  end.

(** [v[x]] *)
Definition value_getitem (h : store) (v : Value) (x : Scalar) : result Scalar :=
  match v with
  | VDict d =>
      match find (fun kv => scalar_eqb h kv.1 x) d with
      | Some kv => Return kv.2
      | None => Raise KeyError
      end
  | VList l =>
      match x with
      | SInt n =>
          if (n <? 0)%Z then Raise IndexError
          else match l !! Z.to_nat n with
               | Some y => Return y
               | None => Raise IndexError
               end
      | _ => Raise TypeError
      end
  | VScalar _ | VMember _ => Raise TypeError
  end.

(** [for y in x], for a scalar [x] found in a container: only a string
    can be iterated. *)
Definition scalar_iter (x : Scalar) : result (list Scalar) :=
  match x with
  | SStr s => Return ((fun c => SStr [c]) <$> s)
  | _ => Raise TypeError
  end.

(** [ref.local_num], [ref.global_num] for a value found in a container. *)
Definition reference_fields (h : store) (x : Scalar) : result (Z * option Z) :=
  match x with
  | SRef a => Return (local_num (h !!! a), global_num (h !!! a))
  | _ => Raise (AttributeError "local_num")
  end.

(** [mapping[k] = v] on a dictionary with integer keys. *)
Fixpoint mapping_set (k : Z) (v : option Z) (d : list (Z * option Z)) : list (Z * option Z) :=
  match d with
  | [] => [(k, v)]
  | (k', v') :: d' =>
      if bool_decide (k' = k) then (k', v) :: d' else (k', v') :: mapping_set k v d'
  end.

Definition get_local_to_global_map (h : store) (self : ReferenceManager)
    (cell_index : nat) : result (list (Z * option Z)) :=
  let mapping := [] in
  cell_references ← getattr self "cell_references";
  present ← value_contains h cell_references (SInt (Z.of_nat cell_index));
  if negb present then Return mapping
  else
    entry ← value_getitem h cell_references (SInt (Z.of_nat cell_index));
    ref_ids ← scalar_iter entry;
    fold_result
      (fun (mapping : list (Z * option Z)) (ref_id : Scalar) =>
         (references ← getattr self "references";
          present ← value_contains h references ref_id;
          if present : bool then
            ref ← value_getitem h references ref_id;
            fields ← reference_fields h ref;
            Return (mapping_set fields.1 fields.2 mapping)
          else Return mapping) : result (list (Z * option Z)))
      mapping ref_ids.

(** ** Conversions that fail, and [update_citations_in_text] as a call

    CPython converts neither a string of more than
    [sys.get_int_max_str_digits()] digits to an [int] nor an [int] of more
    than that many digits to a string: both raise [ValueError].  The module
    leaves the limit at its default. *)
Definition int_max_str_digits : nat := 4300.

(** [int(s)] on a string of decimal digits. *)
Definition int_call (s : text) : result Z :=
  if Nat.ltb int_max_str_digits (length s) then Raise ValueError else Return (int_of s).

(** [f"{global_num}"]: the digits of the number are counted without its
    sign. *)
Definition format_num_call (n : option Z) : result text :=
  match n with
  | Some n =>
      if Nat.ltb int_max_str_digits (length (str_of_int (Z.abs n))) then Raise ValueError
      else Return (str_of_int n)
  | None => Return (str "None")
  end.

(** [p.sub(repl, s)] with a replacement function that may raise: the
    matches are replaced from left to right, and the first exception ends
    the call. *)
Fixpoint sub_from_call (p : regex) (repl : Match -> result text) (skip : nat) (bol : bool)
    (pos : nat) (s : text) : result text :=
  match s with
  | [] => Return []
  | c :: s' =>
      match skip with
      | S k => sub_from_call p repl k (is_newline c) (S pos) s'
      | O =>
          match match_here p (start_state bol) s with
          | Some (st, _) =>
              replacement ← repl (match_at pos st);
              rest ← sub_from_call p repl (length (matched st) - 1) (is_newline c) (S pos) s';
              Return (replacement ++ rest)
          | None =>
              rest ← sub_from_call p repl 0 (is_newline c) (S pos) s';
              Return (c :: rest)
          end
      end
  end.

Definition sub_call (p : regex) (repl : Match -> result text) (s : text) : result text :=
  sub_from_call p repl 0 true 0 s.

(** The local function [replace_citation], as a call. *)
Definition replace_citation_call (h : store) (self : ReferenceManager) (cell_index : nat)
    (m : Match) : result text :=
  local_num ← int_call (group m 1);
  let key := (cell_index, local_num) in
  match cell_local_refs self !! key with
  | None => Return (group m 0)
  | Some ref =>
      let global_num := global_num (h !!! ref) in
      number ← format_num_call global_num;
      let global_ref_id := str "global_ref" ++ number in
      number' ← format_num_call global_num;
      Return (str "[[" ++ number' ++ str "]](#" ++ global_ref_id ++ str ")")
  end.

(** [update_citations_in_text], as a call: it returns the text that
    [update_citations_in_text] above computes, or raises. *)
Definition update_citations_in_text_call (h : store) (self : ReferenceManager)
    (cell_index : nat) (markdown_text : text) : result text :=
  sub_call CITATION_PATTERN (replace_citation_call h self cell_index) markdown_text.

(** * Vocabulary of the verification *)

(** ** The matcher *)

(** The state after the characters of [w] were matched one by one. *)
Definition eats (st : mstate) (w : list ascii) : mstate := fold_left eat w st.

(** Whether the position after [u] is at the start of a line. *)
Definition bol_after (bol : bool) (u : list ascii) : bool :=
  fold_left (fun _ c => is_newline c) u bol.

(** The number of characters a match of the pattern has at least. *)
Fixpoint min_len (p : list item) : nat :=
  match p with
  | [] => 0
  | (One _ | Plus _) :: p' => S (min_len p')
  | _ :: p' => min_len p'
  end.

(** Patterns without [^] and [$]. *)
Definition anchor_free (p : list item) : bool :=
  forallb (fun i => match i with Bol | Eos => false | _ => true end) p.

(** The first literal character a pattern asks for, if it starts with
    one (group parentheses do not count). *)
Fixpoint first_chr (p : list item) : option ascii :=
  match p with
  | One (Chr c) :: _ => Some c
  | (Open | Close) :: p' => first_chr p'
  | _ => None
  end.

(** What a continuation does when it succeeds: it takes a prefix [u] of
    the input, of at least [n] characters, and extends the matched text by
    it. *)
Definition consumes (n : nat) (k : mstate -> list ascii -> option (mstate * list ascii)) : Prop :=
  forall st s st' rest,
    k st s = Some (st', rest) ->
    exists u, s = u ++ rest /\ matched st' = matched st ++ u
              /\ at_bol st' = bol_after (at_bol st) u /\ n <= length u.

(** A text in which a pattern has no match. *)
Definition no_match (p : list item) (t : list ascii) : bool :=
  match search p t with
  | None => true
  | Some _ => false
  end.

(** A text without the character [c]. *)
Definition free_of (c : ascii) (t : list ascii) : bool :=
  forallb (fun x => negb (Ascii.eqb x c)) t.

Definition not_newline (c : ascii) : bool := negb (is_newline c).

Definition is_dot (c : ascii) : bool := Ascii.eqb c ".".

(** ** Markup *)

(** A non-empty string of decimal digits. *)
Definition is_digits (s : list ascii) : bool :=
  match s with
  | [] => false
  | _ => forallb is_digit s
  end.

(** The citation markup with bracket number [N] and anchor digits [D]. *)
Definition citation (N D : list ascii) : list ascii :=
  str "[[" ++ N ++ str "]](#ref" ++ D ++ str ")".

(** The canonical citation for a global number. *)
Definition global_citation (G : list ascii) : list ascii :=
  str "[[" ++ G ++ str "]](#global_ref" ++ G ++ str ")".

(** A decimal numeral of the number [n], for [n] not negative: its
    decimal writing after [z] zeros.  Every non-empty string of digits is
    one (lemma [is_digits_numeral]). *)
Definition numeral (z : nat) (n : Z) : list ascii := repeat "0"%char z ++ str_of_int n.

(** The state after a citation was matched. *)
Definition citation_state (st : mstate) (N D : list ascii) : mstate :=
  MState false (matched st ++ citation N D) (str "ref" ++ D ++ str ")")
         (closed st ++ [N; str "ref" ++ D]).

(** The definition markup: the anchor [refD], the bracket number [N], a
    blank and the text. *)
Definition definition_markup (D N body : list ascii) : list ascii :=
  str "<a id=" ++ [dquote] ++ str "ref" ++ D ++ [dquote] ++ str "></a>["
    ++ N ++ str "] " ++ body.

(** Whether position [pos] of [t] is the start of a line. *)
Definition at_line_start (t : list ascii) (pos : nat) : bool :=
  match pos with
  | 0 => true
  | S k => match nth_error t k with
           | Some c => is_newline c
           | None => false
           end
  end.

(** ** Normalized text *)

(** Whether two periods stand side by side somewhere in the text. *)
Fixpoint adjacent_dots (s : list ascii) : bool :=
  match s with
  | [] => false
  | c :: s' =>
      (is_dot c && match s' with c' :: _ => is_dot c' | [] => false end) || adjacent_dots s'
  end.

(** [' '.join(t.split())] *)
Definition squeeze (t : list ascii) : list ascii := join (str " ") (split_ws t).

(** A word of [split()]: not empty, no white space. *)
Definition is_word (w : list ascii) : bool :=
  match w with
  | [] => false
  | _ => forallb (fun c => negb (is_space c)) w
  end.

(** ** Documents and the registry *)

(** A markdown cell holding one string. *)
Definition markdown_cell (t : list ascii) : Cell := MkCell "markdown" (Some (SourceStr t)) false.

(** The state before any cell was read: no object, a new manager. *)
Definition fresh : list Reference * ReferenceManager := ([], ReferenceManager_init).

(** The normalized definition text of the object at an address, the key
    of deduplication. *)
Definition norm_at (h : list Reference) (a : nat) : list ascii :=
  normalize_for_dedup (definition (h !!! a)).

(** The key of a reference in [cell_local_refs]. *)
Definition key_of (r : Reference) : nat * Z := (cell_index r, local_num r).

(** The key of the object at an address in [cell_local_refs]. *)
Definition key_at (h : list Reference) (a : nat) : nat * Z :=
  (cell_index (h !!! a), local_num (h !!! a)).

(** The definitions found in a cell, in the order of the text: one
    [Reference] per match of the definition pattern. *)
Definition found_in_cell (cell_idx : nat) (cell : Cell) : list Reference :=
  if is_markdown cell
  then map (reference_of_match cell_idx (source_text cell))
           (finditer DEFINITION_START_PATTERN (source_text cell))
  else [].

(** The definitions found in a document: cells in index order, and within
    a cell the order of the text. *)
Definition all_definitions (cells : list Cell) : list Reference :=
  concat (imap found_in_cell cells).

(** The references of a list that are the first with their normalized
    text. *)
Fixpoint first_occurrences_from (seen : list (list ascii)) (l : list Reference)
    : list Reference :=
  match l with
  | [] => []
  | r :: l' =>
      let k := normalize_for_dedup (definition r) in
      if bool_decide (k ∈ seen) then first_occurrences_from seen l'
      else r :: first_occurrences_from (k :: seen) l'
  end.

Definition first_occurrences (l : list Reference) : list Reference :=
  first_occurrences_from [] l.

(** Numbering from 1 in list order. *)
Definition numbered (l : list Reference) : list Reference :=
  imap (fun i r => set_global_num (Z.of_nat i + 1) r) l.

(** No cell gives two of its definitions the same anchor. *)
Definition distinct_anchors (cells : list Cell) : bool :=
  forallb (fun refs => bool_decide (NoDup (map local_id refs))) (imap found_in_cell cells).

(** No cell gives two of its definitions the same bracket number. *)
Definition distinct_numbers (cells : list Cell) : bool :=
  forallb (fun refs => bool_decide (NoDup (map local_num refs))) (imap found_in_cell cells).

(** One turn of the definitions loop of [extract_references_from_cell],
    on the dictionary and the store. *)
Definition definitions_step (cell_index : nat) (t : list ascii)
    (acc : list (list ascii * nat) * list Reference) (m : Match) :=
  (dict_set (group m 1) (length acc.2) acc.1, acc.2 ++ [reference_of_match cell_index t m]).

(** [register_definition] for the object at an address, in the cell the
    object names. *)
Definition register_at (h : list Reference) (self : ReferenceManager) (a : nat)
    : ReferenceManager :=
  register_definition (cell_index (h !!! a)) h self a.

(** The invariant of the first pass: [global_order] has no address twice,
    and each of its addresses is a stored object whose normalized text is
    a key of [unique_references]. *)
Definition registry_ok (st : list Reference * ReferenceManager) : Prop :=
  NoDup (global_order st.2)
  /\ forall a, a ∈ global_order st.2 ->
       a < length st.1 /\ is_Some (unique_references st.2 !! norm_at st.1 a).

(** The entries of [unique_references] are canonical: the object of a key
    has that normalized text and is listed in [global_order]. *)
Definition canonical (h : list Reference) (self : ReferenceManager) : Prop :=
  forall k c, unique_references self !! k = Some c ->
              norm_at h c = k /\ c ∈ global_order self.

(** A document whose markdown cells have no citation occurrence and no
    definition. *)
Definition reference_free (cells : list Cell) : bool :=
  forallb (fun cell => negb (is_markdown cell)
                       || (no_match CITATION_PATTERN (source_text cell)
                           && no_match DEFINITION_START_PATTERN (source_text cell))) cells.

(** A document in which no markdown cell has the explicit separator of
    strategy 1. *)
Definition separator_free (cells : list Cell) : bool :=
  forallb (fun cell => negb (is_markdown cell)
                       || no_match REFERENCE_SECTION_PATTERN (source_text cell)) cells.

(** The document after [process_notebook] has the same texts, cell by
    cell, and no cell more. *)
Definition texts_unchanged (cells : list Cell) : Prop :=
  map source_text (process_notebook cells fresh).1 = map source_text cells.

(** A match of the citation pattern whose bracket number has at most
    [int_max_str_digits] digits. *)
Definition short_number (m : Match) : bool := Nat.leb (length (group m 1)) int_max_str_digits.

(** The bracket number of every citation occurrence of the text has at
    most [int_max_str_digits] digits. *)
Definition bracket_numbers_within_limit (t : list ascii) : bool :=
  forallb short_number (finditer CITATION_PATTERN t).



(** ** Properties that the code does not have for every input

    Each is stated here in the words of the specification; below, a
    counterexample refutes it, and the property that holds instead is
    proved next to it. *)

(** Two definitions of the document with the same normalized text
    resolve, through their keys, to one object. *)
Definition dedup_correct (cells : list Cell) : Prop :=
  let '(h, self) := build_global_reference_map cells fresh in
  forall r1 r2,
    r1 ∈ all_definitions cells -> r2 ∈ all_definitions cells ->
    normalize_for_dedup (definition r1) = normalize_for_dedup (definition r2) ->
    exists a, cell_local_refs self !! (cell_index r1, local_num r1) = Some a
              /\ cell_local_refs self !! (cell_index r2, local_num r2) = Some a.

(** [global_order] lists the unique references in order of first
    appearance in the document. *)
Definition first_appearance_order (cells : list Cell) : Prop :=
  let '(h, self) := build_global_reference_map cells fresh in
  map (fun a => definition (h !!! a)) (global_order self)
  = map definition (first_occurrences (all_definitions cells)).

(** Normalizing twice is normalizing once. *)
Definition idempotent_at (t : list ascii) : Prop :=
  normalize_for_dedup (normalize_for_dedup t) = normalize_for_dedup t.

(** A document without citations and definitions comes back unchanged. *)
Definition round_trip_stable (cells : list Cell) : Prop :=
  reference_free cells = true -> texts_unchanged cells.


(** Every definition start that the extractor finds in [t] begins a
    line. *)
Definition detected_only_at_line_start (t : list ascii) : Prop :=
  Forall (fun m => at_line_start t (m_start m) = true)
         (finditer DEFINITION_START_PATTERN t).

(** ** Scenarios *)

(** Scenario A of the specification: two cells define the same source. *)
Definition scenario_A : list Cell :=
  [ markdown_cell (str "See " ++ citation (str "1") (str "1") ++ str "." ++ [newline]
                     ++ definition_markup (str "1") (str "1")
                          (str "Smith, J. (2020). Title. Press."));
    MkCell "code" (Some (SourceStr (str "x = 1"))) false;
    markdown_cell (str "Again " ++ citation (str "1") (str "1") ++ str "." ++ [newline]
                     ++ definition_markup (str "1") (str "1")
                          (str "Smith, J. (2020). Title. Press.")) ].

(** Scenario B of the specification: the same source, once with a note in
    parentheses at the end. *)
Definition scenario_B : list Cell :=
  [ markdown_cell (definition_markup (str "1") (str "1") (str "Foo. (see also appendix)."));
    markdown_cell (definition_markup (str "1") (str "1") (str "Foo.")) ].

(** Scenario C of the specification: a page-break marker on the line
    before the separator. *)
Definition scenario_C : list ascii :=
  str "Body" ++ [newline] ++ PAGE_BREAK ++ [newline] ++ str "---" ++ [newline]
    ++ str "**" ++ References_word ++ str " :**" ++ [newline]
    ++ definition_markup (str "1") (str "1") (str "Foo.").

(** Scenario D of the specification: a citation of number 5 in a cell
    whose only definition has number 2. *)
Definition scenario_D : list ascii :=
  str "See " ++ citation (str "5") (str "5") ++ str "." ++ [newline; newline]
    ++ definition_markup (str "2") (str "2") (str "Foo.").

Definition scenario_D_registry : list Reference * ReferenceManager :=
  build_global_reference_map [markdown_cell scenario_D] fresh.

(** The scenario of the specification for the join: the citation carries
    the anchor [ref9], the definition the anchor [ref2], both the number
    2. *)
Definition join_text : list ascii :=
  str "See " ++ citation (str "2") (str "9") ++ str "." ++ [newline; newline]
    ++ definition_markup (str "2") (str "2") (str "Foo.").

Definition join_registry : list Reference * ReferenceManager :=
  build_global_reference_map [markdown_cell join_text] fresh.

(** A citation whose bracket number is the number 1 written with 4301
    digits, after 4300 zeros. *)
Definition long_number_citation : list ascii := citation (numeral 4300 1) (str "5").

(** A text with a definition but no separator: the first
    [remove_reference_section] keeps it whole, the second cuts it at the
    definition. *)
Definition shadow_text : list ascii :=
  str "Body" ++ [newline] ++ definition_markup (str "1") (str "1") (str "Foo.").

(** The markup in the middle of a line. *)
Definition midline_text : list ascii :=
  str "See " ++ definition_markup (str "1") (str "1") (str "Foo.").

(** A cell with the explicit separator and no definition after it. *)
Definition separator_only_cell : Cell :=
  markdown_cell (str "Intro" ++ [newline] ++ str "---" ++ [newline]
                   ++ str "**" ++ References_word ++ str " :**" ++ [newline] ++ str "plain").

(** A cell that uses the anchor [ref1] twice. *)
Definition repeated_anchor_cell : Cell :=
  markdown_cell (definition_markup (str "1") (str "1") (str "A.") ++ [newline]
                   ++ definition_markup (str "2") (str "2") (str "B.") ++ [newline]
                   ++ definition_markup (str "1") (str "3") (str "C.")).

(** A document in which a cell gives the bracket number 1 twice. *)
Definition repeated_number_cells : list Cell :=
  [ markdown_cell (definition_markup (str "1") (str "1") (str "Foo.") ++ [newline]
                     ++ definition_markup (str "2") (str "1") (str "Bar."));
    markdown_cell (definition_markup (str "1") (str "1") (str "Foo.")) ].

(** * Further vocabulary: the module beyond the specification *)

(** ** The matcher *)

(** Patterns without [^]. *)
Definition bol_free (p : list item) : bool :=
  forallb (fun i => match i with Bol => false | _ => true end) p.

(** Two match states that differ at most in the start-of-line flag. *)
Definition same_text (st1 st2 : mstate) : Prop :=
  matched st1 = matched st2 /\ current st1 = current st2 /\ closed st1 = closed st2.

(** Two results of a match attempt that differ at most in that flag. *)
Definition same_result (r1 r2 : option (mstate * list ascii)) : Prop :=
  match r1, r2 with
  | Some (st1, rest1), Some (st2, rest2) => same_text st1 st2 /\ rest1 = rest2
  | None, None => True
  | _, _ => False
  end.

(** ** Markup *)

(** A page-break marker, with any white space around its word. *)
Definition page_break_marker (ws1 ws2 : list ascii) : list ascii :=
  str "<!--" ++ ws1 ++ str "PAGE_BREAK" ++ ws2 ++ str "-->".

(** What may follow the closing parenthesis of a trailing note: white
    space, at most one period, white space. *)
Definition is_note_tail (tail : list ascii) : bool :=
  match drop_while is_space tail with
  | [] => true
  | c :: r => is_dot c && forallb is_space r
  end.

(** A trailing note: the white space before it, the parentheses and what
    follows them. *)
Definition trailing_note (ws note tail : list ascii) : list ascii :=
  ws ++ str "(" ++ note ++ str ")" ++ tail.

(** ** The registry *)

(** What the first pass of [build_global_reference_map] keeps true of the
    store and the three containers, for the cells of the document: the
    registry is well formed; the listed references have pairwise different
    normalized texts; [unique_references] is canonical; and every entry of
    [cell_local_refs] is listed and stands for a definition of its cell
    with that bracket number and that normalized text. *)
Definition registry_sound (cells : list Cell) (st : list Reference * ReferenceManager) : Prop :=
  registry_ok st
  /\ NoDup (map (norm_at st.1) (global_order st.2))
  /\ canonical st.1 st.2
  /\ forall i n a,
       cell_local_refs st.2 !! (i, n) = Some a ->
       a ∈ global_order st.2
       /\ exists cell r,
            cells !! i = Some cell /\ r ∈ found_in_cell i cell /\ local_num r = n
            /\ normalize_for_dedup (definition r) = norm_at st.1 a.

(** The definitions found in the cell at index [i] of a document. *)
Definition definitions_of_cell (cells : list Cell) (i : nat) : list Reference :=
  match cells !! i with
  | Some cell => found_in_cell i cell
  | None => []
  end.

(** Whether the cell at index [i] has a definition with the bracket number
    [n]. *)
Definition defines_number (cells : list Cell) (i : nat) (n : Z) : bool :=
  existsb (fun r => bool_decide (local_num r = n)) (definitions_of_cell cells i).

(** ** The references section *)

(** The five header lines of the section that [generate_references_section]
    writes. *)
Definition section_header : list ascii :=
  [newline; newline] ++ (str "---" ++ [newline]) ++ [newline]
    ++ (str "### " ++ References_word ++ [newline]) ++ [newline].

(** The entry of the section for the global number [n]. *)
Definition reference_entry (n : Z) (definition : list ascii) : list ascii :=
  str "<a id=" ++ [dquote] ++ (str "global_ref" ++ str_of_int n) ++ [dquote]
    ++ str "></a>**[" ++ str_of_int n ++ str "]** " ++ definition ++ [newline; newline].

(** The section for a list of definition texts, numbered from 1. *)
Definition references_section_of (definitions : list (list ascii)) : list ascii :=
  match definitions with
  | [] => []
  | _ => section_header
         ++ concat (imap (fun k d => reference_entry (Z.of_nat k + 1) d) definitions)
  end.

(** The cell that [process_notebook] appends. *)
Definition references_cell (references_markdown : list ascii) : Cell :=
  MkCell "markdown" (Some (SourceStr references_markdown)) true.

(** ** Citations *)

(** Whether every citation of the text has an entry in [cell_local_refs]
    for the cell [cell_index]. *)
Definition all_citations_resolve (self : ReferenceManager) (cell_index : nat)
    (markdown_text : list ascii) : bool :=
  forallb (fun m => match cell_local_refs self !! (cell_index, int_of (group m 1)) with
                    | Some _ => true
                    | None => false
                    end)
          (finditer CITATION_PATTERN markdown_text).

(** ** Reference sections *)

(** Whether some line of the text is a rule, [---] with white space
    around it at most. *)
Definition has_rule_line (markdown_text : list ascii) : bool :=
  existsb (fun line => bool_decide (strip line = str "---"))
          (split_on newline markdown_text).

(** ** A footer of definitions *)

(** One definition of a footer: the digits of its anchor, the digits of its
    bracket number, the first character of its text and the rest of the
    text, up to the next definition. *)
Record Entry := MkEntry {
  e_anchor : list ascii;
  e_number : list ascii;
  e_first : ascii;
  e_rest : list ascii
}.

Definition entry_markup (e : Entry) : list ascii :=
  definition_markup (e_anchor e) (e_number e) (e_first e :: e_rest e).

(** The footer: the definitions one after the other. *)
Fixpoint entries_text (es : list Entry) : list ascii :=
  match es with
  | [] => []
  | e :: es' => entry_markup e ++ entries_text es'
  end.

(** A footer is well formed when each definition has digits for its anchor
    and its number, a text that starts with a character other than white
    space and has no ['<'], and, unless it is the last, a line end before
    the next definition. *)
Fixpoint entries_ok (es : list Entry) : bool :=
  match es with
  | [] => true
  | e :: es' =>
      is_digits (e_anchor e) && is_digits (e_number e) && negb (is_space (e_first e))
      && free_of "<" (e_rest e)
      && match es' with [] => true | _ => existsb is_newline (e_rest e) end
      && entries_ok es'
  end.

Definition entry_id (e : Entry) : list ascii := str "ref" ++ e_anchor e.

(** The [Reference] that a definition of a footer stands for. *)
Definition entry_reference (cell_index : nat) (e : Entry) : Reference :=
  Reference_init (entry_id e) (int_of (e_number e)) (strip (e_first e :: e_rest e)) cell_index.

(** A footer of two definitions, the first over two lines. *)
Definition footer_entries : list Entry :=
  [ MkEntry (str "1") (str "1") "A" (str "uthor," ++ [newline] ++ str "Title." ++ [newline]);
    MkEntry (str "2") (str "2") "B" (str "ook.") ].

(** The definition markup up to its bracket number, with no text after
    it. *)
Definition definition_head (D N : list ascii) : list ascii :=
  str "<a id=" ++ [dquote] ++ str "ref" ++ D ++ [dquote] ++ str "></a>[" ++ N ++ str "]".

(** * Verification *)

(** ** Attribute lookup *)

Lemma instance_dict_lookup_other (self : ReferenceManager) (name : string) :
  name ≠ "global_order" -> name ≠ "cell_local_refs" -> name ≠ "unique_references" ->
  instance_dict self !! name = None.
Proof.
  intros H1 H2 H3. unfold instance_dict.
  rewrite !lookup_insert_ne by congruence. apply lookup_empty.
Qed.

Lemma class_namespace_remove_reference_section :
  class_namespace !! "remove_reference_section" = Some def_remove_reference_section_second.
Proof. reflexivity. Qed.

Lemma class_namespace_no_cell_references :
  class_namespace !! "cell_references" = None.
Proof. reflexivity. Qed.

Lemma getattr_remove_reference_section (self : ReferenceManager) :
  getattr self "remove_reference_section" = Return (VMember def_remove_reference_section_second).
Proof.
  unfold getattr. rewrite instance_dict_lookup_other by discriminate.
  now rewrite class_namespace_remove_reference_section.
Qed.

Lemma getattr_cell_references (self : ReferenceManager) :
  getattr self "cell_references" = Raise (AttributeError "cell_references").
Proof.
  unfold getattr. rewrite instance_dict_lookup_other by discriminate.
  now rewrite class_namespace_no_cell_references.
Qed.

Lemma shadow_text_first : remove_reference_section_first shadow_text = shadow_text.
Proof. vm_compute. reflexivity. Qed.

Lemma shadow_text_second : remove_reference_section shadow_text = str "Body".
Proof. vm_compute. reflexivity. Qed.

(** C8: the class body defines [remove_reference_section] twice; the two
    definitions differ on some text, the class namespace keeps the second
    one, and a call of the method on any manager runs the second one. *)
Theorem remove_reference_section_shadowing :
  (exists t, remove_reference_section_first t <> remove_reference_section t) /\
  (exists before between after,
      class_body = before ++ [("remove_reference_section", def_remove_reference_section_first)]
                     ++ between ++ [("remove_reference_section", def_remove_reference_section_second)]
                     ++ after) /\
  class_namespace !! "remove_reference_section" = Some def_remove_reference_section_second /\
  (forall self t,
      call_text_method self "remove_reference_section" t = Return (remove_reference_section t)).
Proof.
  split; [|split; [|split]].
  - exists shadow_text. rewrite shadow_text_first, shadow_text_second. discriminate.
  - exists (firstn 7 class_body), [("update_citations_in_text", def_update_citations_in_text)],
      (skipn 10 class_body). reflexivity.
  - exact class_namespace_remove_reference_section.
  - intros self t. unfold call_text_method.
    rewrite getattr_remove_reference_section. reflexivity.
Qed.

(** C10: [get_local_to_global_map] raises [AttributeError] on the first
    attribute it reads, [cell_references], whatever the manager, the store
    and the cell index; it never returns a mapping. *)
Theorem get_local_to_global_map_raises :
  forall (h : list Reference) (self : ReferenceManager) (cell_index : nat),
    get_local_to_global_map h self cell_index = Raise (AttributeError "cell_references").
Proof.
  intros h self cell_index. unfold get_local_to_global_map.
  rewrite getattr_cell_references. reflexivity.
Qed.

(** ** The matcher *)

Lemma matched_eats st w : matched (eats st w) = matched st ++ w.
Proof.
  revert st. induction w as [|c w IH]; intros st; simpl.
  - now rewrite app_nil_r.
  - rewrite IH. simpl. now rewrite <- app_assoc.
Qed.

Lemma current_eats st w : current (eats st w) = current st ++ w.
Proof.
  revert st. induction w as [|c w IH]; intros st; simpl.
  - now rewrite app_nil_r.
  - rewrite IH. simpl. now rewrite <- app_assoc.
Qed.

Lemma closed_eats st w : closed (eats st w) = closed st.
Proof. revert st. induction w as [|c w IH]; intros st; simpl; [|rewrite IH]; reflexivity. Qed.

Lemma at_bol_eats st w : at_bol (eats st w) = bol_after (at_bol st) w.
Proof. revert st. induction w as [|c w IH]; intros st; simpl; [|rewrite IH]; reflexivity. Qed.

Lemma bol_after_cons bol c w : bol_after bol (c :: w) = bol_after (is_newline c) w.
Proof. reflexivity. Qed.

Lemma star_consumes a n k : consumes n k -> consumes n (star a k).
Proof.
  intros Hk st s. revert st. induction s as [|c s IH]; intros st st' rest H; simpl in H.
  - now apply Hk in H.
  - destruct (accepts a c); [|now apply Hk in H].
    destruct (star a k (eat st c) s) as [r|] eqn:E; [|now apply Hk in H].
    injection H as ->. apply IH in E as (u & -> & Hm & Hb & Hn).
    exists (c :: u). simpl in *. rewrite Hm, <- app_assoc. repeat split; auto; lia.
Qed.

Lemma match_here_consumes p : consumes (min_len p) (match_here p).
Proof.
  induction p as [|i p IH]; intros st s st' rest H.
  - injection H as -> ->. exists []. simpl. rewrite app_nil_r. auto.
  - destruct i as [a|a|a|a| | | | ]; simpl in H; simpl.
    + destruct s as [|c s]; [discriminate|]. destruct (accepts a c); [|discriminate].
      apply IH in H as (u & -> & Hm & Hb & Hn). exists (c :: u). simpl in *.
      rewrite Hm, <- app_assoc. repeat split; auto; lia.
    + now apply (star_consumes a _ _ IH) in H.
    + destruct s as [|c s]; [discriminate|]. destruct (accepts a c); [|discriminate].
      apply (star_consumes a _ _ IH) in H as (u & -> & Hm & Hb & Hn). exists (c :: u). simpl in *.
      rewrite Hm, <- app_assoc. repeat split; auto; lia.
    + destruct s as [|c s]; [now apply IH in H|].
      destruct (accepts a c); [|now apply IH in H].
      destruct (match_here p (eat st c) s) as [r|] eqn:E; [|now apply IH in H].
      injection H as ->. apply IH in E as (u & -> & Hm & Hb & Hn).
      exists (c :: u). simpl in *. rewrite Hm, <- app_assoc. repeat split; auto; lia.
    + destruct (at_bol st) eqn:Eb; [|discriminate].
      apply IH in H as (u & ? & ? & Hb & ?). rewrite Eb in Hb. exists u; auto.
    + destruct s as [|c [|c' s]]; [now apply IH in H| |discriminate].
      destruct (is_newline c); [|discriminate]. now apply IH in H.
    + apply IH in H as (u & ? & ? & ? & ?). exists u. auto.
    + apply IH in H as (u & ? & ? & ? & ?). exists u. auto.
Qed.

(** A successful match from the start state: the input is the matched
    text followed by what is left. *)
Lemma match_here_start p bol s st rest :
  match_here p (start_state bol) s = Some (st, rest) ->
  s = matched st ++ rest /\ at_bol st = bol_after bol (matched st)
  /\ min_len p <= length (matched st).
Proof.
  intros H. apply match_here_consumes in H as (u & -> & Hm & Hb & Hn).
  simpl in Hm, Hb. subst u. auto.
Qed.

(** ** The scans: [search], [finditer], [sub] *)

Section scans.
Variable p : list item.

Lemma sub_from_skip repl u bol pos rest :
  sub_from p repl (length u) bol pos (u ++ rest)
  = sub_from p repl 0 (bol_after bol u) (pos + length u) rest.
Proof.
  revert bol pos. induction u as [|c u IH]; intros bol pos; simpl.
  - rewrite Nat.add_0_r. now destruct rest.
  - rewrite IH. f_equal. lia.
Qed.

Lemma finditer_from_skip u bol pos rest :
  finditer_from p (length u) bol pos (u ++ rest)
  = finditer_from p 0 (bol_after bol u) (pos + length u) rest.
Proof.
  revert bol pos. induction u as [|c u IH]; intros bol pos; simpl.
  - rewrite Nat.add_0_r. now destruct rest.
  - rewrite IH. f_equal. lia.
Qed.

Lemma sub_from_miss repl bol pos c s :
  match_here p (start_state bol) (c :: s) = None ->
  sub_from p repl 0 bol pos (c :: s) = c :: sub_from p repl 0 (is_newline c) (S pos) s.
Proof. intros H. simpl. now rewrite H. Qed.

Lemma finditer_from_miss bol pos c s :
  match_here p (start_state bol) (c :: s) = None ->
  finditer_from p 0 bol pos (c :: s) = finditer_from p 0 (is_newline c) (S pos) s.
Proof. intros H. simpl. now rewrite H. Qed.

Lemma search_from_miss bol pos c s :
  match_here p (start_state bol) (c :: s) = None ->
  search_from p bol pos (c :: s) = search_from p (is_newline c) (S pos) s.
Proof. intros H. simpl. now rewrite H. Qed.

Hypothesis p_nonempty : 0 < min_len p.

Lemma sub_from_hit repl bol pos s st rest :
  match_here p (start_state bol) s = Some (st, rest) ->
  sub_from p repl 0 bol pos s
  = repl (match_at pos st) ++ sub_from p repl 0 (at_bol st) (pos + length (matched st)) rest.
Proof using p_nonempty.
  intros H. pose proof (match_here_start _ _ _ _ _ H) as (-> & Hb & Hn).
  destruct (matched st) as [|c w] eqn:Em; [simpl in Hn; lia|].
  simpl app at 1. cbn [sub_from]. simpl app in H. rewrite H, Em.
  f_equal. replace (length (c :: w) - 1) with (length w) by (simpl; lia).
  rewrite sub_from_skip, Hb. simpl. f_equal. lia.
Qed.

Lemma finditer_from_hit bol pos s st rest :
  match_here p (start_state bol) s = Some (st, rest) ->
  finditer_from p 0 bol pos s
  = match_at pos st :: finditer_from p 0 (at_bol st) (pos + length (matched st)) rest.
Proof using p_nonempty.
  intros H. pose proof (match_here_start _ _ _ _ _ H) as (-> & Hb & Hn).
  destruct (matched st) as [|c w] eqn:Em; [simpl in Hn; lia|].
  simpl app at 1. cbn [finditer_from]. simpl app in H. rewrite H, Em.
  f_equal. replace (length (c :: w) - 1) with (length w) by (simpl; lia).
  rewrite finditer_from_skip, Hb. simpl. f_equal. lia.
Qed.

(** Induction along a scan: either the pattern fails at the head and the
    scan moves by one character, or it matches and the scan resumes after
    the match. *)
Lemma scan_ind (P : bool -> nat -> list ascii -> Prop) :
  (forall bol pos, P bol pos []) ->
  (forall bol pos c s,
      match_here p (start_state bol) (c :: s) = None ->
      P (is_newline c) (S pos) s -> P bol pos (c :: s)) ->
  (forall bol pos st rest,
      match_here p (start_state bol) (matched st ++ rest) = Some (st, rest) ->
      matched st <> [] ->
      P (at_bol st) (pos + length (matched st)) rest -> P bol pos (matched st ++ rest)) ->
  forall bol pos s, P bol pos s.
Proof using p_nonempty.
  intros Hnil Hmiss Hhit bol pos s.
  remember (length s) as n eqn:Hn. revert bol pos s Hn.
  induction n as [n IH] using lt_wf_ind. intros bol pos s ->.
  destruct s as [|c s]; [apply Hnil|].
  destruct (match_here p (start_state bol) (c :: s)) as [[st rest]|] eqn:E.
  - pose proof (match_here_start _ _ _ _ _ E) as (Es & _ & Hlen).
    rewrite Es in E |- *.
    assert (matched st <> []) by (intros Hm; rewrite Hm in Hlen; simpl in Hlen; lia).
    apply Hhit; auto.
    apply (IH (length rest)); auto.
    apply (f_equal (@length _)) in Es. rewrite length_app in Es. simpl in Es.
    destruct (matched st); [congruence|]. simpl in *. lia.
  - apply Hmiss; auto. apply (IH (length s)); simpl; auto.
Qed.
End scans.

(** No match anywhere: the scans leave the text alone. *)
Lemma search_from_None_inv p bol pos c s :
  search_from p bol pos (c :: s) = None ->
  match_here p (start_state bol) (c :: s) = None
  /\ search_from p (is_newline c) (S pos) s = None.
Proof.
  simpl. destruct (match_here p (start_state bol) (c :: s)) as [[st rest]|]; [discriminate|auto].
Qed.

Lemma sub_from_no_match p repl bol pos s :
  search_from p bol pos s = None -> sub_from p repl 0 bol pos s = s.
Proof.
  revert bol pos. induction s as [|c s IH]; intros bol pos H; [reflexivity|].
  apply search_from_None_inv in H as [H1 H2].
  rewrite sub_from_miss by assumption. f_equal. now apply IH.
Qed.

Lemma finditer_from_no_match p bol pos s :
  search_from p bol pos s = None -> finditer_from p 0 bol pos s = [].
Proof.
  revert bol pos. induction s as [|c s IH]; intros bol pos H; [reflexivity|].
  apply search_from_None_inv in H as [H1 H2].
  rewrite finditer_from_miss by assumption. now apply IH.
Qed.

Lemma sub_no_match p repl s : search p s = None -> sub p repl s = s.
Proof. apply sub_from_no_match. Qed.

Lemma finditer_no_match p s : search p s = None -> finditer p s = [].
Proof. apply finditer_from_no_match. Qed.

(** [search] fails exactly when the pattern fails at every position. *)
Lemma search_from_None_iff p bol pos s :
  search_from p bol pos s = None <->
  forall pre rest, s = pre ++ rest -> match_here p (start_state (bol_after bol pre)) rest = None.
Proof.
  revert bol pos. induction s as [|c s IH]; intros bol pos; split.
  - intros H pre rest E. symmetry in E. apply app_eq_nil in E as [-> ->].
    simpl in *. now destruct (match_here p (start_state bol) []) as [[? ?]|].
  - intros H. pose proof (H [] [] eq_refl) as H0. simpl in *. now rewrite H0.
  - intros H pre rest E. apply search_from_None_inv in H as [H1 H2].
    destruct pre as [|c' pre]; simpl in E.
    + now subst rest.
    + injection E as <- ->. rewrite bol_after_cons.
      rewrite IH in H2. now apply H2.
  - intros H. pose proof (H [] (c :: s) eq_refl) as H0. simpl in H0.
    simpl. rewrite H0. apply IH. intros pre rest ->. apply (H (c :: pre) rest eq_refl).
Qed.


(** ** Stepping the matcher *)

Lemma take_drop_while q (s : list ascii) : take_while q s ++ drop_while q s = s.
Proof. induction s as [|c s IH]; simpl; [|destruct (q c); simpl; rewrite ?IH]; reflexivity. Qed.

Lemma take_while_all q (s : list ascii) : forallb q (take_while q s) = true.
Proof. induction s as [|c s IH]; simpl; [|destruct (q c) eqn:E; simpl; rewrite ?E, ?IH]; reflexivity. Qed.

Lemma drop_while_head q (s : list ascii) c s' : drop_while q s = c :: s' -> q c = false.
Proof.
  induction s as [|c0 s IH]; simpl; [discriminate|].
  destruct (q c0) eqn:E; [auto|]. intros [= <- <-]. exact E.
Qed.

Lemma take_while_app q (w s : list ascii) :
  forallb q w = true -> take_while q (w ++ s) = w ++ take_while q s.
Proof.
  induction w as [|c w IH]; simpl; [reflexivity|].
  intros [Hc Hw]%andb_true_iff. rewrite Hc, IH by assumption. reflexivity.
Qed.

Lemma drop_while_app q (w s : list ascii) :
  forallb q w = true -> drop_while q (w ++ s) = drop_while q s.
Proof.
  induction w as [|c w IH]; simpl; [reflexivity|].
  intros [Hc Hw]%andb_true_iff. rewrite Hc. auto.
Qed.

Lemma take_while_go q c (s : list ascii) :
  q c = true -> take_while q (c :: s) = c :: take_while q s.
Proof. intros H. simpl. now rewrite H. Qed.

Lemma drop_while_go q c (s : list ascii) : q c = true -> drop_while q (c :: s) = drop_while q s.
Proof. intros H. simpl. now rewrite H. Qed.

Lemma take_while_stop q c (s : list ascii) : q c = false -> take_while q (c :: s) = [].
Proof. intros H. simpl. now rewrite H. Qed.

Lemma drop_while_stop q c (s : list ascii) : q c = false -> drop_while q (c :: s) = c :: s.
Proof. intros H. simpl. now rewrite H. Qed.

(** A literal piece of the pattern against the same piece of text. *)
Lemma match_here_chars w p st s :
  match_here (map (fun c => One (Chr c)) w ++ p) st (w ++ s) = match_here p (eats st w) s.
Proof.
  revert st. induction w as [|c w IH]; intros st; [reflexivity|].
  simpl. rewrite Ascii.eqb_refl. apply IH.
Qed.

Lemma match_here_one_chr c p st s :
  match_here (One (Chr c) :: p) st (c :: s) = match_here p (eat st c) s.
Proof. simpl. now rewrite Ascii.eqb_refl. Qed.

Lemma match_here_open p st s : match_here (Open :: p) st s = match_here p (open_group st) s.
Proof. reflexivity. Qed.

Lemma match_here_close p st s : match_here (Close :: p) st s = match_here p (close_group st) s.
Proof. reflexivity. Qed.

Lemma match_here_star a p st s : match_here (Star a :: p) st s = star a (match_here p) st s.
Proof. reflexivity. Qed.

(** A pattern that starts with a literal character fails on any other
    character. *)
Lemma first_chr_fail p c0 st c s :
  first_chr p = Some c0 -> c <> c0 -> match_here p st (c :: s) = None.
Proof.
  revert st. induction p as [|i p IH]; intros st Hp Hc; [discriminate|].
  destruct i as [[c1| | | |]|a|a|a| | | | ]; try discriminate; simpl in *.
  - injection Hp as ->. now apply Ascii.eqb_neq in Hc as ->.
  - now apply IH.
  - now apply IH.
Qed.

(** Greedy repetition before a literal character outside the class: no
    backtracking, the whole run is taken. *)
Lemma star_det a k st s :
  (forall st c s, accepts a c = true -> k st (c :: s) = None) ->
  star a k st s = k (eats st (take_while (accepts a) s)) (drop_while (accepts a) s).
Proof.
  intros Hk. revert st. induction s as [|c s IH]; intros st; [reflexivity|].
  simpl. destruct (accepts a c) eqn:E; [|reflexivity].
  rewrite IH. simpl.
  destruct (k (eats (eat st c) (take_while (accepts a) s)) (drop_while (accepts a) s)) eqn:Ek;
    [reflexivity|].
  now apply Hk.
Qed.

Lemma match_here_star_det a p c0 st s :
  first_chr p = Some c0 -> accepts a c0 = false ->
  match_here (Star a :: p) st s
  = match_here p (eats st (take_while (accepts a) s)) (drop_while (accepts a) s).
Proof.
  intros Hp Ha. simpl. apply star_det. intros st' c s' Hc.
  apply first_chr_fail with c0; [assumption|]. intros ->. congruence.
Qed.

Lemma match_here_plus_det a p c0 st s :
  first_chr p = Some c0 -> accepts a c0 = false ->
  match_here (Plus a :: p) st s
  = match take_while (accepts a) s with
    | [] => None
    | _ => match_here p (eats st (take_while (accepts a) s)) (drop_while (accepts a) s)
    end.
Proof.
  intros Hp Ha. destruct s as [|c s]; [reflexivity|].
  simpl. destruct (accepts a c) eqn:E; [|reflexivity].
  apply star_det. intros st' c' s' Hc.
  apply first_chr_fail with c0; [assumption|]. intros ->. congruence.
Qed.

(** Greedy repetition: when the continuation succeeds after the whole
    run, that is the result. *)
Lemma star_hit a k st w rest r :
  forallb (accepts a) w = true ->
  match rest with c :: _ => accepts a c = false | [] => True end ->
  k (eats st w) rest = Some r ->
  star a k st (w ++ rest) = Some r.
Proof.
  revert st. induction w as [|c w IH]; intros st Hw Hrest Hk; simpl in *.
  - destruct rest as [|c rest]; [assumption|]. simpl. now rewrite Hrest.
  - apply andb_true_iff in Hw as [Hc Hw]. rewrite Hc.
    now rewrite (IH (eat st c)).
Qed.

(** Greedy repetition succeeds exactly when the continuation succeeds
    after some part of the run. *)
Lemma star_Some_iff a k st s :
  is_Some (star a k st s) <->
  exists w rest, s = w ++ rest /\ forallb (accepts a) w = true /\ is_Some (k (eats st w) rest).
Proof.
  revert st. induction s as [|c s IH]; intros st; simpl.
  - split.
    + intros H. exists [], []. auto.
    + intros (w & rest & E & _ & H). symmetry in E. apply app_eq_nil in E as [-> ->]. exact H.
  - destruct (accepts a c) eqn:Ec.
    + split.
      * intros H. destruct (star a k (eat st c) s) as [r|] eqn:Es.
        -- assert (is_Some (star a k (eat st c) s)) as Hs by (rewrite Es; eauto).
           apply IH in Hs as (w & rest & -> & Hw & Hk).
           exists (c :: w), rest. simpl. rewrite Ec. auto.
        -- exists [], (c :: s). auto.
      * intros (w & rest & E & Hw & Hk).
        destruct w as [|c' w]; simpl in E.
        -- subst rest. simpl in Hk.
           destruct (star a k (eat st c) s); [eauto|assumption].
        -- injection E as <- ->.
           apply andb_true_iff in Hw as [_ Hw].
           assert (is_Some (star a k (eat st c) (w ++ rest))) as [r ->]; [|eauto].
           apply IH. eauto.
    + split.
      * intros H. exists [], (c :: s). auto.
      * intros (w & rest & E & Hw & Hk).
        destruct w as [|c' w]; simpl in E.
        -- subst rest. exact Hk.
        -- injection E as <- ->. simpl in Hw. rewrite Ec in Hw. discriminate.
Qed.

(** Evaluation of the matcher on the explicit part of a text. *)
Ltac eval_class :=
  repeat first
    [ rewrite take_while_go by (vm_compute; reflexivity)
    | rewrite take_while_stop by (vm_compute; reflexivity)
    | rewrite drop_while_go by (vm_compute; reflexivity)
    | rewrite drop_while_stop by (vm_compute; reflexivity) ].

Ltac step_match :=
  repeat first
    [ rewrite match_here_one_chr
    | erewrite match_here_star_det by (vm_compute; reflexivity); eval_class
    | erewrite match_here_plus_det by (vm_compute; reflexivity); eval_class; cbv beta iota
    | rewrite match_here_open
    | rewrite match_here_close ].

(** ** Stripping *)

Lemma forallb_rev (q : ascii -> bool) (s : list ascii) : forallb q (rev s) = forallb q s.
Proof.
  induction s as [|c s IH]; [reflexivity|].
  simpl. rewrite forallb_app, IH. simpl. rewrite andb_true_r. apply andb_comm.
Qed.

Lemma rstrip_app_spaces s ws : forallb is_space ws = true -> rstrip (s ++ ws) = rstrip s.
Proof.
  intros H. unfold rstrip. rewrite rev_app_distr, drop_while_app; [reflexivity|].
  now rewrite forallb_rev.
Qed.

Lemma rstrip_end s c : is_space c = false -> rstrip (s ++ [c]) = s ++ [c].
Proof.
  intros H. unfold rstrip. rewrite rev_app_distr. simpl. rewrite H.
  simpl. now rewrite rev_involutive.
Qed.

Lemma rstrip_page_break pre ws :
  forallb is_space ws = true -> rstrip (pre ++ PAGE_BREAK ++ ws) = pre ++ PAGE_BREAK.
Proof.
  intros H. rewrite app_assoc, rstrip_app_spaces by assumption.
  change PAGE_BREAK with (str "<!-- PAGE_BREAK --" ++ [">"%char]).
  rewrite app_assoc. now apply rstrip_end.
Qed.

(** ** The page-break test of strategy 1 *)

Lemma search_from_found p bol pos pre rest :
  is_Some (match_here p (start_state (bol_after bol pre)) rest) ->
  is_Some (search_from p bol pos (pre ++ rest)).
Proof.
  intros [r Hr]. destruct (search_from p bol pos (pre ++ rest)) eqn:E; [eauto|].
  rewrite search_from_None_iff in E. rewrite (E pre rest eq_refl) in Hr. discriminate.
Qed.

Lemma page_break_pattern_at_end st ws :
  forallb is_space ws = true ->
  is_Some (match_here page_break_pattern st (PAGE_BREAK ++ ws)).
Proof.
  intros Hws. unfold page_break_pattern, PAGE_BREAK.
  cbn [lit str list_ascii_of_string map app].
  step_match. rewrite match_here_star, <- (app_nil_r ws).
  erewrite star_hit; [eauto|exact Hws|exact I|reflexivity].
Qed.

(** C9: when the text before the separator found by strategy 1 ends with
    the page-break marker (followed at most by white space), the result of
    [remove_reference_section] is the text up to and including the marker:
    the marker stays at the end, the separator and all that follows are
    gone, and the page-break test of the code succeeds. *)
Theorem remove_reference_section_keeps_page_break :
  forall (markdown_text : list ascii) (m : Match) (pre ws : list ascii),
    search REFERENCE_SECTION_PATTERN markdown_text = Some m ->
    firstn (m_start m) markdown_text = pre ++ PAGE_BREAK ++ ws ->
    forallb is_space ws = true ->
    remove_reference_section markdown_text = pre ++ PAGE_BREAK
    /\ is_Some (search page_break_pattern (firstn (m_start m) markdown_text))
    /\ markdown_text
       = remove_reference_section markdown_text ++ ws ++ skipn (m_start m) markdown_text.
Proof.
  intros markdown_text m pre ws Hm Hpre Hws.
  assert (remove_reference_section markdown_text = pre ++ PAGE_BREAK) as Hr.
  { unfold remove_reference_section. rewrite Hm, Hpre.
    destruct (search page_break_pattern (pre ++ PAGE_BREAK ++ ws));
      now apply rstrip_page_break. }
  split; [exact Hr|split].
  - rewrite Hpre. apply search_from_found. now apply page_break_pattern_at_end.
  - rewrite Hr. rewrite <- (firstn_skipn (m_start m) markdown_text) at 1.
    rewrite Hpre, <- !app_assoc. reflexivity.
Qed.

Lemma remove_reference_section_keeps_page_break_witness :
  remove_reference_section scenario_C = (str "Body" ++ [newline]) ++ PAGE_BREAK
  /\ is_Some (search page_break_pattern (firstn 25 scenario_C))
  /\ scenario_C = remove_reference_section scenario_C ++ [newline] ++ skipn 25 scenario_C.
Proof.
  apply (remove_reference_section_keeps_page_break
           scenario_C (MkMatch 25 46 [skipn 25 (firstn 46 scenario_C)])
           (str "Body" ++ [newline]) [newline]); reflexivity.
Defined.

(** ** Citations *)

Lemma mstate_eq st st' :
  at_bol st = at_bol st' -> matched st = matched st' -> current st = current st' ->
  closed st = closed st' -> st = st'.
Proof. destruct st, st'. simpl. now intros -> -> -> ->. Qed.

Lemma at_bol_eat st c : at_bol (eat st c) = is_newline c.
Proof. reflexivity. Qed.
Lemma matched_eat st c : matched (eat st c) = matched st ++ [c].
Proof. reflexivity. Qed.
Lemma current_eat st c : current (eat st c) = current st ++ [c].
Proof. reflexivity. Qed.
Lemma closed_eat st c : closed (eat st c) = closed st.
Proof. reflexivity. Qed.
Lemma at_bol_open st : at_bol (open_group st) = at_bol st.
Proof. reflexivity. Qed.
Lemma matched_open st : matched (open_group st) = matched st.
Proof. reflexivity. Qed.
Lemma current_open st : current (open_group st) = [].
Proof. reflexivity. Qed.
Lemma closed_open st : closed (open_group st) = closed st.
Proof. reflexivity. Qed.
Lemma at_bol_close st : at_bol (close_group st) = at_bol st.
Proof. reflexivity. Qed.
Lemma matched_close st : matched (close_group st) = matched st.
Proof. reflexivity. Qed.
Lemma current_close st : current (close_group st) = current st.
Proof. reflexivity. Qed.
Lemma closed_close st : closed (close_group st) = closed st ++ [current st].
Proof. reflexivity. Qed.

Create Rewrite HintDb mstate.
Hint Rewrite at_bol_eat matched_eat current_eat closed_eat
  at_bol_open matched_open current_open closed_open
  at_bol_close matched_close current_close closed_close
  at_bol_eats matched_eats current_eats closed_eats : mstate.

Lemma is_digits_inv s : is_digits s = true -> s <> [] /\ forallb is_digit s = true.
Proof. destruct s; [discriminate|]. intros H. split; [discriminate|exact H]. Qed.

Lemma is_digits_take_while s :
  take_while is_digit s <> [] -> is_digits (take_while is_digit s) = true.
Proof.
  intros H. pose proof (take_while_all is_digit s) as Ha.
  destruct (take_while is_digit s); [congruence|exact Ha].
Qed.

Lemma citation_match st N D post :
  is_digits N = true -> is_digits D = true ->
  match_here CITATION_PATTERN st (citation N D ++ post) = Some (citation_state st N D, post).
Proof.
  intros [HN1 HN2]%is_digits_inv [HD1 HD2]%is_digits_inv.
  unfold CITATION_PATTERN, citation. rewrite <- !app_assoc.
  cbn [lit str list_ascii_of_string map app].
  step_match.
  change (accepts Digit) with is_digit.
  rewrite take_while_app, drop_while_app by assumption. eval_class. rewrite app_nil_r.
  destruct N as [|n N]; [congruence|]. cbv beta iota.
  step_match.
  change (accepts Digit) with is_digit.
  rewrite take_while_app, drop_while_app by assumption. eval_class. rewrite app_nil_r.
  destruct D as [|d D]; [congruence|]. cbv beta iota.
  step_match. cbn [match_here]. do 2 f_equal.
  apply mstate_eq; autorewrite with mstate; unfold citation_state, citation;
    cbn [at_bol matched current closed str list_ascii_of_string app];
    rewrite <- ?app_assoc; reflexivity.
Qed.

Lemma match_here_chr_inv c0 p st s r :
  match_here (One (Chr c0) :: p) st s = Some r ->
  exists s', s = c0 :: s' /\ match_here p (eat st c0) s' = Some r.
Proof.
  simpl. destruct s as [|c s]; [discriminate|].
  destruct (Ascii.eqb_spec c c0) as [->|]; [eauto|discriminate].
Qed.

Lemma citation_match_inv st s r :
  match_here CITATION_PATTERN st s = Some r ->
  exists N D rest, is_digits N = true /\ is_digits D = true /\ s = citation N D ++ rest.
Proof.
  unfold CITATION_PATTERN. cbn [lit str list_ascii_of_string map app]. intros H.
  apply match_here_chr_inv in H as (s1 & -> & H).
  apply match_here_chr_inv in H as (s2 & -> & H).
  rewrite match_here_open in H.
  erewrite match_here_plus_det in H by (vm_compute; reflexivity).
  change (accepts Digit) with is_digit in H.
  pose proof (take_drop_while is_digit s2) as Es2.
  destruct (take_while is_digit s2) as [|n N] eqn:EN; [discriminate|].
  rewrite match_here_close in H.
  apply match_here_chr_inv in H as (t1 & E1 & H).
  apply match_here_chr_inv in H as (t2 & -> & H).
  apply match_here_chr_inv in H as (t3 & -> & H).
  apply match_here_chr_inv in H as (t4 & -> & H).
  rewrite match_here_open in H.
  apply match_here_chr_inv in H as (t5 & -> & H).
  apply match_here_chr_inv in H as (t6 & -> & H).
  apply match_here_chr_inv in H as (s3 & -> & H).
  erewrite match_here_plus_det in H by (vm_compute; reflexivity).
  change (accepts Digit) with is_digit in H.
  pose proof (take_drop_while is_digit s3) as Es3.
  destruct (take_while is_digit s3) as [|d D] eqn:ED; [discriminate|].
  rewrite match_here_close in H.
  apply match_here_chr_inv in H as (s4 & E4 & H).
  exists (n :: N), (d :: D), s4. split; [|split].
  - rewrite <- EN. apply is_digits_take_while. rewrite EN. discriminate.
  - rewrite <- ED. apply is_digits_take_while. rewrite ED. discriminate.
  - unfold citation. rewrite <- !app_assoc. cbn [str list_ascii_of_string app].
    do 2 f_equal. rewrite <- Es2, E1, <- Es3, E4. cbn [app].
    rewrite <- ?app_assoc. reflexivity.
Qed.

Lemma citation_min_len : 0 < min_len CITATION_PATTERN.
Proof. vm_compute. lia. Qed.

Lemma is_digit_not_bracket c : is_digit c = true -> c <> "["%char.
Proof. intros H ->. discriminate H. Qed.

(** A text without the character [x] cannot run past an occurrence of
    [x]. *)
Lemma app_split_no_char (x : ascii) t rest u w :
  Forall (fun c => c <> x) t -> t ++ rest = u ++ x :: w -> exists u2, u = t ++ u2.
Proof.
  revert u. induction t as [|c t IH]; intros u Ht E; [eauto|].
  apply Forall_cons_iff in Ht as [Hc Ht].
  destruct u as [|c' u]; simpl in E; injection E as -> E.
  - congruence.
  - apply IH in E as [u2 ->]; eauto.
Qed.

Lemma forallb_Forall (q : ascii -> bool) (P : ascii -> Prop) s :
  (forall c, q c = true -> P c) -> forallb q s = true -> Forall P s.
Proof.
  intros HqP. induction s as [|c s IH]; simpl; [constructor|].
  intros [Hc Hs]%andb_true_iff. constructor; auto.
Qed.

Lemma citation_tail_no_bracket N D :
  is_digits N = true -> is_digits D = true ->
  exists n t, N ++ str "]](#ref" ++ D ++ str ")" = n :: t
              /\ Forall (fun c => c <> "["%char) (n :: t).
Proof.
  intros [HN1 HN2]%is_digits_inv [HD1 HD2]%is_digits_inv.
  assert (Forall (fun c => c <> "["%char) (N ++ str "]](#ref" ++ D ++ str ")")) as HF.
  { rewrite !Forall_app. repeat split.
    - exact (forallb_Forall _ _ _ is_digit_not_bracket HN2).
    - repeat constructor; discriminate.
    - exact (forallb_Forall _ _ _ is_digit_not_bracket HD2).
    - repeat constructor; discriminate. }
  destruct N as [|n N]; [congruence|]. eauto.
Qed.

Lemma citation_unfold N D :
  citation N D = "["%char :: "["%char :: (N ++ str "]](#ref" ++ D ++ str ")").
Proof. reflexivity. Qed.

(** A citation that starts before another one ends before it. *)
Lemma citation_boundary N' D' rest' u N D post :
  is_digits N' = true -> is_digits D' = true ->
  is_digits N = true -> is_digits D = true ->
  u <> [] ->
  citation N' D' ++ rest' = u ++ citation N D ++ post ->
  exists u2, u = citation N' D' ++ u2.
Proof.
  intros HN' HD' HN HD Hu E.
  destruct (citation_tail_no_bracket N' D' HN' HD') as (n' & t' & Et' & Ht').
  destruct (citation_tail_no_bracket N D HN HD) as (n & t & Et & Ht).
  rewrite !citation_unfold in *. rewrite Et, Et' in E. rewrite Et'.
  apply Forall_cons_iff in Ht' as [Hn' Ht'].
  destruct u as [|c1 [|c2 u]]; [congruence| |]; simpl in E.
  - simplify_eq.
  - destruct u as [|c3 u]; simplify_eq/=.
    match goal with E' : t' ++ rest' = _ |- _ =>
      destruct (app_split_no_char "["%char t' rest' u _ Ht' E') as [u2 ->] end.
    exists u2. reflexivity.
Qed.

Lemma citation_match_start bol s st rest :
  match_here CITATION_PATTERN (start_state bol) s = Some (st, rest) ->
  exists N D, is_digits N = true /\ is_digits D = true
              /\ s = citation N D ++ rest /\ st = citation_state (start_state bol) N D.
Proof.
  intros H. destruct (citation_match_inv _ _ _ H) as (N & D & rest' & HN & HD & ->).
  rewrite citation_match in H by assumption. injection H as <- <-. eauto 6.
Qed.

Lemma citation_miss_bol bol bol' s :
  match_here CITATION_PATTERN (start_state bol) s = None ->
  match_here CITATION_PATTERN (start_state bol') s = None.
Proof.
  intros H. destruct (match_here CITATION_PATTERN (start_state bol') s) as [[st rest]|] eqn:E;
    [|reflexivity].
  apply citation_match_start in E as (N & D & HN & HD & -> & _).
  rewrite citation_match in H by assumption. discriminate.
Qed.

Section citation_sub.
Variable repl : Match -> list ascii.
Hypothesis repl_groups : forall m m', m_groups m = m_groups m' -> repl m = repl m'.

(** Where the scan starts does not matter for the citation pattern. *)
Lemma sub_citation_from bol pos bol' pos' s :
  sub_from CITATION_PATTERN repl 0 bol pos s = sub_from CITATION_PATTERN repl 0 bol' pos' s.
Proof using repl_groups.
  revert bol' pos'. pattern bol, pos, s.
  apply (scan_ind CITATION_PATTERN citation_min_len); clear bol pos s.
  - reflexivity.
  - intros bol pos c s Hmiss IH bol' pos'.
    rewrite !sub_from_miss by eauto using citation_miss_bol. f_equal. apply IH.
  - intros bol pos st rest Hhit _ IH bol' pos'.
    pose proof Hhit as (N & D & HN & HD & E & ->)%citation_match_start.
    rewrite E.
    rewrite !(sub_from_hit CITATION_PATTERN citation_min_len _ _ _ _ _ _
                (citation_match _ N D rest HN HD)).
    f_equal; [now apply repl_groups|]. apply IH.
Qed.

(** The scan of a text with a citation in it: the text before, the
    citation, the text after. *)
Lemma sub_citation_split bol pos pre N D post :
  is_digits N = true -> is_digits D = true ->
  sub_from CITATION_PATTERN repl 0 bol pos (pre ++ citation N D ++ post)
  = sub_from CITATION_PATTERN repl 0 bol pos pre
    ++ repl (MkMatch 0 0 [citation N D; N; str "ref" ++ D])
    ++ sub_from CITATION_PATTERN repl 0 bol pos post.
Proof using repl_groups.
  intros HN HD. pattern bol, pos, pre.
  apply (scan_ind CITATION_PATTERN citation_min_len); clear bol pos pre.
  - intros bol pos. simpl app.
    rewrite (sub_from_hit CITATION_PATTERN citation_min_len _ _ _ _ _ _
               (citation_match _ N D post HN HD)).
    f_equal; [now apply repl_groups|]. apply sub_citation_from.
  - intros bol pos c s Hmiss IH.
    assert (match_here CITATION_PATTERN (start_state bol) ((c :: s) ++ citation N D ++ post)
            = None) as Hmiss'.
    { destruct (match_here CITATION_PATTERN (start_state bol) ((c :: s) ++ citation N D ++ post))
        as [[st rest]|] eqn:E; [|reflexivity].
      apply citation_match_start in E as (N' & D' & HN' & HD' & E & _).
      symmetry in E.
      apply citation_boundary in E as [u2 E]; [|assumption..|discriminate].
      rewrite E, citation_match in Hmiss by assumption. discriminate. }
    rewrite <- app_comm_cons in Hmiss' |- *. rewrite !sub_from_miss by assumption.
    rewrite IH, <- app_comm_cons. do 3 f_equal. apply sub_citation_from.
  - intros bol pos st rest Hhit _ IH.
    pose proof Hhit as (N' & D' & HN' & HD' & E & ->)%citation_match_start.
    rewrite E, <- app_assoc.
    rewrite !(sub_from_hit CITATION_PATTERN citation_min_len _ _ _ _ _ _
                (citation_match _ N' D' _ HN' HD')).
    rewrite IH, <- app_assoc. do 3 f_equal. apply sub_citation_from.
Qed.
End citation_sub.

Lemma replace_citation_groups h self cell_index m m' :
  m_groups m = m_groups m' ->
  replace_citation h self cell_index m = replace_citation h self cell_index m'.
Proof. intros E. unfold replace_citation, group. now rewrite E. Qed.

Lemma update_citations_split h self cell_index pre N D post :
  is_digits N = true -> is_digits D = true ->
  update_citations_in_text h self cell_index (pre ++ citation N D ++ post)
  = update_citations_in_text h self cell_index pre
    ++ replace_citation h self cell_index (MkMatch 0 0 [citation N D; N; str "ref" ++ D])
    ++ update_citations_in_text h self cell_index post.
Proof.
  intros HN HD. unfold update_citations_in_text, sub.
  apply sub_citation_split; auto using replace_citation_groups.
Qed.

Example join_text_rewritten :
  update_citations_in_text join_registry.1 join_registry.2 0 join_text
  = str "See [[1]](#global_ref1)." ++ [newline; newline]
      ++ definition_markup (str "2") (str "2") (str "Foo.").
Proof. vm_compute. reflexivity. Qed.

Example scenario_D_unchanged :
  update_citations_in_text scenario_D_registry.1 scenario_D_registry.2 0 scenario_D
  = scenario_D.
Proof. vm_compute. reflexivity. Qed.

(** ** Definition starts *)

Lemma definition_min_len : 0 < min_len DEFINITION_START_PATTERN.
Proof. vm_compute. lia. Qed.

Lemma star_take_all a k st s r :
  k (eats st (take_while (accepts a) s)) (drop_while (accepts a) s) = Some r ->
  star a k st s = Some r.
Proof.
  intros H. rewrite <- (take_drop_while (accepts a) s) at 1.
  apply star_hit; [apply take_while_all| |exact H].
  destruct (drop_while (accepts a) s) eqn:E; [exact I|]. eapply drop_while_head, E.
Qed.

(** The state after a definition start was matched: the groups are the
    anchor, the number and the rest of the line. *)
Lemma definition_match st D N c body :
  is_digits D = true -> is_digits N = true -> is_space c = false ->
  exists st',
    match_here DEFINITION_START_PATTERN st (definition_markup D N (c :: body))
    = Some (st', drop_while not_newline body)
    /\ closed st' = closed st ++ [str "ref" ++ D; N; c :: take_while not_newline body].
Proof.
  intros [HD1 HD2]%is_digits_inv [HN1 HN2]%is_digits_inv Hc.
  assert (not_newline c = true) as Hnl.
  { unfold not_newline. destruct (is_newline c) eqn:E; [|reflexivity].
    apply Ascii.eqb_eq in E. subst c. discriminate Hc. }
  unfold DEFINITION_START_PATTERN, definition_markup. rewrite <- ?app_assoc.
  cbn [lit str list_ascii_of_string map app].
  step_match.
  change (accepts Digit) with is_digit.
  rewrite take_while_app, drop_while_app by assumption. eval_class. rewrite app_nil_r.
  destruct D as [|d D]; [congruence|]. cbv beta iota.
  step_match.
  change (accepts Digit) with is_digit.
  rewrite take_while_app, drop_while_app by assumption. eval_class. rewrite app_nil_r.
  destruct N as [|n N]; [congruence|]. cbv beta iota.
  step_match. rewrite match_here_star.
  eexists. split.
  - apply (star_hit Space _ _ [" "%char] (c :: body)); [reflexivity|exact Hc|].
    rewrite match_here_open. cbn [match_here]. change (accepts Dot) with not_newline.
    rewrite Hnl. apply star_take_all. reflexivity.
  - autorewrite with mstate. cbn [app]. rewrite <- ?app_assoc. reflexivity.
Qed.

Lemma first_chr_nil p c0 st : first_chr p = Some c0 -> match_here p st [] = None.
Proof.
  revert st. induction p as [|i p IH]; intros st Hp; [discriminate|].
  destruct i as [[c1| | | |]|a|a|a| | | | ]; try discriminate; simpl in *; auto.
Qed.

Lemma free_of_cons c x t : free_of c (x :: t) = true -> x <> c /\ free_of c t = true.
Proof.
  unfold free_of. simpl. intros [Hx Ht]%andb_true_iff. split; [|exact Ht].
  intros ->. rewrite Ascii.eqb_refl in Hx. discriminate.
Qed.

Lemma free_of_drop_while c q t : free_of c t = true -> free_of c (drop_while q t) = true.
Proof.
  induction t as [|x t IH]; [reflexivity|]. intros H. simpl.
  destruct (q x); [|exact H]. apply free_of_cons in H as [_ H]. auto.
Qed.

(** A pattern that starts with a literal character finds nothing in a
    text without that character. *)
Lemma search_from_free p c0 bol pos s :
  first_chr p = Some c0 -> free_of c0 s = true -> search_from p bol pos s = None.
Proof.
  intros Hp. revert bol pos. induction s as [|c s IH]; intros bol pos Hs.
  - simpl. now rewrite (first_chr_nil p c0).
  - apply free_of_cons in Hs as [Hc Hs].
    rewrite search_from_miss by (now apply first_chr_fail with c0). now apply IH.
Qed.

Lemma finditer_from_free_prefix p c0 bol pos pre s :
  first_chr p = Some c0 -> free_of c0 pre = true ->
  finditer_from p 0 bol pos (pre ++ s)
  = finditer_from p 0 (bol_after bol pre) (pos + length pre) s.
Proof.
  intros Hp. revert bol pos. induction pre as [|c pre IH]; intros bol pos Hpre.
  - simpl. now rewrite Nat.add_0_r.
  - apply free_of_cons in Hpre as [Hc Hpre]. rewrite <- app_comm_cons.
    rewrite finditer_from_miss by (now apply first_chr_fail with c0).
    rewrite IH by assumption. simpl. f_equal. lia.
Qed.

Lemma skipn_app_length {A} (u v : list A) n : n = length u -> skipn n (u ++ v) = v.
Proof. intros ->. rewrite skipn_app, skipn_all, Nat.sub_diag. reflexivity. Qed.

(** The matches of the definition pattern in a text whose only ['<']
    characters are those of one definition markup. *)
Lemma finditer_single_definition pre D N c body :
  free_of "<" pre = true -> free_of "<" body = true ->
  is_digits D = true -> is_digits N = true -> is_space c = false ->
  exists m,
    finditer DEFINITION_START_PATTERN (pre ++ definition_markup D N (c :: body)) = [m]
    /\ m_start m = length pre
    /\ group m 1 = str "ref" ++ D /\ group m 2 = N
    /\ group m 3 = c :: take_while not_newline body
    /\ skipn (m_end m) (pre ++ definition_markup D N (c :: body)) = drop_while not_newline body.
Proof.
  intros Hpre Hbody HD HN Hc.
  destruct (definition_match (start_state (bol_after true pre)) D N c body HD HN Hc)
    as (st' & Hm & Hcl).
  pose proof (match_here_start _ _ _ _ _ Hm) as (Es & _ & _).
  exists (match_at (length pre) st'). unfold finditer. repeat split.
  - rewrite (finditer_from_free_prefix _ "<"%char) by (reflexivity || assumption).
    rewrite (finditer_from_hit _ definition_min_len _ _ _ _ _ Hm).
    simpl. f_equal. apply finditer_from_no_match.
    apply (search_from_free _ "<"%char); [reflexivity|]. now apply free_of_drop_while.
  - unfold group. simpl. now rewrite Hcl.
  - unfold group. simpl. now rewrite Hcl.
  - unfold group. simpl. now rewrite Hcl.
  - rewrite Es. simpl m_end. rewrite app_assoc. apply skipn_app_length.
    now rewrite length_app.
Qed.

Example midline_text_extracted :
  extract_references_from_cell 0 midline_text []
  = (∅, [(str "ref1", 0)], [MkReference (str "ref1") 1 (str "Foo.") None 0]).
Proof. vm_compute. reflexivity. Qed.

(** C7, as stated, fails: in [midline_text] the extractor finds a
    definition start at offset 4, after the blank of "See ", not at the
    start of a line. *)
Lemma detected_only_at_line_start_counterexample :
  ~ detected_only_at_line_start midline_text.
Proof.
  unfold detected_only_at_line_start. intros H.
  assert (finditer DEFINITION_START_PATTERN midline_text
          = [MkMatch 4 29 [skipn 4 midline_text; str "ref1"; str "1"; str "Foo."]]) as E
    by (vm_compute; reflexivity).
  rewrite E in H. apply Forall_cons_iff in H as [H _]. vm_compute in H. discriminate.
Qed.

(** C7, amended: a definition markup is extracted wherever it begins, at
    the start of a line or in the middle of one.  When the markup is the
    only place of the text where ['<'] occurs, the extractor records
    exactly one definition, under the anchor of the markup, with its
    number and its text, whatever text [pre] stands before the markup. *)
Theorem definition_detected_anywhere :
  forall (cell_index : nat) (h : list Reference) (pre D N : list ascii) (c : ascii)
         (body : list ascii),
    free_of "<" pre = true -> free_of "<" body = true ->
    is_digits D = true -> is_digits N = true -> is_space c = false ->
    let r := extract_references_from_cell cell_index
               (pre ++ definition_markup D N (c :: body)) h in
    r.1.2 = [(str "ref" ++ D, length h)]
    /\ r.2 = h ++ [Reference_init (str "ref" ++ D) (int_of N) (strip (c :: body)) cell_index].
Proof.
  intros cell_index h pre D N c body Hpre Hbody HD HN Hc.
  destruct (finditer_single_definition pre D N c body Hpre Hbody HD HN Hc)
    as (m & Hfi & Hs & Hg1 & Hg2 & Hg3 & Hrest).
  assert (reference_of_match cell_index (pre ++ definition_markup D N (c :: body)) m
          = Reference_init (str "ref" ++ D) (int_of N) (strip (c :: body)) cell_index) as Href.
  { unfold reference_of_match, definition_text_at. rewrite Hg1, Hg2, Hg3, Hrest.
    unfold search. rewrite (search_from_free _ "<"%char)
      by (reflexivity || now apply free_of_drop_while).
    rewrite <- app_comm_cons.
    now rewrite (take_drop_while not_newline body). }
  unfold extract_references_from_cell, extract_definitions. rewrite Hfi. simpl.
  rewrite Href, Hg1. split; reflexivity.
Qed.

Lemma definition_detected_anywhere_witness :
  let r := extract_references_from_cell 0
             (str "See " ++ definition_markup (str "1") (str "1") ("F"%char :: str "oo.")) [] in
  r.1.2 = [(str "ref" ++ str "1", 0)]
  /\ r.2 = [] ++ [Reference_init (str "ref" ++ str "1") (int_of (str "1"))
                    (strip ("F"%char :: str "oo.")) 0].
Proof.
  apply (definition_detected_anywhere 0 [] (str "See ") (str "1") (str "1") "F"%char (str "oo."));
    reflexivity.
Defined.

(** ** Patterns without anchors and extensions of the text *)

Lemma star_mono a (k k' : mstate -> list ascii -> option (mstate * list ascii)) :
  (forall st s, is_Some (k st s) -> forall st' t, is_Some (k' st' (s ++ t))) ->
  forall st s, is_Some (star a k st s) -> forall st' t, is_Some (star a k' st' (s ++ t)).
Proof.
  intros Hk st s Hs st' t.
  apply star_Some_iff in Hs as (w & rest & -> & Hw & Hr).
  apply star_Some_iff. exists w, (rest ++ t). rewrite <- app_assoc. eauto.
Qed.

(** A pattern without [^] and [$] that matches at the head of a text
    matches at the head of every extension of the text, from any state. *)
Lemma match_here_mono p :
  anchor_free p = true ->
  forall st s, is_Some (match_here p st s) ->
  forall st' t, is_Some (match_here p st' (s ++ t)).
Proof.
  induction p as [|i p IH]; intros Hp st s Hs st' t; [simpl; eauto|].
  simpl in Hp. apply andb_true_iff in Hp as [Hi Hp]. specialize (IH Hp).
  destruct i as [a|a|a|a| | | | ]; try discriminate; simpl in Hs |- *.
  - destruct s as [|c s]; [now destruct Hs|]. simpl.
    destruct (accepts a c); [eauto|now destruct Hs].
  - eapply star_mono; eauto.
  - destruct s as [|c s]; [now destruct Hs|]. simpl.
    destruct (accepts a c); [|now destruct Hs]. eapply star_mono; eauto.
  - destruct s as [|c s]; simpl.
    + destruct t as [|c t]; [apply (IH st [] Hs st' [])|].
      destruct (accepts a c); [|apply (IH st [] Hs st' (c :: t))].
      destruct (match_here p (eat st' c) t); [eauto|apply (IH st [] Hs st' (c :: t))].
    + destruct (accepts a c); [|apply (IH st (c :: s) Hs)].
      destruct (match_here p (eat st c) s) as [r|] eqn:E.
      * assert (is_Some (match_here p (eat st' c) (s ++ t))) as [r' ->]; [|eauto].
        apply (IH (eat st c) s). rewrite E. eauto.
      * destruct (match_here p (eat st' c) (s ++ t)); [eauto|].
        apply (IH st (c :: s) Hs).
  - eauto.
  - eauto.
Qed.

Lemma search_from_Some_exists p bol pos s m :
  search_from p bol pos s = Some m ->
  exists pre rest, s = pre ++ rest
                   /\ is_Some (match_here p (start_state (bol_after bol pre)) rest).
Proof.
  revert bol pos. induction s as [|c s IH]; intros bol pos; simpl.
  - destruct (match_here p (start_state bol) []) eqn:E; [|discriminate].
    intros _. exists [], []. simpl. rewrite E. eauto.
  - destruct (match_here p (start_state bol) (c :: s)) eqn:E.
    + intros _. exists [], (c :: s). simpl. rewrite E. eauto.
    + intros H. apply IH in H as (pre & rest & -> & H). exists (c :: pre), rest. auto.
Qed.

(** An anchor-free pattern without a match in a text has none in a part
    of the text. *)
Lemma search_infix_None p a w b :
  anchor_free p = true -> search p (a ++ w ++ b) = None -> search p w = None.
Proof.
  intros Hp H. destruct (search p w) as [m|] eqn:E; [|reflexivity].
  apply search_from_Some_exists in E as (pre & rest & -> & Hr).
  assert (is_Some (search p (a ++ (pre ++ rest) ++ b))) as [m' Hm']; [|congruence].
  rewrite <- app_assoc, app_assoc. apply search_from_found.
  eapply match_here_mono; eauto.
Qed.

(** ** Lines *)

Lemma join_app sep (l1 l2 : list (list ascii)) :
  exists mid, join sep (l1 ++ l2) = join sep l1 ++ mid ++ join sep l2.
Proof.
  induction l1 as [|p l1 IH]; [now exists []|].
  destruct l1 as [|p' l1].
  - destruct l2 as [|q l2]; [exists []; simpl; now rewrite app_nil_r|].
    exists sep. reflexivity.
  - destruct IH as [mid IH]. exists mid.
    change (join sep ((p :: p' :: l1) ++ l2)) with (p ++ sep ++ join sep ((p' :: l1) ++ l2)).
    rewrite IH. change (join sep (p :: p' :: l1)) with (p ++ sep ++ join sep (p' :: l1)).
    now rewrite <- !app_assoc.
Qed.

Lemma join_infix sep (l1 l2 l3 : list (list ascii)) :
  exists a b, join sep (l1 ++ l2 ++ l3) = a ++ join sep l2 ++ b.
Proof.
  destruct (join_app sep l1 (l2 ++ l3)) as [m1 E1].
  destruct (join_app sep l2 l3) as [m2 E2].
  exists (join sep l1 ++ m1), (m2 ++ join sep l3).
  rewrite E1, E2, <- !app_assoc. reflexivity.
Qed.

Lemma split_on_not_nil sep s : split_on sep s <> [].
Proof.
  destruct s as [|c s]; simpl; [discriminate|].
  destruct (Ascii.eqb c sep); [discriminate|]. now destruct (split_on sep s).
Qed.

Lemma join_split_on sep s : join [sep] (split_on sep s) = s.
Proof.
  induction s as [|c s IH]; [reflexivity|]. simpl.
  destruct (Ascii.eqb_spec c sep) as [->|Hc].
  - pose proof (split_on_not_nil sep s). destruct (split_on sep s) as [|l ls]; [congruence|].
    change (join [sep] ([] :: l :: ls)) with ([] ++ [sep] ++ join [sep] (l :: ls)).
    now rewrite IH.
  - pose proof (split_on_not_nil sep s). destruct (split_on sep s) as [|l ls]; [congruence|].
    destruct ls as [|l' ls]; simpl in *; now rewrite <- IH.
Qed.

Lemma slice_infix {A} i j (l : list A) : exists l1 l3, l = l1 ++ slice i j l ++ l3.
Proof.
  exists (firstn i l), (skipn (j - i) (skipn i l)). unfold slice.
  now rewrite firstn_skipn, firstn_skipn.
Qed.

(** A window of lines is a part of the text. *)
Lemma window_infix s i j :
  exists a b, s = a ++ join [newline] (slice i j (split_on newline s)) ++ b.
Proof.
  destruct (slice_infix i j (split_on newline s)) as (l1 & l3 & E).
  destruct (join_infix [newline] l1 (slice i j (split_on newline s)) l3) as (a & b & E').
  exists a, b. rewrite <- E', <- E. symmetry. apply join_split_on.
Qed.

(** ** Documents without references *)

Lemma no_match_true p t : no_match p t = true -> search p t = None.
Proof. unfold no_match. now destruct (search p t). Qed.

Lemma separator_scan_None lines todo :
  (forall i j, search DEFINITION_START_PATTERN (join [newline] (slice i j lines)) = None) ->
  separator_scan lines todo = None.
Proof.
  intros Hw. induction todo as [|[i line] todo IH]; [reflexivity|].
  cbn [separator_scan]. rewrite Hw. now destruct (bool_decide (strip line = str "---")).
Qed.

Lemma remove_reference_section_id t :
  search REFERENCE_SECTION_PATTERN t = None ->
  search DEFINITION_START_PATTERN t = None ->
  remove_reference_section t = t.
Proof.
  intros Hsep Hdef. unfold remove_reference_section. rewrite Hsep.
  rewrite separator_scan_None; [now rewrite Hdef|].
  intros i j. destruct (window_infix t i j) as (a & b & E).
  apply (search_infix_None _ a _ b); [reflexivity|]. now rewrite <- E.
Qed.

Lemma extract_no_definition cell_index t h :
  search DEFINITION_START_PATTERN t = None ->
  extract_references_from_cell cell_index t h
  = (foldl (fun cited_refs m => cited_refs ∪ {[ group m 2 ]}) ∅ (finditer CITATION_PATTERN t),
     [], h).
Proof.
  intros H. unfold extract_references_from_cell, extract_definitions.
  now rewrite (finditer_no_match _ _ H).
Qed.

Lemma scan_cell_no_definition st i cell :
  (is_markdown cell = true -> search DEFINITION_START_PATTERN (source_text cell) = None) ->
  scan_cell st (i, cell) = st.
Proof.
  intros H. destruct st as [h self]. unfold scan_cell.
  destruct (is_markdown cell); [|reflexivity]. simpl.
  rewrite extract_no_definition by now apply H. reflexivity.
Qed.

Lemma scan_cells_no_definition st (f : nat -> nat) cells :
  Forall (fun cell => is_markdown cell = true ->
                      search DEFINITION_START_PATTERN (source_text cell) = None) cells ->
  foldl scan_cell st (imap (fun i c => (f i, c)) cells) = st.
Proof.
  revert f. induction cells as [|cell cells IH]; intros f Hall; [reflexivity|].
  apply Forall_cons_iff in Hall as [Hc Hall]. simpl.
  rewrite scan_cell_no_definition by assumption.
  apply (IH (f ∘ S) Hall).
Qed.

Lemma build_no_definition cells :
  Forall (fun cell => is_markdown cell = true ->
                      search DEFINITION_START_PATTERN (source_text cell) = None) cells ->
  build_global_reference_map cells fresh = fresh.
Proof.
  intros H. unfold build_global_reference_map.
  rewrite (scan_cells_no_definition fresh (fun i => i)) by assumption. reflexivity.
Qed.

Lemma map_imap_same {A B} (g : A -> B) (f : nat -> A -> A) (l : list A) :
  Forall (fun x => forall i, g (f i x) = g x) l -> map g (imap f l) = map g l.
Proof.
  revert f. induction l as [|x l IH]; intros f Hall; [reflexivity|].
  apply Forall_cons_iff in Hall as [Hx Hall]. simpl. rewrite Hx. f_equal.
  apply IH. eapply Forall_impl; [exact Hall|]. intros y Hy i. apply Hy.
Qed.

Lemma process_markdown_cell_plain h self i cell :
  search CITATION_PATTERN (source_text cell) = None ->
  search DEFINITION_START_PATTERN (source_text cell) = None ->
  search REFERENCE_SECTION_PATTERN (source_text cell) = None ->
  process_markdown_cell h self i cell
  = if is_markdown cell
    then MkCell (cell_type cell) (Some (SourceStr (source_text cell))) (references_section cell)
    else cell.
Proof.
  intros Hc Hd Hs. unfold process_markdown_cell.
  destruct (is_markdown cell); [|reflexivity]. simpl.
  unfold update_citations_in_text. rewrite sub_no_match by assumption.
  now rewrite remove_reference_section_id.
Qed.

Example separator_only_cell_processed :
  process_notebook [separator_only_cell] fresh = ([markdown_cell (str "Intro")], fresh).
Proof. vm_compute. reflexivity. Qed.

(** C6, as stated, fails: [separator_only_cell] has no citation and no
    definition, and [process_notebook] cuts its text at the separator. *)
Lemma round_trip_stable_counterexample : ~ round_trip_stable [separator_only_cell].
Proof.
  intros H. assert (texts_unchanged [separator_only_cell]) as Ht by (apply H; reflexivity).
  unfold texts_unchanged in Ht. rewrite separator_only_cell_processed in Ht.
  vm_compute in Ht. discriminate.
Qed.

(** C6, amended: for every document whose markdown cells have no citation
    occurrence, no definition and no explicit separator of strategy 1,
    [process_notebook] leaves the text of every cell as it was, appends no
    cell, keeps the cell types and leaves the registry empty. *)
Theorem process_notebook_round_trip :
  forall cells : list Cell,
    reference_free cells = true ->
    separator_free cells = true ->
    texts_unchanged cells
    /\ map cell_type (process_notebook cells fresh).1 = map cell_type cells
    /\ (process_notebook cells fresh).2 = fresh.
Proof.
  intros cells Href Hsep.
  unfold reference_free in Href. rewrite forallb_forall in Href.
  unfold separator_free in Hsep. rewrite forallb_forall in Hsep.
  assert (Forall (fun cell => is_markdown cell = true ->
                              search DEFINITION_START_PATTERN (source_text cell) = None) cells)
    as Hdef.
  { apply Forall_forall. intros cell Hin%list_elem_of_In Emd.
    apply Href in Hin. rewrite Emd in Hin. simpl in Hin.
    apply andb_true_iff in Hin as [_ Hd]. now apply no_match_true. }
  assert (Forall (fun cell => forall i,
              (if is_markdown cell
               then process_markdown_cell [] ReferenceManager_init i cell else cell)
              = if is_markdown cell
                then MkCell (cell_type cell) (Some (SourceStr (source_text cell)))
                            (references_section cell)
                else cell) cells) as Hcells.
  { apply Forall_forall. intros cell Hin%list_elem_of_In i.
    destruct (is_markdown cell) eqn:Emd; [|reflexivity].
    pose proof (Href _ Hin) as Hr. rewrite Emd in Hr. simpl in Hr.
    apply andb_true_iff in Hr as [Hc Hd].
    pose proof (Hsep _ Hin) as Hs. rewrite Emd in Hs. simpl in Hs.
    rewrite process_markdown_cell_plain by now apply no_match_true.
    now rewrite Emd. }
  assert (process_notebook cells fresh
          = (imap (fun i cell => if is_markdown cell
                                 then process_markdown_cell [] ReferenceManager_init i cell
                                 else cell) cells, fresh)) as Hrun.
  { unfold process_notebook. rewrite build_no_definition by assumption. reflexivity. }
  unfold texts_unchanged. rewrite Hrun. cbn [fst snd].
  repeat split.
  - apply map_imap_same. eapply Forall_impl; [exact Hcells|].
    intros cell Hcell i. rewrite (Hcell i). now destruct (is_markdown cell).
  - apply map_imap_same. eapply Forall_impl; [exact Hcells|].
    intros cell Hcell i. rewrite (Hcell i). now destruct (is_markdown cell).
Qed.

Lemma process_notebook_round_trip_witness :
  texts_unchanged [markdown_cell (str "Intro"); MkCell "code" (Some (SourceList [str "x = 1"])) false]
  /\ map cell_type
       (process_notebook
          [markdown_cell (str "Intro"); MkCell "code" (Some (SourceList [str "x = 1"])) false]
          fresh).1
     = map cell_type
         [markdown_cell (str "Intro"); MkCell "code" (Some (SourceList [str "x = 1"])) false]
  /\ (process_notebook
        [markdown_cell (str "Intro"); MkCell "code" (Some (SourceList [str "x = 1"])) false]
        fresh).2 = fresh.
Proof.
  apply (process_notebook_round_trip
           [markdown_cell (str "Intro"); MkCell "code" (Some (SourceList [str "x = 1"])) false]);
    reflexivity.
Defined.

(** ** Normalization *)

(** *** Runs of periods *)

Lemma dots_min_len : 0 < min_len DOTS_RE.
Proof. vm_compute. lia. Qed.

Lemma dots_miss st c s : is_dot c = false -> match_here DOTS_RE st (c :: s) = None.
Proof. intros H. unfold DOTS_RE. simpl. fold (is_dot c). now rewrite H. Qed.

Lemma dots_hit st s :
  match_here DOTS_RE st ("."%char :: s)
  = Some (eats (eat st ".") (take_while is_dot s), drop_while is_dot s).
Proof. unfold DOTS_RE. simpl. now apply star_take_all. Qed.

Lemma is_dot_eq c : is_dot c = true -> c = "."%char.
Proof. apply Ascii.eqb_eq. Qed.

Lemma adjacent_dots_cons_other c s : is_dot c = false -> adjacent_dots (c :: s) = adjacent_dots s.
Proof. intros H. simpl. now rewrite H. Qed.

(** Collapsing the runs leaves no two periods side by side, and the
    output starts with a period only if the input does. *)
Lemma sub_dots_no_adjacent bol pos s :
  adjacent_dots (sub_from DOTS_RE (fun _ => str ".") 0 bol pos s) = false
  /\ (forall c s', s = c :: s' -> is_dot c = false ->
      exists o, sub_from DOTS_RE (fun _ => str ".") 0 bol pos s = c :: o).
Proof.
  pattern bol, pos, s. apply (scan_ind DOTS_RE dots_min_len); clear bol pos s.
  - intros bol pos. split; [reflexivity|discriminate].
  - intros bol pos c s Hmiss [IH1 IH2]. rewrite sub_from_miss by assumption.
    assert (is_dot c = false) as Hc.
    { destruct (is_dot c) eqn:E; [|reflexivity].
      apply is_dot_eq in E. subst c. now rewrite dots_hit in Hmiss. }
    split; [now rewrite adjacent_dots_cons_other|].
    intros c0 s' [= <- <-] _. eauto.
  - intros bol pos st rest Hhit Hne [IH1 IH2].
    rewrite (sub_from_hit _ dots_min_len _ _ _ _ _ _ Hhit).
    destruct (matched st ++ rest) as [|c s] eqn:Es.
    { apply app_eq_nil in Es as [? _]. congruence. }
    destruct (is_dot c) eqn:Ec; [|now rewrite dots_miss in Hhit].
    apply is_dot_eq in Ec. subst c. rewrite dots_hit in Hhit. injection Hhit as _ Hrest.
    split.
    + change (str "." ++ ?x) with ("."%char :: x). cbn [adjacent_dots]. rewrite IH1.
      destruct rest as [|c' rest']; [reflexivity|].
      assert (is_dot c' = false) as Hc' by (eapply drop_while_head; eauto).
      destruct (IH2 c' rest' eq_refl Hc') as [o ->]. rewrite Hc'. now rewrite andb_false_r.
    + intros c s' [= <- _] Hc. discriminate.
Qed.

Lemma sub_dots_id bol pos s :
  adjacent_dots s = false -> sub_from DOTS_RE (fun _ => str ".") 0 bol pos s = s.
Proof.
  revert bol pos. induction s as [|c s IH]; intros bol pos H; [reflexivity|].
  simpl in H. apply orb_false_iff in H as [Hc Hs].
  destruct (is_dot c) eqn:Ec.
  - apply is_dot_eq in Ec. subst c.
    rewrite (sub_from_hit _ dots_min_len _ _ _ _ _ _ (dots_hit _ s)).
    assert (take_while is_dot s = [] /\ drop_while is_dot s = s) as [Et Ed].
    { destruct s as [|c' s]; [auto|]. simpl in Hc |- *. now rewrite Hc. }
    rewrite Ed, IH by assumption. reflexivity.
  - rewrite sub_from_miss by (now apply dots_miss). now rewrite IH.
Qed.

(** *** White space *)

Lemma is_word_inv w :
  is_word w = true -> exists c w', w = c :: w' /\ is_space c = false
                                   /\ forallb (fun c => negb (is_space c)) w' = true.
Proof.
  destruct w as [|c w']; [discriminate|]. simpl.
  intros [Hc Hw]%andb_true_iff. exists c, w'. apply negb_true_iff in Hc. auto.
Qed.

Lemma is_word_cons c w :
  is_space c = false -> (w = [] \/ is_word w = true) -> is_word (c :: w) = true.
Proof.
  intros Hc Hw. simpl. rewrite Hc. simpl.
  destruct Hw as [->|Hw]; [reflexivity|]. now destruct w.
Qed.

Lemma split_ws_cons c s :
  split_ws (c :: s)
  = if is_space c then split_ws s
    else match s with
         | [] => [[c]]
         | c' :: _ =>
             if is_space c' then [c] :: split_ws s
             else match split_ws s with
                  | w :: ws => (c :: w) :: ws
                  | [] => [[c]]
                  end
         end.
Proof. reflexivity. Qed.

(** The first word starts with the first character that is not white
    space. *)
Lemma split_ws_head c s :
  is_space c = false ->
  exists w ws, split_ws (c :: s) = (c :: w) :: ws /\ (w = [] \/ is_word w = true).
Proof.
  revert c. induction s as [|c' s IH]; intros c Hc.
  - exists [], []. simpl. rewrite Hc. auto.
  - rewrite split_ws_cons. rewrite Hc. destruct (is_space c') eqn:Ec'.
    + exists [], (split_ws (c' :: s)). auto.
    + destruct (IH c' Ec') as (w & ws & E & Hw). rewrite E.
      exists (c' :: w), ws. split; [reflexivity|]. right. now apply is_word_cons.
Qed.

Lemma split_ws_words s : Forall (fun w => is_word w = true) (split_ws s).
Proof.
  induction s as [|c s IH]; [constructor|].
  rewrite split_ws_cons. destruct (is_space c) eqn:Ec; [exact IH|].
  destruct s as [|c' s]; [repeat constructor; simpl; now rewrite Ec|].
  destruct (is_space c') eqn:Ec'.
  - constructor; [simpl; now rewrite Ec|exact IH].
  - destruct (split_ws_head c' s Ec') as (w & ws & E & Hw). rewrite E in IH |- *.
    apply Forall_cons_iff in IH as [Hw' Hws].
    constructor; [|exact Hws]. apply is_word_cons; auto.
Qed.

Lemma split_ws_word_app w r :
  is_word w = true -> split_ws (w ++ " "%char :: r) = w :: split_ws r.
Proof.
  intros (c & w' & -> & Hc & Hw')%is_word_inv. revert c Hc.
  induction w' as [|c' w' IH]; intros c Hc.
  - simpl. now rewrite Hc.
  - simpl in Hw'. apply andb_true_iff in Hw' as [Hc' Hw']. apply negb_true_iff in Hc'.
    change ((c :: c' :: w') ++ " "%char :: r) with (c :: (c' :: w') ++ " "%char :: r).
    cbn [app]. rewrite split_ws_cons, Hc, Hc'.
    specialize (IH Hw' c' Hc'). cbn [app] in IH. now rewrite IH.
Qed.

Lemma split_ws_word w : is_word w = true -> split_ws w = [w].
Proof.
  intros (c & w' & -> & Hc & Hw')%is_word_inv. revert c Hc.
  induction w' as [|c' w' IH]; intros c Hc.
  - simpl. now rewrite Hc.
  - simpl in Hw'. apply andb_true_iff in Hw' as [Hc' Hw']. apply negb_true_iff in Hc'.
    rewrite split_ws_cons. rewrite Hc, Hc'. now rewrite (IH Hw' c' Hc').
Qed.

Lemma split_ws_join ws :
  Forall (fun w => is_word w = true) ws -> split_ws (join (str " ") ws) = ws.
Proof.
  induction ws as [|w ws IH]; intros Hall; [reflexivity|].
  apply Forall_cons_iff in Hall as [Hw Hws].
  destruct ws as [|w' ws]; [now apply split_ws_word|].
  change (join (str " ") (w :: w' :: ws)) with (w ++ " "%char :: join (str " ") (w' :: ws)).
  rewrite split_ws_word_app by assumption. now rewrite IH.
Qed.

Lemma squeeze_squeeze s : squeeze (squeeze s) = squeeze s.
Proof. unfold squeeze. now rewrite split_ws_join by apply split_ws_words. Qed.

(** The joined words start and end with a character that is not white
    space. *)
Lemma lstrip_head c s : is_space c = false -> lstrip (c :: s) = c :: s.
Proof. intros H. unfold lstrip. simpl. now rewrite H. Qed.

Lemma join_words_head w ws :
  is_word w = true -> exists c o, join (str " ") (w :: ws) = c :: o /\ is_space c = false.
Proof.
  intros (c & w' & -> & Hc & _)%is_word_inv.
  destruct ws as [|w2 ws]; simpl; eauto.
Qed.

Lemma word_last w :
  is_word w = true -> exists c o, rev w = c :: o /\ is_space c = false.
Proof.
  intros (c & w' & -> & Hc & Hw')%is_word_inv. revert c Hc.
  induction w' as [|c' w' IH]; intros c Hc; [simpl; eauto|].
  simpl in Hw'. apply andb_true_iff in Hw' as [Hc' Hw']. apply negb_true_iff in Hc'.
  destruct (IH Hw' c' Hc') as (x & o & E & Hx).
  change (rev (c :: c' :: w')) with (rev (c' :: w') ++ [c]). rewrite E. simpl. eauto.
Qed.

Lemma join_words_last ws :
  ws <> [] -> Forall (fun w => is_word w = true) ws ->
  exists c o, rev (join (str " ") ws) = c :: o /\ is_space c = false.
Proof.
  induction ws as [|w ws IH]; intros Hne Hall; [congruence|].
  apply Forall_cons_iff in Hall as [Hw Hws].
  destruct ws as [|w' ws]; [now apply word_last|].
  change (join (str " ") (w :: w' :: ws)) with (w ++ " "%char :: join (str " ") (w' :: ws)).
  destruct (IH ltac:(discriminate) Hws) as (c & o & E & Hc).
  rewrite rev_app_distr. cbn [rev]. rewrite E. simpl. eauto.
Qed.

Lemma strip_squeeze s : strip (squeeze s) = squeeze s.
Proof.
  unfold squeeze. pose proof (split_ws_words s) as Hall.
  destruct (split_ws s) as [|w ws] eqn:E; [reflexivity|].
  destruct (join_words_last (w :: ws) ltac:(discriminate) Hall) as (c & o & Er & Hc).
  unfold strip.
  assert (rstrip (join (str " ") (w :: ws)) = join (str " ") (w :: ws)) as ->.
  { unfold rstrip. rewrite Er. simpl. rewrite Hc. rewrite <- Er. apply rev_involutive. }
  apply Forall_cons_iff in Hall as [Hw _].
  destruct (join_words_head w ws Hw) as (c' & o' & -> & Hc').
  now apply lstrip_head.
Qed.

Lemma squeeze_cons c s :
  squeeze (c :: s)
  = if is_space c then squeeze s
    else match s with
         | [] => [c]
         | c' :: _ =>
             if is_space c' then
               match squeeze s with
               | [] => [c]
               | o => c :: " "%char :: o
               end
             else c :: squeeze s
         end.
Proof.
  unfold squeeze. rewrite split_ws_cons. destruct (is_space c) eqn:Ec; [reflexivity|].
  destruct s as [|c' s]; [reflexivity|].
  destruct (is_space c') eqn:Ec'.
  - pose proof (split_ws_words (c' :: s)) as Hall.
    destruct (split_ws (c' :: s)) as [|w ws]; [reflexivity|].
    apply Forall_cons_iff in Hall as [Hw _].
    destruct (join_words_head w ws Hw) as (x & o & E & _).
    change (join (str " ") ([c] :: w :: ws)) with (c :: " "%char :: join (str " ") (w :: ws)).
    now rewrite E.
  - destruct (split_ws_head c' s Ec') as (w & ws & E & _). rewrite E.
    destruct ws; reflexivity.
Qed.

Lemma squeeze_head c s :
  is_space c = false -> exists o, squeeze (c :: s) = c :: o.
Proof.
  intros Hc. unfold squeeze. destruct (split_ws_head c s Hc) as (w & ws & -> & _).
  destruct ws; simpl; eauto.
Qed.

Lemma adjacent_dots_squeeze s : adjacent_dots s = false -> adjacent_dots (squeeze s) = false.
Proof.
  induction s as [|c s IH]; intros H; [reflexivity|].
  simpl in H. apply orb_false_iff in H as [Hc Hs]. specialize (IH Hs).
  rewrite squeeze_cons. destruct (is_space c) eqn:Ec; [exact IH|].
  destruct s as [|c' s]; [simpl; now rewrite andb_false_r|].
  destruct (is_space c') eqn:Ec'.
  - destruct (squeeze (c' :: s)) as [|x o] eqn:Eo; [simpl; now rewrite andb_false_r|].
    cbn [adjacent_dots] in IH |- *. rewrite IH.
    change (is_dot " ") with false. now rewrite andb_false_r.
  - destruct (squeeze_head c' s Ec') as [o Eo]. rewrite Eo in IH |- *.
    cbn [adjacent_dots] in IH |- *. now rewrite Hc, IH.
Qed.

(** C4, as stated, fails: the text "A (b) (c)" normalizes to "A (b)." and
    that text normalizes to "A.". *)
Lemma idempotent_at_counterexample : ~ idempotent_at (str "A (b) (c)").
Proof. unfold idempotent_at. vm_compute. discriminate. Qed.

Example normalize_nested_note :
  normalize_for_dedup (str "A (b) (c)") = str "A (b)."
  /\ normalize_for_dedup (str "A (b).") = str "A.".
Proof. split; vm_compute; reflexivity. Qed.

(** The result of the normalization is a squeezed text without two
    periods side by side. *)
Lemma normalize_for_dedup_shape t :
  exists x, adjacent_dots x = false /\ normalize_for_dedup t = squeeze x.
Proof.
  eexists. split; [|unfold normalize_for_dedup; cbv zeta; fold (squeeze); apply strip_squeeze].
  apply sub_dots_no_adjacent.
Qed.

(** The last three rules change no such text. *)
Lemma normalize_for_dedup_squeezed x :
  adjacent_dots x = false ->
  search PAGE_BREAK_RE (squeeze x) = None ->
  search TRAILING_NOTE_RE (squeeze x) = None ->
  normalize_for_dedup (squeeze x) = squeeze x.
Proof.
  intros Hx Hpb Hnote. unfold normalize_for_dedup. cbv zeta. unfold sub_const.
  rewrite (sub_no_match PAGE_BREAK_RE) by assumption.
  rewrite (sub_no_match TRAILING_NOTE_RE) by assumption.
  unfold sub. rewrite sub_dots_id by (now apply adjacent_dots_squeeze).
  fold (squeeze (squeeze x)). now rewrite squeeze_squeeze, strip_squeeze.
Qed.

(** C4, amended: normalizing a normalized text returns it unchanged
    whenever that text holds no page-break marker and does not end with a
    parenthesised note, that is, whenever the first two rules of the
    normalization find nothing in it; the collapsing of periods and of
    white space and the trimming never change a normalized text. *)
Theorem normalize_for_dedup_idempotent :
  forall t : list ascii,
    no_match PAGE_BREAK_RE (normalize_for_dedup t) = true ->
    no_match TRAILING_NOTE_RE (normalize_for_dedup t) = true ->
    normalize_for_dedup (normalize_for_dedup t) = normalize_for_dedup t.
Proof.
  intros t Hpb Hnote.
  destruct (normalize_for_dedup_shape t) as (x & Hx & E).
  rewrite E in *. apply no_match_true in Hpb, Hnote.
  now apply normalize_for_dedup_squeezed.
Qed.

Lemma normalize_for_dedup_idempotent_witness :
  normalize_for_dedup (normalize_for_dedup (str "Foo. (see also appendix)."))
  = normalize_for_dedup (str "Foo. (see also appendix).").
Proof.
  apply (normalize_for_dedup_idempotent (str "Foo. (see also appendix).")); reflexivity.
Defined.

(** *** The condition of the amended idempotence is necessary *)

Lemma match_here_nil p bol : 0 < min_len p -> match_here p (start_state bol) [] = None.
Proof.
  intros Hp. destruct (match_here p (start_state bol) []) as [[st rest]|] eqn:E; [|reflexivity].
  apply match_here_start in E as (E & _ & Hn).
  symmetry in E. apply app_eq_nil in E as [E _]. rewrite E in Hn. simpl in Hn. lia.
Qed.

(** Replacing every match by a text that is not longer than a match does
    not lengthen the text, and shortens it when the replacement is shorter
    and there is a match. *)
Lemma sub_const_length p r bol pos s :
  0 < min_len p -> length r <= min_len p ->
  length (sub_from p (fun _ => r) 0 bol pos s) <= length s
  /\ (length r < min_len p -> search_from p bol pos s <> None ->
      length (sub_from p (fun _ => r) 0 bol pos s) < length s).
Proof.
  intros Hp Hr. pattern bol, pos, s. apply (scan_ind p Hp); clear bol pos s.
  - intros bol pos. split; [reflexivity|]. intros _ H. exfalso. apply H.
    simpl. now rewrite match_here_nil.
  - intros bol pos c s Hmiss [IH1 IH2]. rewrite sub_from_miss by assumption.
    split; [simpl; lia|]. intros Hlt Hs. rewrite search_from_miss in Hs by assumption.
    specialize (IH2 Hlt Hs). simpl. lia.
  - intros bol pos st rest Hhit _ [IH1 _].
    rewrite (sub_from_hit p Hp _ _ _ _ _ _ Hhit).
    apply match_here_start in Hhit as (_ & _ & Hlen).
    rewrite !length_app. split; [lia|]. intros Hlt _. lia.
Qed.

Lemma drop_while_length q (s : list ascii) : length (drop_while q s) <= length s.
Proof.
  induction s as [|c s IH]; [reflexivity|]. simpl. destruct (q c); simpl; lia.
Qed.

Lemma strip_length s : length (strip s) <= length s.
Proof.
  unfold strip, lstrip, rstrip.
  pose proof (drop_while_length is_space (rev (drop_while is_space (rev s)))) as H1.
  pose proof (drop_while_length is_space (rev s)) as H2.
  rewrite length_rev in H1. rewrite length_rev in H2. lia.
Qed.

Lemma squeeze_length s : length (squeeze s) <= length s.
Proof.
  remember (length s) as n eqn:Hn. revert s Hn.
  induction n as [n IH] using lt_wf_ind. intros s ->.
  destruct s as [|c s]; [reflexivity|]. rewrite squeeze_cons.
  assert (length (squeeze s) <= length s) as Hs by (apply (IH (length s)); simpl; auto).
  destruct (is_space c); [simpl; lia|].
  destruct s as [|c' s]; [reflexivity|].
  destruct (is_space c') eqn:Ec'; [|simpl in *; lia].
  rewrite squeeze_cons, Ec'.
  assert (length (squeeze s) <= length s) as Hs' by (apply (IH (length s)); simpl; auto).
  destruct (squeeze s); simpl in *; lia.
Qed.

Lemma page_break_min_len : min_len PAGE_BREAK_RE = 17.
Proof. reflexivity. Qed.

Lemma trailing_note_min_len : min_len TRAILING_NOTE_RE = 3.
Proof. reflexivity. Qed.

(** A text in which one of the first two rules finds something gets
    shorter. *)
Lemma normalize_for_dedup_shrinks t :
  no_match PAGE_BREAK_RE t = false \/ no_match TRAILING_NOTE_RE t = false ->
  length (normalize_for_dedup t) < length t.
Proof.
  intros H. unfold normalize_for_dedup, sub_const, sub. cbv zeta.
  set (t1 := sub_from PAGE_BREAK_RE (fun _ => []) 0 true 0 t).
  set (t2 := sub_from TRAILING_NOTE_RE (fun _ => str ".") 0 true 0 t1).
  set (t3 := sub_from DOTS_RE (fun _ => str ".") 0 true 0 t2).
  pose proof (strip_length (join (str " ") (split_ws t3))) as H5.
  pose proof (squeeze_length t3) as H4. unfold squeeze in H4.
  destruct (sub_const_length DOTS_RE (str ".") true 0 t2) as [H3 _];
    [exact dots_min_len|reflexivity|]. fold t3 in H3.
  destruct (sub_const_length TRAILING_NOTE_RE (str ".") true 0 t1) as [H2 H2'];
    [rewrite trailing_note_min_len; lia|rewrite trailing_note_min_len; simpl; lia|].
  fold t2 in H2, H2'.
  destruct (sub_const_length PAGE_BREAK_RE [] true 0 t) as [H1 H1'];
    [rewrite page_break_min_len; lia|rewrite page_break_min_len; simpl; lia|].
  fold t1 in H1, H1'.
  destruct (search PAGE_BREAK_RE t) as [m|] eqn:Epb.
  - assert (length t1 < length t); [|lia].
    apply H1'; [rewrite page_break_min_len; simpl; lia|]. unfold search in Epb. congruence.
  - destruct H as [H|H]; [unfold no_match in H; now rewrite Epb in H|].
    assert (t1 = t) as Et by (apply sub_from_no_match; exact Epb).
    assert (length t2 < length t1); [|lia].
    apply H2'; [rewrite trailing_note_min_len; simpl; lia|].
    rewrite Et. unfold no_match, search in H.
    destruct (search_from TRAILING_NOTE_RE true 0 t); [discriminate|discriminate].
Qed.

(** Normalization is idempotent at [t] exactly when the first two rules
    find nothing in the normalized text. *)
Lemma idempotent_at_iff t :
  idempotent_at t <->
  no_match PAGE_BREAK_RE (normalize_for_dedup t) = true
  /\ no_match TRAILING_NOTE_RE (normalize_for_dedup t) = true.
Proof.
  split.
  - intros Hid.
    destruct (no_match PAGE_BREAK_RE (normalize_for_dedup t)) eqn:E1;
      destruct (no_match TRAILING_NOTE_RE (normalize_for_dedup t)) eqn:E2; auto;
      exfalso;
      (assert (length (normalize_for_dedup (normalize_for_dedup t))
               < length (normalize_for_dedup t))
        by (apply normalize_for_dedup_shrinks; auto));
      rewrite Hid in *; lia.
  - intros [H1 H2]. unfold idempotent_at.
    destruct (normalize_for_dedup_shape t) as (x & Hx & E).
    rewrite E in *. apply no_match_true in H1, H2.
    now apply normalize_for_dedup_squeezed.
Qed.

Example normalize_nested_marker :
  normalize_for_dedup (str "<!-<!-- PAGE_BREAK -->- PAGE_BREAK -->") = PAGE_BREAK
  /\ normalize_for_dedup PAGE_BREAK = [].
Proof. split; vm_compute; reflexivity. Qed.

(** ** The registry *)

(** *** Numbering *)

Lemma number_step_other (h : list Reference) l a :
  a ∉ map snd l ->
  foldl (fun h '(n, ref) => alter (set_global_num n) ref h) h l !!! a = h !!! a.
Proof.
  revert h. induction l as [|[n a0] l IH]; intros h Ha; [reflexivity|].
  simpl in *. apply not_elem_of_cons in Ha as [Hne Ha].
  rewrite IH by assumption. now apply list_lookup_total_alter_ne.
Qed.

Lemma enumerate_from_snd {A} n (l : list A) : map snd (enumerate_from n l) = l.
Proof. revert n. induction l as [|x l IH]; intros n; simpl; [|rewrite IH]; reflexivity. Qed.

Lemma number_from (h : list Reference) n order i a :
  NoDup order -> (forall a, a ∈ order -> a < length h) ->
  order !! i = Some a ->
  foldl (fun h '(n, ref) => alter (set_global_num n) ref h) h (enumerate_from n order) !!! a
  = set_global_num (n + Z.of_nat i) (h !!! a).
Proof.
  revert h n i. induction order as [|a0 order IH]; intros h n i Hnd Hlt Hi; [discriminate|].
  apply NoDup_cons in Hnd as [Hnotin Hnd]. simpl.
  destruct i as [|i]; simpl in Hi.
  - injection Hi as ->. rewrite number_step_other by now rewrite enumerate_from_snd.
    rewrite list_lookup_total_alter_eq by (apply Hlt; left).
    now rewrite Z.add_0_r.
  - rewrite (IH _ _ i Hnd); [| |assumption].
    + rewrite list_lookup_total_alter_ne.
      * f_equal. lia.
      * intros ->. apply Hnotin. eapply list_elem_of_lookup_2, Hi.
    + intros b Hb. rewrite length_alter. apply Hlt. now right.
Qed.

Lemma assign_global_numbers_at h order i a :
  NoDup order -> (forall a, a ∈ order -> a < length h) ->
  order !! i = Some a ->
  assign_global_numbers h order !!! a = set_global_num (Z.of_nat i + 1) (h !!! a).
Proof.
  intros Hnd Hlt Hi. unfold assign_global_numbers.
  rewrite (number_from h 1 order i a Hnd Hlt Hi). f_equal. lia.
Qed.

Lemma assign_global_numbers_map h order :
  NoDup order -> (forall a, a ∈ order -> a < length h) ->
  map (fun a => assign_global_numbers h order !!! a) order
  = numbered (map (fun a => h !!! a) order).
Proof.
  intros Hnd Hlt. apply list_eq. intros i. unfold numbered.
  rewrite list_lookup_imap, !list_lookup_fmap.
  destruct (order !! i) as [a|] eqn:E; [|reflexivity]. simpl.
  now rewrite (assign_global_numbers_at h order i a).
Qed.

(** *** The first pass keeps the registry well formed *)

Lemma norm_at_app h h' a : a < length h -> norm_at (h ++ h') a = norm_at h a.
Proof. intros H. unfold norm_at. now rewrite lookup_total_app_l. Qed.

Lemma registry_ok_extend h h' self : registry_ok (h, self) -> registry_ok (h ++ h', self).
Proof.
  intros [Hnd Hall]. split; [exact Hnd|]. simpl in *. intros a Ha.
  destruct (Hall a Ha) as [Hlt Hu]. rewrite norm_at_app by assumption.
  split; [rewrite length_app; lia|exact Hu].
Qed.

Lemma register_definition_ok i h self a :
  registry_ok (h, self) -> a < length h -> registry_ok (h, register_definition i h self a).
Proof.
  intros [Hnd Hall] Ha. unfold register_definition. fold (norm_at h a).
  destruct (unique_references self !! norm_at h a) as [existing|] eqn:E.
  - split; [exact Hnd|exact Hall].
  - simpl in *. split; simpl.
    + apply NoDup_app. split; [exact Hnd|]. split; [|apply NoDup_singleton].
      intros b Hb ->%list_elem_of_singleton.
      destruct (Hall a Hb) as [_ [x Hx]]. congruence.
    + intros b [Hb| ->%list_elem_of_singleton]%elem_of_app.
      * destruct (Hall b Hb) as [Hlt [x Hx]]. split; [exact Hlt|].
        destruct (decide (norm_at h a = norm_at h b)) as [Heq|Hne].
        -- rewrite <- Heq, lookup_insert_eq. eauto.
        -- rewrite lookup_insert_ne by assumption. eauto.
      * split; [exact Ha|]. rewrite lookup_insert_eq. eauto.
Qed.

(** The objects and the dictionary of [extract_definitions]. *)
Lemma extract_definitions_fold cell_index t h :
  extract_definitions cell_index t h
  = foldl (definitions_step cell_index t) ([], h) (finditer DEFINITION_START_PATTERN t).
Proof.
  unfold extract_definitions. generalize (@nil (list ascii * nat)) as d.
  generalize (finditer DEFINITION_START_PATTERN t) as ms. intros ms. revert h.
  induction ms as [|m ms IH]; intros h d; [reflexivity|]. simpl. now rewrite IH.
Qed.

Lemma dict_set_values {V} (k : list ascii) (v : V) d e :
  e ∈ dict_set k v d -> e.2 = v \/ e ∈ d.
Proof.
  induction d as [|[k' v'] d IH]; simpl.
  - intros ->%list_elem_of_singleton. now left.
  - destruct (bool_decide (k' = k)).
    + intros [->|He]%elem_of_cons; [now left|right; now right].
    + intros [->|He]%elem_of_cons; [right; now left|].
      destruct (IH He) as [?|?]; [now left|right; now right].
Qed.

Lemma extract_definitions_gen cell_index t ms d h :
  (forall e, e ∈ d -> e.2 < length h) ->
  (foldl (definitions_step cell_index t) (d, h) ms).2
  = h ++ map (reference_of_match cell_index t) ms
  /\ forall e, e ∈ (foldl (definitions_step cell_index t) (d, h) ms).1
       -> e.2 < length (foldl (definitions_step cell_index t) (d, h) ms).2.
Proof.
  revert d h. induction ms as [|m ms IH]; intros d h Hd.
  - simpl. rewrite app_nil_r. auto.
  - cbn [foldl map]. unfold definitions_step at 2 4 6. cbn [fst snd].
    destruct (IH (dict_set (group m 1) (length h) d) (h ++ [reference_of_match cell_index t m]))
      as [E1 E2].
    { intros e [->|He]%dict_set_values; rewrite length_app; simpl; [lia|].
      specialize (Hd e He). lia. }
    split; [|exact E2]. rewrite E1, <- app_assoc. reflexivity.
Qed.

Lemma extract_definitions_spec cell_index t h :
  (extract_definitions cell_index t h).2
  = h ++ map (reference_of_match cell_index t) (finditer DEFINITION_START_PATTERN t)
  /\ forall e, e ∈ (extract_definitions cell_index t h).1
       -> e.2 < length (extract_definitions cell_index t h).2.
Proof.
  rewrite extract_definitions_fold.
  apply (extract_definitions_gen cell_index t _ [] h). intros e He. inversion He.
Qed.

Lemma register_all_ok i h self (d : list (list ascii * nat)) :
  registry_ok (h, self) -> (forall e, e ∈ d -> e.2 < length h) ->
  registry_ok (h, foldl (fun self '(ref_id, ref) => register_definition i h self ref) self d).
Proof.
  revert self. induction d as [|[k a] d IH]; intros self Hok Hd; [exact Hok|].
  simpl. apply IH.
  - apply register_definition_ok; [exact Hok|]. apply (Hd (k, a)). now left.
  - intros e He. apply Hd. now right.
Qed.

Lemma scan_cell_unfold h self i cell :
  scan_cell (h, self) (i, cell)
  = if is_markdown cell
    then ((extract_definitions i (source_text cell) h).2,
          foldl (fun self '(ref_id, ref) =>
                   register_definition i (extract_definitions i (source_text cell) h).2 self ref)
                self (extract_definitions i (source_text cell) h).1)
    else (h, self).
Proof.
  unfold scan_cell, extract_references_from_cell.
  destruct (is_markdown cell); simpl; [|reflexivity].
  now destruct (extract_definitions i (source_text cell) h).
Qed.

Lemma scan_cell_ok st icell : registry_ok st -> registry_ok (scan_cell st icell).
Proof.
  destruct st as [h self], icell as [i cell]. intros Hok. rewrite scan_cell_unfold.
  destruct (is_markdown cell); [|exact Hok].
  destruct (extract_definitions_spec i (source_text cell) h) as [Eh Hd].
  apply register_all_ok; [|exact Hd]. rewrite Eh. now apply registry_ok_extend.
Qed.

Lemma scan_cells_ok st icells : registry_ok st -> registry_ok (foldl scan_cell st icells).
Proof.
  revert st. induction icells as [|ic icells IH]; intros st Hok; [exact Hok|].
  simpl. apply IH. now apply scan_cell_ok.
Qed.

Lemma fresh_ok : registry_ok fresh.
Proof. split; [constructor|]. intros a Ha. inversion Ha. Qed.

(** After [build_global_reference_map], the reference at position [i] of
    [global_order] has the global number [i + 1]. *)
Lemma build_numbers_dense cells h self i a :
  build_global_reference_map cells fresh = (h, self) ->
  global_order self !! i = Some a ->
  global_num (h !!! a) = Some (Z.of_nat i + 1)%Z.
Proof.
  unfold build_global_reference_map.
  pose proof (scan_cells_ok fresh (imap (fun i c => (i, c)) cells) fresh_ok) as Hok.
  destruct (foldl scan_cell fresh (imap (fun i c => (i, c)) cells)) as [h0 self0].
  intros [= <- <-] Hi. destruct Hok as [Hnd Hall]. simpl in *.
  rewrite (assign_global_numbers_at h0 _ i a Hnd); [reflexivity| |exact Hi].
  intros b Hb. now apply Hall.
Qed.

(** *** The first pass when no cell repeats an anchor *)

Lemma dict_set_fresh {V} (k : list ascii) (v : V) d :
  k ∉ map fst d -> dict_set k v d = d ++ [(k, v)].
Proof.
  induction d as [|[k' v'] d IH]; intros Hk; [reflexivity|].
  simpl in *. apply not_elem_of_cons in Hk as [Hne Hk].
  rewrite bool_decide_eq_false_2 by congruence. now rewrite IH.
Qed.

Lemma extract_definitions_distinct cell_index t ms d h :
  NoDup (map fst d ++ map (fun m => group m 1) ms) ->
  (foldl (definitions_step cell_index t) (d, h) ms).1
  = d ++ zip (map (fun m => group m 1) ms) (seq (length h) (length ms)).
Proof.
  revert d h. induction ms as [|m ms IH]; intros d h Hnd.
  - simpl. now rewrite app_nil_r.
  - cbn [foldl map length seq]. unfold definitions_step at 2. cbn [fst snd].
    apply NoDup_app in Hnd as (Hd & Hdis & Hms).
    apply NoDup_cons in Hms as [Hm Hms].
    rewrite dict_set_fresh by (intros Hin; apply (Hdis _ Hin); now left).
    rewrite IH.
    + rewrite length_app. simpl. rewrite Nat.add_1_r, <- app_assoc. reflexivity.
    + rewrite map_app. simpl. rewrite <- app_assoc. simpl.
      apply NoDup_app. split; [exact Hd|]. split; [|now apply NoDup_cons].
      intros k Hk. apply Hdis. exact Hk.
Qed.

Lemma found_in_cell_ids i cell :
  is_markdown cell = true ->
  map local_id (found_in_cell i cell)
  = map (fun m => group m 1) (finditer DEFINITION_START_PATTERN (source_text cell)).
Proof.
  intros Hmd. unfold found_in_cell. rewrite Hmd, map_map. reflexivity.
Qed.

Lemma found_in_cell_index i cell r : r ∈ found_in_cell i cell -> cell_index r = i.
Proof.
  unfold found_in_cell. destruct (is_markdown cell); [|intros H; inversion H].
  intros (m & -> & _)%list_elem_of_fmap. reflexivity.
Qed.

Lemma register_definition_app i h h' self a :
  a < length h -> register_definition i (h ++ h') self a = register_definition i h self a.
Proof. intros H. unfold register_definition. now rewrite !lookup_total_app_l. Qed.

Lemma foldl_ext_in {A B} (f g : A -> B -> A) (l : list B) (a : A) :
  (forall a b, b ∈ l -> f a b = g a b) -> foldl f a l = foldl g a l.
Proof.
  revert a. induction l as [|b l IH]; intros a H; [reflexivity|].
  simpl. rewrite H by now left. apply IH. intros a' b' Hb'. apply H. now right.
Qed.

Lemma foldl_zip_snd {A K V} (f : A -> V -> A) (d : list K) (vs : list V) (a : A) :
  length d = length vs ->
  foldl (fun a '(k, v) => f a v) a (zip d vs) = foldl f a vs.
Proof.
  revert vs a. induction d as [|k d IH]; intros [|v vs] a Hlen; try discriminate; [reflexivity|].
  simpl. apply IH. now injection Hlen.
Qed.

(** One cell: its definitions go to the store in the order of the text,
    and are registered in that order. *)
Lemma scan_cell_distinct h self i cell :
  NoDup (map local_id (found_in_cell i cell)) ->
  scan_cell (h, self) (i, cell)
  = (h ++ found_in_cell i cell,
     foldl (register_at (h ++ found_in_cell i cell)) self
           (seq (length h) (length (found_in_cell i cell)))).
Proof.
  intros Hnd. rewrite scan_cell_unfold.
  destruct (is_markdown cell) eqn:Emd.
  - rewrite found_in_cell_ids in Hnd by assumption.
    destruct (extract_definitions_spec i (source_text cell) h) as [Eh _].
    rewrite Eh. rewrite extract_definitions_fold.
    rewrite (extract_definitions_distinct i (source_text cell) _ [] h) by exact Hnd.
    assert (found_in_cell i cell
            = map (reference_of_match i (source_text cell))
                  (finditer DEFINITION_START_PATTERN (source_text cell))) as EF
      by (unfold found_in_cell; now rewrite Emd).
    rewrite <- EF. f_equal. cbn [app].
    rewrite (foldl_zip_snd (fun self ref => register_definition i _ self ref))
      by (rewrite length_seq, length_map; reflexivity).
    rewrite EF, length_map, <- EF.
    apply foldl_ext_in. intros self' a Ha. unfold register_at. f_equal.
    apply elem_of_seq in Ha as [Hge Hlt].
    rewrite lookup_total_app_r by assumption. symmetry.
    apply found_in_cell_index with cell. apply list_elem_of_lookup_total_2.
    rewrite EF, length_map in *. lia.
  - unfold found_in_cell. rewrite Emd. simpl. now rewrite app_nil_r.
Qed.

Lemma register_at_app h h' self a :
  a < length h -> register_at (h ++ h') self a = register_at h self a.
Proof.
  intros H. unfold register_at. rewrite register_definition_app by assumption.
  now rewrite lookup_total_app_l.
Qed.

(** All cells: the store is the list of the definitions of the document,
    registered one after the other. *)
Lemma scan_cells_distinct (f : nat -> nat) cells h self :
  Forall (fun refs => NoDup (map local_id refs)) (imap (fun i c => found_in_cell (f i) c) cells) ->
  foldl scan_cell (h, self) (imap (fun i c => (f i, c)) cells)
  = (h ++ concat (imap (fun i c => found_in_cell (f i) c) cells),
     foldl (register_at (h ++ concat (imap (fun i c => found_in_cell (f i) c) cells))) self
           (seq (length h) (length (concat (imap (fun i c => found_in_cell (f i) c) cells))))).
Proof.
  revert f h self. induction cells as [|cell cells IH]; intros f h self Hall.
  - simpl. now rewrite app_nil_r.
  - rewrite !imap_cons in *.
    change (imap ((fun i c => found_in_cell (f i) c) ∘ S) cells)
      with (imap (fun i c => found_in_cell ((f ∘ S) i) c) cells) in *.
    change (imap ((fun i c => (f i, c)) ∘ S) cells)
      with (imap (fun i c => ((f ∘ S) i, c)) cells) in *.
    apply Forall_cons_iff in Hall as [Hc Hall].
    cbn [foldl concat]. rewrite scan_cell_distinct by exact Hc.
    rewrite (IH (f ∘ S)) by exact Hall.
    set (F := found_in_cell (f 0) cell).
    set (D := concat (imap (fun i c => found_in_cell ((f ∘ S) i) c) cells)).
    rewrite <- app_assoc. f_equal.
    rewrite (length_app F D), seq_app, foldl_app, (length_app h F).
    f_equal. apply foldl_ext_in. intros self' a Ha.
    apply elem_of_seq in Ha as [_ Hlt].
    rewrite (app_assoc h F D). symmetry. apply register_at_app. rewrite length_app. lia.
Qed.

(** *** Order of first appearance *)

Lemma order_fold h A self seen :
  (forall k, is_Some (unique_references self !! k) <-> k ∈ seen) ->
  map (fun a => h !!! a) (global_order (foldl (register_at h) self A))
  = map (fun a => h !!! a) (global_order self)
    ++ first_occurrences_from seen (map (fun a => h !!! a) A).
Proof.
  revert self seen. induction A as [|a A IH]; intros self seen Hseen.
  - simpl. now rewrite app_nil_r.
  - cbn [foldl map first_occurrences_from]. unfold register_at at 2, register_definition.
    fold (norm_at h a). change (normalize_for_dedup (definition (h !!! a))) with (norm_at h a).
    destruct (unique_references self !! norm_at h a) as [existing|] eqn:E.
    + rewrite bool_decide_eq_true_2 by (apply Hseen; rewrite E; eauto).
      now rewrite (IH _ seen).
    + rewrite bool_decide_eq_false_2
        by (intros Hin; apply Hseen in Hin as [x Hx]; congruence).
      rewrite (IH _ (norm_at h a :: seen)); simpl.
      * rewrite map_app, <- app_assoc. reflexivity.
      * intros k. rewrite elem_of_cons, <- Hseen.
        destruct (decide (norm_at h a = k)) as [<-|Hne].
        -- rewrite lookup_insert_eq. split; eauto.
        -- rewrite lookup_insert_ne by assumption. split; [auto|].
           intros [?|?]; [congruence|assumption].
Qed.

Lemma map_lookup_total_seq (h : list Reference) :
  map (fun a => h !!! a) (seq 0 (length h)) = h.
Proof.
  apply list_eq. intros i. rewrite list_lookup_fmap.
  destruct (decide (i < length h)) as [Hlt|Hge].
  - rewrite lookup_seq_lt by assumption. simpl.
    symmetry. now apply list_lookup_lookup_total_lt.
  - rewrite lookup_seq_ge by lia. simpl. symmetry. apply lookup_ge_None. lia.
Qed.

Lemma distinct_anchors_Forall cells :
  distinct_anchors cells = true ->
  Forall (fun refs => NoDup (map local_id refs)) (imap found_in_cell cells).
Proof.
  unfold distinct_anchors. rewrite forallb_forall. intros H.
  apply Forall_forall. intros refs Hin%list_elem_of_In.
  apply H in Hin. now apply bool_decide_eq_true in Hin.
Qed.

(** The first pass on a document without repeated anchors. *)
Lemma scan_document cells :
  distinct_anchors cells = true ->
  foldl scan_cell fresh (imap (fun i c => (i, c)) cells)
  = (all_definitions cells,
     foldl (register_at (all_definitions cells)) ReferenceManager_init
           (seq 0 (length (all_definitions cells)))).
Proof.
  intros H%distinct_anchors_Forall.
  apply (scan_cells_distinct (fun i => i) cells [] ReferenceManager_init H).
Qed.

Lemma global_order_first_occurrences cells :
  distinct_anchors cells = true ->
  let st := foldl scan_cell fresh (imap (fun i c => (i, c)) cells) in
  map (fun a => st.1 !!! a) (global_order st.2) = first_occurrences (all_definitions cells).
Proof.
  intros H. rewrite scan_document by assumption. cbn [fst snd].
  rewrite (order_fold _ _ _ []).
  - simpl. now rewrite map_lookup_total_seq.
  - intros k. simpl. rewrite lookup_empty. split; [intros [? ?]; discriminate|].
    intros Hin. inversion Hin.
Qed.

Example repeated_anchor_cell_order :
  let st := build_global_reference_map [repeated_anchor_cell] fresh in
  map (fun a => definition (st.1 !!! a)) (global_order st.2) = [str "C."; str "B."]
  /\ map definition (first_occurrences (all_definitions [repeated_anchor_cell]))
     = [str "A."; str "B."; str "C."].
Proof. split; vm_compute; reflexivity. Qed.

(** C2, as stated, fails: in [repeated_anchor_cell] the definitions
    appear in the order A, B, C, and [global_order] is C, B. *)
Lemma first_appearance_order_counterexample :
  ~ first_appearance_order [repeated_anchor_cell].
Proof. unfold first_appearance_order. vm_compute. discriminate. Qed.

(** C2, amended: after [build_global_reference_map] on any cell list, the
    reference at index [i] of [global_order] has global number [i + 1];
    and when no cell gives two of its definitions the same anchor,
    [global_order] lists the unique references in order of first
    appearance, cells in index order and, within a cell, definitions in
    the order of the text, each with its number. *)
Theorem global_numbering_dense_and_ordered :
  forall cells : list Cell,
    let st := build_global_reference_map cells fresh in
    (forall i a, global_order st.2 !! i = Some a ->
                 global_num (st.1 !!! a) = Some (Z.of_nat i + 1)%Z)
    /\ (distinct_anchors cells = true ->
        map (fun a => st.1 !!! a) (global_order st.2)
        = numbered (first_occurrences (all_definitions cells))).
Proof.
  intros cells st. split.
  - intros i a. apply (build_numbers_dense cells). subst st.
    now destruct (build_global_reference_map cells fresh).
  - intros Hd. subst st. unfold build_global_reference_map.
    pose proof (scan_cells_ok fresh (imap (fun i c => (i, c)) cells) fresh_ok) as [Hnd Hall].
    pose proof (global_order_first_occurrences cells Hd) as Ho. cbv zeta in Ho.
    destruct (foldl scan_cell fresh (imap (fun i c => (i, c)) cells)) as [h0 self0].
    cbn [fst snd] in *.
    rewrite assign_global_numbers_map; [now rewrite Ho|exact Hnd|].
    intros b Hb. now apply Hall.
Qed.

Lemma global_numbering_dense_and_ordered_witness :
  let st := build_global_reference_map scenario_A fresh in
  map (fun a => st.1 !!! a) (global_order st.2)
  = numbered (first_occurrences (all_definitions scenario_A)).
Proof.
  apply (global_numbering_dense_and_ordered scenario_A). reflexivity.
Defined.

(** *** Resolution of the keys *)

Section registering.
Variable h : list Reference.

Lemma register_at_unique_mono self a k c :
  unique_references self !! k = Some c ->
  unique_references (register_at h self a) !! k = Some c.
Proof.
  intros H. unfold register_at, register_definition. fold (norm_at h a).
  destruct (unique_references self !! norm_at h a) eqn:E; [exact H|].
  simpl. rewrite lookup_insert_ne; [exact H|]. intros <-. congruence.
Qed.

Lemma fold_unique_mono A self k c :
  unique_references self !! k = Some c ->
  unique_references (foldl (register_at h) self A) !! k = Some c.
Proof.
  revert self. induction A as [|a A IH]; intros self H; [exact H|].
  simpl. apply IH. now apply register_at_unique_mono.
Qed.

Lemma register_at_local_other self a key :
  key_at h a <> key ->
  cell_local_refs (register_at h self a) !! key = cell_local_refs self !! key.
Proof.
  intros H. unfold register_at, register_definition.
  destruct (unique_references self !! _); simpl; now rewrite lookup_insert_ne.
Qed.

Lemma fold_local_other A self key :
  key ∉ map (key_at h) A ->
  cell_local_refs (foldl (register_at h) self A) !! key = cell_local_refs self !! key.
Proof.
  revert self. induction A as [|a A IH]; intros self H; [reflexivity|].
  simpl in *. apply not_elem_of_cons in H as [Hne H].
  rewrite IH by assumption. apply register_at_local_other. congruence.
Qed.

Lemma register_at_local self a :
  exists c, cell_local_refs (register_at h self a) !! key_at h a = Some c
            /\ unique_references (register_at h self a) !! norm_at h a = Some c.
Proof.
  unfold register_at, register_definition. fold (norm_at h a).
  destruct (unique_references self !! norm_at h a) as [c|] eqn:E; simpl.
  - exists c. split; [apply lookup_insert_eq|exact E].
  - exists a. split; apply lookup_insert_eq.
Qed.

(** Each registered object whose key is not taken again resolves to the
    canonical object of its normalized text. *)
Lemma fold_local A self a :
  NoDup (map (key_at h) A) -> a ∈ A ->
  exists c, cell_local_refs (foldl (register_at h) self A) !! key_at h a = Some c
            /\ unique_references (foldl (register_at h) self A) !! norm_at h a = Some c.
Proof.
  revert self. induction A as [|a0 A IH]; intros self Hnd Ha; [inversion Ha|].
  simpl in Hnd. apply NoDup_cons in Hnd as [Hnotin Hnd]. simpl.
  apply elem_of_cons in Ha as [->|Ha]; [|now apply IH].
  destruct (register_at_local self a0) as (c & Hl & Hu). exists c. split.
  - now rewrite fold_local_other.
  - now apply fold_unique_mono.
Qed.

Lemma register_at_canonical self a :
  canonical h self -> canonical h (register_at h self a).
Proof.
  intros Hc k c. unfold register_at, register_definition. fold (norm_at h a).
  destruct (unique_references self !! norm_at h a) eqn:E; simpl; [apply Hc|].
  destruct (decide (norm_at h a = k)) as [<-|Hne].
  - rewrite lookup_insert_eq. intros [= <-]. split; [reflexivity|].
    apply elem_of_app. right. now left.
  - rewrite lookup_insert_ne by assumption. intros H.
    destruct (Hc k c H) as [? ?]. split; [assumption|]. apply elem_of_app. now left.
Qed.

Lemma fold_canonical A self :
  canonical h self -> canonical h (foldl (register_at h) self A).
Proof.
  revert self. induction A as [|a A IH]; intros self H; [exact H|].
  simpl. apply IH. now apply register_at_canonical.
Qed.
End registering.

Lemma canonical_init h : canonical h ReferenceManager_init.
Proof. intros k c H. simpl in H. rewrite lookup_empty in H. discriminate. Qed.

(** The keys of the definitions of a document are pairwise distinct when
    no cell repeats a bracket number. *)
Lemma found_keys_first (g : nat -> nat) cells key :
  key ∈ map key_of (concat (imap (fun i c => found_in_cell (g i) c) cells)) ->
  exists j, key.1 = g j.
Proof.
  revert g. induction cells as [|cell cells IH]; intros g H; [inversion H|].
  rewrite imap_cons in H. cbn [concat] in H. rewrite map_app in H.
  apply elem_of_app in H as [H|H].
  - apply list_elem_of_fmap in H as (r & -> & Hr).
    exists 0. simpl. now apply found_in_cell_index with cell.
  - destruct (IH (g ∘ S) H) as [j Hj]. now exists (S j).
Qed.

Lemma found_keys_NoDup (g : nat -> nat) cells :
  (forall i j, g i = g j -> i = j) ->
  Forall (fun refs => NoDup (map local_num refs)) (imap (fun i c => found_in_cell (g i) c) cells) ->
  NoDup (map key_of (concat (imap (fun i c => found_in_cell (g i) c) cells))).
Proof.
  revert g. induction cells as [|cell cells IH]; intros g Hinj Hall; [constructor|].
  rewrite imap_cons in *.
  change (imap ((fun i c => found_in_cell (g i) c) ∘ S) cells)
    with (imap (fun i c => found_in_cell ((g ∘ S) i) c) cells) in *.
  apply Forall_cons_iff in Hall as [Hc Hall].
  cbn [concat]. rewrite map_app. apply NoDup_app. repeat split.
  - apply (NoDup_fmap_1 snd). rewrite <- list_fmap_compose. exact Hc.
  - intros key Hk1 Hk2.
    apply list_elem_of_fmap in Hk1 as (r & -> & Hr).
    apply found_keys_first in Hk2 as [j Hj]. simpl in Hj.
    rewrite (found_in_cell_index _ _ _ Hr) in Hj. apply Hinj in Hj. discriminate.
  - apply IH; [|exact Hall]. intros i j Hij. apply Hinj in Hij. now injection Hij.
Qed.

Lemma distinct_numbers_keys cells :
  distinct_numbers cells = true -> NoDup (map key_of (all_definitions cells)).
Proof.
  unfold distinct_numbers. rewrite forallb_forall. intros H.
  apply (found_keys_NoDup (fun i => i)); [auto|].
  apply Forall_forall. intros refs Hin%list_elem_of_In.
  apply H in Hin. now apply bool_decide_eq_true in Hin.
Qed.

Lemma map_key_at_seq (h : list Reference) :
  map (key_at h) (seq 0 (length h)) = map key_of h.
Proof.
  rewrite <- (map_lookup_total_seq h) at 3. rewrite map_map. reflexivity.
Qed.

(** Numbering changes no other field. *)
Lemma number_step_definition (h : list Reference) l a :
  definition (foldl (fun h '(n, ref) => alter (set_global_num n) ref h) h l !!! a)
  = definition (h !!! a).
Proof.
  revert h. induction l as [|[n a0] l IH]; intros h; [reflexivity|].
  simpl. rewrite IH. destruct (decide (a0 = a)) as [->|Hne].
  - destruct (decide (a < length h)) as [Hlt|Hge].
    + now rewrite list_lookup_total_alter_eq.
    + rewrite !list_lookup_total_alt, list_lookup_alter_eq.
      now rewrite (proj2 (lookup_ge_None h a)) by lia.
  - now rewrite list_lookup_total_alter_ne.
Qed.

Example repeated_number_cells_registry :
  let st := build_global_reference_map repeated_number_cells fresh in
  map definition (all_definitions repeated_number_cells) = [str "Foo."; str "Bar."; str "Foo."]
  /\ map key_of (all_definitions repeated_number_cells) = [(0, 1%Z); (0, 1%Z); (1, 1%Z)]
  /\ cell_local_refs st.2 !! (0, 1%Z) = Some 1
  /\ cell_local_refs st.2 !! (1, 1%Z) = Some 0
  /\ map definition st.1 = [str "Foo."; str "Bar."; str "Foo."].
Proof. repeat split; vm_compute; reflexivity. Qed.

(** C1, as stated, fails: in [repeated_number_cells] the definition "Foo."
    of cell 0 and the definition "Foo." of cell 1 have the same normalized
    text, and their keys resolve to two objects, "Bar." and "Foo.". *)
Lemma dedup_correct_counterexample : ~ dedup_correct repeated_number_cells.
Proof.
  unfold dedup_correct.
  destruct (build_global_reference_map repeated_number_cells fresh) as [h self] eqn:E.
  intros H.
  destruct (H (MkReference (str "ref1") 1 (str "Foo.") None 0)
              (MkReference (str "ref1") 1 (str "Foo.") None 1)) as (a & H1 & H2).
  - apply list_elem_of_In. vm_compute. auto.
  - apply list_elem_of_In. vm_compute. auto.
  - reflexivity.
  - assert (self = (build_global_reference_map repeated_number_cells fresh).2) as ->
      by now rewrite E.
    cbn [cell_index local_num] in H1, H2.
    assert (cell_local_refs (build_global_reference_map repeated_number_cells fresh).2
              !! (0, 1%Z) = Some 1) as E1 by (vm_compute; reflexivity).
    assert (cell_local_refs (build_global_reference_map repeated_number_cells fresh).2
              !! (1, 1%Z) = Some 0) as E2 by (vm_compute; reflexivity).
    congruence.
Qed.

(** C1, amended: in a document where no cell gives two of its definitions
    the same anchor or the same bracket number, any two definitions with
    the same normalized text resolve, through their keys
    (cell index, bracket number), to one object of the store; that object
    is listed in [global_order], has a global number, and has the same
    normalized text. *)
Theorem dedup_same_reference :
  forall (cells : list Cell) (i1 i2 : nat) (r1 r2 : Reference),
    let st := build_global_reference_map cells fresh in
    distinct_anchors cells = true ->
    distinct_numbers cells = true ->
    all_definitions cells !! i1 = Some r1 ->
    all_definitions cells !! i2 = Some r2 ->
    normalize_for_dedup (definition r1) = normalize_for_dedup (definition r2) ->
    exists a G,
      cell_local_refs st.2 !! (cell_index r1, local_num r1) = Some a
      /\ cell_local_refs st.2 !! (cell_index r2, local_num r2) = Some a
      /\ a ∈ global_order st.2
      /\ global_num (st.1 !!! a) = Some G
      /\ normalize_for_dedup (definition (st.1 !!! a)) = normalize_for_dedup (definition r1).
Proof.
  intros cells i1 i2 r1 r2 st Ha Hn H1 H2 Hnorm.
  pose proof (build_numbers_dense cells) as Hdense.
  subst st. unfold build_global_reference_map in *.
  rewrite scan_document in * by assumption.
  set (h := all_definitions cells) in *.
  set (self := foldl (register_at h) ReferenceManager_init (seq 0 (length h))) in *.
  cbn [fst snd].
  assert (NoDup (map (key_at h) (seq 0 (length h)))) as Hkeys
    by (rewrite map_key_at_seq; now apply distinct_numbers_keys).
  assert (forall i r, h !! i = Some r -> i ∈ seq 0 (length h) /\ h !!! i = r) as Hat.
  { intros i r Hi. split.
    - apply elem_of_seq. apply lookup_lt_Some in Hi. lia.
    - now apply list_lookup_total_correct. }
  destruct (Hat _ _ H1) as [Hin1 E1]. destruct (Hat _ _ H2) as [Hin2 E2].
  destruct (fold_local h _ ReferenceManager_init i1 Hkeys Hin1) as (c1 & Hl1 & Hu1).
  destruct (fold_local h _ ReferenceManager_init i2 Hkeys Hin2) as (c2 & Hl2 & Hu2).
  fold self in Hl1, Hu1, Hl2, Hu2.
  unfold key_at, norm_at in *. rewrite E1 in *. rewrite E2 in *.
  assert (c2 = c1) as -> by congruence.
  destruct (fold_canonical h (seq 0 (length h)) _ (canonical_init h) _ _ Hu1) as [Hc Hord].
  fold self in Hord.
  apply list_elem_of_lookup_1 in Hord as Hpos. destruct Hpos as [i Hi].
  exists c1, (Z.of_nat i + 1)%Z. repeat split; try assumption.
  - now apply (Hdense _ self i c1).
  - unfold assign_global_numbers. rewrite number_step_definition. exact Hc.
Qed.

Lemma dedup_same_reference_witness :
  let st := build_global_reference_map scenario_B fresh in
  exists a G,
    cell_local_refs st.2 !! (0, 1%Z) = Some a
    /\ cell_local_refs st.2 !! (1, 1%Z) = Some a
    /\ a ∈ global_order st.2
    /\ global_num (st.1 !!! a) = Some G
    /\ normalize_for_dedup (definition (st.1 !!! a))
       = normalize_for_dedup (str "Foo. (see also appendix).").
Proof.
  apply (dedup_same_reference scenario_B 0 1
           (MkReference (str "ref1") 1 (str "Foo. (see also appendix).") None 0)
           (MkReference (str "ref1") 1 (str "Foo.") None 1));
    vm_compute; reflexivity.
Defined.

Example scenario_B_one_reference :
  let st := build_global_reference_map scenario_B fresh in
  normalize_for_dedup (str "Foo. (see also appendix).") = str "Foo."
  /\ normalize_for_dedup (str "Foo.") = str "Foo."
  /\ global_order st.2 = [0]
  /\ cell_local_refs st.2 !! (0, 1%Z) = Some 0
  /\ cell_local_refs st.2 !! (1, 1%Z) = Some 0
  /\ st.1 !!! 0 = MkReference (str "ref1") 1 (str "Foo. (see also appendix).") (Some 1%Z) 0.
Proof. repeat split; vm_compute; reflexivity. Qed.

(** * Further properties of the module *)

(** ** The shape of a normalized text *)

(** X1: a normalized text is a sequence of words separated by single
    spaces (no white space at either end, no other white-space character,
    no two in a row), and it has no two periods side by side. *)
Theorem normalize_for_dedup_canonical_form :
  forall t : list ascii,
    exists ws : list (list ascii),
      Forall (fun w => is_word w = true) ws
      /\ normalize_for_dedup t = join (str " ") ws
      /\ adjacent_dots (normalize_for_dedup t) = false.
Proof.
  intros t. destruct (normalize_for_dedup_shape t) as (x & Hx & E).
  exists (split_ws x). split; [apply split_ws_words|]. split; [exact E|].
  rewrite E. now apply adjacent_dots_squeeze.
Qed.

(** X2: normalization never lengthens a text. *)
Theorem normalize_for_dedup_never_longer :
  forall t : list ascii, length (normalize_for_dedup t) <= length t.
Proof.
  intros t. unfold normalize_for_dedup, sub_const, sub. cbv zeta.
  set (t1 := sub_from PAGE_BREAK_RE (fun _ => []) 0 true 0 t).
  set (t2 := sub_from TRAILING_NOTE_RE (fun _ => str ".") 0 true 0 t1).
  set (t3 := sub_from DOTS_RE (fun _ => str ".") 0 true 0 t2).
  pose proof (strip_length (join (str " ") (split_ws t3))) as H5.
  pose proof (squeeze_length t3) as H4. unfold squeeze in H4.
  destruct (sub_const_length DOTS_RE (str ".") true 0 t2) as [H3 _];
    [exact dots_min_len|reflexivity|]. fold t3 in H3.
  destruct (sub_const_length TRAILING_NOTE_RE (str ".") true 0 t1) as [H2 _];
    [rewrite trailing_note_min_len; lia|rewrite trailing_note_min_len; simpl; lia|].
  fold t2 in H2.
  destruct (sub_const_length PAGE_BREAK_RE [] true 0 t) as [H1 _];
    [rewrite page_break_min_len; lia|rewrite page_break_min_len; simpl; lia|].
  fold t1 in H1. lia.
Qed.

(** ** Scans of a pattern without [^] *)

Lemma same_text_refl st : same_text st st.
Proof. repeat split. Qed.

Lemma same_text_eat st1 st2 c : same_text st1 st2 -> same_text (eat st1 c) (eat st2 c).
Proof. intros (H1 & H2 & H3). unfold same_text. simpl. now rewrite H1, H2, H3. Qed.

Lemma same_text_open st1 st2 : same_text st1 st2 -> same_text (open_group st1) (open_group st2).
Proof. intros (H1 & H2 & H3). unfold same_text. simpl. now rewrite H1, H3. Qed.

Lemma same_text_close st1 st2 :
  same_text st1 st2 -> same_text (close_group st1) (close_group st2).
Proof. intros (H1 & H2 & H3). unfold same_text. simpl. now rewrite H1, H2, H3. Qed.

Lemma same_result_Some_l r1 r2 st rest :
  same_result r1 r2 -> r1 = Some (st, rest) ->
  exists st', r2 = Some (st', rest) /\ same_text st st'.
Proof.
  intros H ->. destruct r2 as [[st' rest']|]; [|contradiction].
  destruct H as [H ->]. eauto.
Qed.

Lemma same_result_None_l r1 r2 : same_result r1 r2 -> r1 = None -> r2 = None.
Proof. intros H ->. now destruct r2 as [[? ?]|]. Qed.

Lemma star_same_text a (k1 k2 : mstate -> list ascii -> option (mstate * list ascii)) :
  (forall st1 st2 s, same_text st1 st2 -> same_result (k1 st1 s) (k2 st2 s)) ->
  forall s st1 st2, same_text st1 st2 -> same_result (star a k1 st1 s) (star a k2 st2 s).
Proof.
  intros Hk. induction s as [|c s IH]; intros st1 st2 Hst; simpl; [now apply Hk|].
  destruct (accepts a c); [|now apply Hk].
  specialize (IH _ _ (same_text_eat _ _ c Hst)).
  destruct (star a k1 (eat st1 c) s) as [[? ?]|], (star a k2 (eat st2 c) s) as [[? ?]|];
    try contradiction; [exact IH|now apply Hk].
Qed.

Lemma match_here_same_text p :
  bol_free p = true ->
  forall s st1 st2, same_text st1 st2 -> same_result (match_here p st1 s) (match_here p st2 s).
Proof.
  induction p as [|i p IH]; intros Hp s st1 st2 Hst.
  - simpl. auto.
  - simpl in Hp. apply andb_true_iff in Hp as [Hi Hp]. specialize (IH Hp).
    destruct i; try discriminate; simpl.
    + destruct s as [|c s]; [exact I|]. destruct (accepts a c); [|exact I].
      apply IH. now apply same_text_eat.
    + apply star_same_text; [|assumption]. intros. now apply IH.
    + destruct s as [|c s]; [exact I|]. destruct (accepts a c); [|exact I].
      apply star_same_text; [|now apply same_text_eat]. intros. now apply IH.
    + destruct s as [|c s]; [now apply IH|]. destruct (accepts a c); [|now apply IH].
      pose proof (IH s _ _ (same_text_eat _ _ c Hst)) as H1.
      destruct (match_here p (eat st1 c) s) as [[? ?]|],
               (match_here p (eat st2 c) s) as [[? ?]|]; try contradiction;
        [exact H1|now apply IH].
    + destruct s as [|c [|c' s]]; [now apply IH| |exact I].
      destruct (is_newline c); [now apply IH|exact I].
    + apply IH. now apply same_text_open.
    + apply IH. now apply same_text_close.
Qed.

(** Replacing by a constant text: where the scan starts does not
    matter. *)
Lemma sub_const_from p r :
  bol_free p = true ->
  forall s skip bol pos bol' pos',
    sub_from p (fun _ => r) skip bol pos s = sub_from p (fun _ => r) skip bol' pos' s.
Proof.
  intros Hp. induction s as [|c s IH]; intros skip bol pos bol' pos'; [reflexivity|].
  simpl. destruct skip as [|k]; [|apply IH].
  pose proof (match_here_same_text p Hp (c :: s) (start_state bol) (start_state bol')
                (same_text_refl _)) as H.
  destruct (match_here p (start_state bol) (c :: s)) as [[st1 r1]|],
           (match_here p (start_state bol') (c :: s)) as [[st2 r2]|]; try contradiction.
  - destruct H as [(Hm & _) _]. rewrite Hm. f_equal. apply IH.
  - f_equal. apply IH.
Qed.

Lemma sub_from_free_prefix p repl c0 bol pos pre s :
  first_chr p = Some c0 -> free_of c0 pre = true ->
  sub_from p repl 0 bol pos (pre ++ s)
  = pre ++ sub_from p repl 0 (bol_after bol pre) (pos + length pre) s.
Proof.
  intros Hp. revert bol pos. induction pre as [|c pre IH]; intros bol pos Hpre.
  - simpl. now rewrite Nat.add_0_r.
  - apply free_of_cons in Hpre as [Hc Hpre]. rewrite <- !app_comm_cons.
    rewrite sub_from_miss by (now apply first_chr_fail with c0).
    rewrite IH by assumption. simpl. now rewrite Nat.add_succ_r.
Qed.

Lemma free_of_app c u v : free_of c (u ++ v) = free_of c u && free_of c v.
Proof. apply forallb_app. Qed.

Lemma space_free_of c w : is_space c = false -> forallb is_space w = true -> free_of c w = true.
Proof.
  intros Hc. induction w as [|x w IH]; [reflexivity|]. simpl.
  intros [Hx Hw]%andb_true_iff. rewrite (IH Hw), andb_true_r.
  destruct (Ascii.eqb_spec x c) as [->|]; [congruence|reflexivity].
Qed.

Lemma take_while_all_true q (w : list ascii) : forallb q w = true -> take_while q w = w.
Proof.
  induction w as [|c w IH]; [reflexivity|]. simpl.
  intros [Hc Hw]%andb_true_iff. now rewrite Hc, IH.
Qed.

Lemma drop_while_all_true q (w : list ascii) : forallb q w = true -> drop_while q w = [].
Proof.
  induction w as [|c w IH]; [reflexivity|]. simpl.
  intros [Hc Hw]%andb_true_iff. now rewrite Hc, IH.
Qed.

Lemma take_while_app_stop q (w s : list ascii) :
  forallb q w = true -> match s with c :: _ => q c = false | [] => True end ->
  take_while q (w ++ s) = w.
Proof.
  intros Hw Hs. rewrite take_while_app by assumption.
  destruct s as [|c s]; simpl; [|rewrite Hs]; apply app_nil_r.
Qed.

Lemma drop_while_app_stop q (w s : list ascii) :
  forallb q w = true -> match s with c :: _ => q c = false | [] => True end ->
  drop_while q (w ++ s) = s.
Proof.
  intros Hw Hs. rewrite drop_while_app by assumption.
  destruct s as [|c s]; simpl; [|rewrite Hs]; reflexivity.
Qed.

(** ** Page-break markers and normalization *)

Lemma eats_app st u v : eats st (u ++ v) = eats (eats st u) v.
Proof. apply fold_left_app. Qed.

Lemma page_break_marker_match st ws1 ws2 rest :
  forallb is_space ws1 = true -> forallb is_space ws2 = true ->
  match_here PAGE_BREAK_RE st (page_break_marker ws1 ws2 ++ rest)
  = Some (eats st (page_break_marker ws1 ws2), rest).
Proof.
  intros H1 H2. unfold PAGE_BREAK_RE, page_break_marker, lit.
  rewrite <- !app_assoc. rewrite match_here_chars. cbn [app].
  erewrite match_here_star_det by (vm_compute; reflexivity).
  rewrite take_while_app_stop, drop_while_app_stop by (assumption || (vm_compute; reflexivity)).
  rewrite match_here_chars. cbn [app].
  erewrite match_here_star_det by (vm_compute; reflexivity).
  rewrite take_while_app_stop, drop_while_app_stop by (assumption || (vm_compute; reflexivity)).
  rewrite <- (app_nil_r (map _ (str "-->"))), match_here_chars.
  simpl match_here. now rewrite !eats_app.
Qed.

Lemma page_break_first_chr : first_chr PAGE_BREAK_RE = Some "<"%char.
Proof. reflexivity. Qed.

Lemma page_break_bol_free : bol_free PAGE_BREAK_RE = true.
Proof. reflexivity. Qed.

Lemma page_break_marker_length ws1 ws2 : page_break_marker ws1 ws2 <> [].
Proof. discriminate. Qed.

Lemma sub_page_break_marker a ws1 ws2 b :
  free_of "<" a = true ->
  forallb is_space ws1 = true -> forallb is_space ws2 = true ->
  sub_const PAGE_BREAK_RE [] (a ++ page_break_marker ws1 ws2 ++ b)
  = sub_const PAGE_BREAK_RE [] (a ++ b).
Proof.
  intros Ha H1 H2. unfold sub_const, sub.
  rewrite !(sub_from_free_prefix _ _ _ _ _ _ _ page_break_first_chr Ha). f_equal.
  erewrite sub_from_hit;
    [|rewrite page_break_min_len; lia|now apply page_break_marker_match].
  simpl app. now apply sub_const_from.
Qed.

(** X3: a page-break marker, written with any white space around its
    word, does not count for deduplication: a text with the marker and the
    text without it have the same normalized text, when no ['<'] stands
    before the marker. *)
Theorem normalize_for_dedup_ignores_page_break :
  forall a ws1 ws2 b : list ascii,
    free_of "<" a = true ->
    forallb is_space ws1 = true -> forallb is_space ws2 = true ->
    normalize_for_dedup (a ++ page_break_marker ws1 ws2 ++ b) = normalize_for_dedup (a ++ b).
Proof.
  intros a ws1 ws2 b Ha H1 H2. unfold normalize_for_dedup.
  now rewrite sub_page_break_marker.
Qed.

Lemma normalize_for_dedup_ignores_page_break_witness :
  normalize_for_dedup (str "Foo. " ++ page_break_marker (str " ") (str " ") ++ str " Bar.")
  = normalize_for_dedup (str "Foo. " ++ str " Bar.").
Proof.
  apply (normalize_for_dedup_ignores_page_break (str "Foo. ") (str " ") (str " ") (str " Bar."));
    reflexivity.
Defined.

(** ** Trailing notes and normalization *)

Lemma trailing_note_needs_paren st s :
  match drop_while is_space s with [] => True | d :: _ => d <> "("%char end ->
  match_here TRAILING_NOTE_RE st s = None.
Proof.
  intros H. unfold TRAILING_NOTE_RE.
  erewrite match_here_star_det by (vm_compute; reflexivity).
  change (accepts Space) with is_space.
  destruct (drop_while is_space s) as [|d y]; [reflexivity|].
  simpl. now apply Ascii.eqb_neq in H as ->.
Qed.

Lemma trailing_note_miss st s : free_of "(" s = true -> match_here TRAILING_NOTE_RE st s = None.
Proof.
  intros H. apply trailing_note_needs_paren.
  apply (free_of_drop_while _ is_space) in H.
  destruct (drop_while is_space s); [exact I|]. now apply free_of_cons in H as [H _].
Qed.

Lemma trailing_note_miss_before st u e rest :
  free_of "(" (u ++ [e]) = true -> is_space e = false ->
  match_here TRAILING_NOTE_RE st (u ++ e :: rest) = None.
Proof.
  intros Hu He. apply trailing_note_needs_paren.
  induction u as [|c u IH]; simpl in *.
  - rewrite He. apply andb_true_iff in Hu as [Hu _].
    intros ->. discriminate.
  - apply andb_true_iff in Hu as [Hc Hu]. destruct (is_space c); [now apply IH|].
    intros ->. discriminate.
Qed.

Lemma search_trailing_note_free s : free_of "(" s = true -> search TRAILING_NOTE_RE s = None.
Proof.
  intros H. apply search_from_None_iff. intros pre rest ->.
  apply trailing_note_miss. rewrite free_of_app in H. now apply andb_true_iff in H as [_ H].
Qed.

Lemma trailing_note_bol_free : bol_free TRAILING_NOTE_RE = true.
Proof. reflexivity. Qed.

Lemma sub_from_trailing_note_before r x e rest bol pos :
  free_of "(" (x ++ [e]) = true -> is_space e = false ->
  sub_from TRAILING_NOTE_RE (fun _ => r) 0 bol pos (x ++ e :: rest)
  = x ++ e :: sub_from TRAILING_NOTE_RE (fun _ => r) 0 true 0 rest.
Proof.
  revert bol pos. induction x as [|c x IH]; intros bol pos Hx He.
  - simpl app. rewrite sub_from_miss by (now apply (trailing_note_miss_before _ [])).
    f_equal. now apply sub_const_from.
  - rewrite <- !app_comm_cons.
    rewrite sub_from_miss by (now apply (trailing_note_miss_before _ (c :: x))).
    f_equal. apply IH; [|assumption].
    simpl in Hx. now apply andb_true_iff in Hx as [_ Hx].
Qed.

Lemma sub_trailing_note_before r x e rest :
  free_of "(" (x ++ [e]) = true -> is_space e = false ->
  sub_const TRAILING_NOTE_RE r (x ++ e :: rest) = x ++ e :: sub_const TRAILING_NOTE_RE r rest.
Proof. apply sub_from_trailing_note_before. Qed.

Lemma trailing_note_match st ws note tail :
  forallb is_space ws = true -> note <> [] -> free_of ")" note = true ->
  is_note_tail tail = true ->
  exists st', match_here TRAILING_NOTE_RE st (trailing_note ws note tail) = Some (st', []).
Proof.
  intros Hws Hne Hnote Htail. unfold TRAILING_NOTE_RE, trailing_note.
  erewrite match_here_star_det by (vm_compute; reflexivity).
  change (accepts Space) with is_space.
  rewrite take_while_app_stop, drop_while_app_stop by (assumption || (vm_compute; reflexivity)).
  cbn [str list_ascii_of_string app]. rewrite match_here_one_chr.
  erewrite match_here_plus_det by (vm_compute; reflexivity).
  rewrite take_while_app_stop, drop_while_app_stop
    by (exact Hnote || (vm_compute; reflexivity)).
  destruct note as [|n note]; [contradiction|].
  rewrite match_here_one_chr, match_here_star.
  set (st1 := eat _ ")"). clearbody st1.
  unfold is_note_tail in Htail.
  destruct (drop_while is_space tail) as [|c r] eqn:E.
  - exists (eats st1 (take_while is_space tail)).
    apply star_take_all. change (accepts Space) with is_space. rewrite E. reflexivity.
  - apply andb_true_iff in Htail as [Hc Hr]. apply is_dot_eq in Hc as ->.
    eexists. apply star_take_all. change (accepts Space) with is_space. rewrite E.
    cbn [match_here accepts]. rewrite Ascii.eqb_refl.
    rewrite (star_take_all Space (match_here [Eos]) _ r
               (eats (eat (eats st1 (take_while is_space tail)) ".") r, []));
      [reflexivity|].
    change (accepts Space) with is_space.
    rewrite (take_while_all_true _ r), (drop_while_all_true _ r) by assumption. reflexivity.
Qed.

Lemma rstrip_split t : exists tw, t = rstrip t ++ tw /\ forallb is_space tw = true.
Proof.
  exists (rev (take_while is_space (rev t))). split.
  - unfold rstrip. rewrite <- rev_app_distr, take_drop_while. now rewrite rev_involutive.
  - rewrite forallb_rev. apply take_while_all.
Qed.

Lemma rstrip_last t :
  rstrip t = [] \/ exists x e, rstrip t = x ++ [e] /\ is_space e = false.
Proof.
  unfold rstrip. destruct (drop_while is_space (rev t)) as [|e y] eqn:E; [now left|].
  right. exists (rev y), e. split; [reflexivity|]. now apply drop_while_head in E.
Qed.

Lemma free_of_rstrip c t : free_of c t = true -> free_of c (rstrip t) = true.
Proof.
  intros H. destruct (rstrip_split t) as (tw & E & _). rewrite E, free_of_app in H.
  now apply andb_true_iff in H as [H _].
Qed.

Lemma note_tail_free c tail :
  is_space c = false -> is_dot c = false -> is_note_tail tail = true -> free_of c tail = true.
Proof.
  intros Hs Hd H. rewrite <- (take_drop_while is_space tail), free_of_app.
  rewrite (space_free_of c _ Hs (take_while_all _ _)). simpl.
  unfold is_note_tail in H. destruct (drop_while is_space tail) as [|d r]; [reflexivity|].
  apply andb_true_iff in H as [H1 H2]. simpl. rewrite (space_free_of c r Hs H2), andb_true_r.
  destruct (Ascii.eqb_spec d c) as [->|]; [congruence|reflexivity].
Qed.

(** The second rule of the normalization on a text that ends with a
    note. *)
Lemma sub_trailing_note t ws note tail :
  free_of "(" t = true -> forallb is_space ws = true ->
  note <> [] -> free_of ")" note = true -> is_note_tail tail = true ->
  sub_const TRAILING_NOTE_RE (str ".") (t ++ trailing_note ws note tail) = rstrip t ++ str ".".
Proof.
  intros Ht Hws Hne Hnote Htail.
  destruct (rstrip_split t) as (tw & Et & Htw).
  assert (trailing_note (tw ++ ws) note tail = tw ++ trailing_note ws note tail) as Etn
    by (unfold trailing_note; now rewrite <- app_assoc).
  assert (sub_const TRAILING_NOTE_RE (str ".") (trailing_note (tw ++ ws) note tail) = str ".")
    as Hhit.
  { destruct (trailing_note_match (start_state true) (tw ++ ws) note tail) as (st' & Hm);
      try assumption.
    { rewrite forallb_app. now rewrite Htw, Hws. }
    unfold sub_const, sub. erewrite sub_from_hit; [|rewrite trailing_note_min_len; lia|exact Hm].
    reflexivity. }
  rewrite Et at 1. rewrite <- app_assoc, <- Etn.
  destruct (rstrip_last t) as [E|(x & e & E & He)].
  - rewrite E. simpl. exact Hhit.
  - rewrite E, <- app_assoc. cbn [app].
    rewrite sub_trailing_note_before; [|rewrite <- E; now apply free_of_rstrip|assumption].
    rewrite Hhit, <- app_assoc. reflexivity.
Qed.

Lemma search_page_break_free s : free_of "<" s = true -> search PAGE_BREAK_RE s = None.
Proof. intros H. now apply (search_from_free _ "<"%char). Qed.

Lemma sub_page_break_free s : free_of "<" s = true -> sub_const PAGE_BREAK_RE [] s = s.
Proof. intros Hs. apply sub_no_match. now apply search_page_break_free. Qed.

Lemma trailing_note_free_of c ws note tail :
  is_space c = false -> is_dot c = false -> free_of c (str "()") = true ->
  forallb is_space ws = true -> free_of c note = true -> is_note_tail tail = true ->
  free_of c (trailing_note ws note tail) = true.
Proof.
  intros Hs Hd Hp Hws Hnote Htail. unfold trailing_note.
  change (str "()") with (str "(" ++ str ")") in Hp. rewrite free_of_app in Hp.
  apply andb_true_iff in Hp as [Hp1 Hp2].
  now rewrite !free_of_app, (space_free_of c ws), Hp1, Hnote, Hp2, (note_tail_free c tail).
Qed.

(** X4: a note in parentheses at the end of a text, with the white space
    before it and an optional final period, is replaced by one period: the
    text with the note has the normalized text of the text without it,
    stripped on the right, followed by a period. *)
Theorem normalize_for_dedup_drops_trailing_note :
  forall t ws note tail : list ascii,
    free_of "(" t = true -> free_of "<" t = true ->
    forallb is_space ws = true ->
    note <> [] -> free_of ")" note = true -> free_of "<" note = true ->
    is_note_tail tail = true ->
    normalize_for_dedup (t ++ trailing_note ws note tail)
    = normalize_for_dedup (rstrip t ++ str ".").
Proof.
  intros t ws note tail Ht Ht' Hws Hne Hnote Hnote' Htail. unfold normalize_for_dedup.
  rewrite !sub_page_break_free.
  - rewrite sub_trailing_note by assumption.
    assert (sub_const TRAILING_NOTE_RE (str ".") (rstrip t ++ str ".") = rstrip t ++ str ".")
      as ->; [|reflexivity].
    apply sub_no_match, search_trailing_note_free.
    rewrite free_of_app, (free_of_rstrip _ _ Ht). reflexivity.
  - rewrite free_of_app, (free_of_rstrip _ _ Ht'). reflexivity.
  - rewrite free_of_app, Ht'. now apply trailing_note_free_of.
Qed.

Lemma normalize_for_dedup_drops_trailing_note_witness :
  normalize_for_dedup (str "Foo, 2020 " ++ trailing_note (str " ") (str "in press") (str " . "))
  = normalize_for_dedup (rstrip (str "Foo, 2020 ") ++ str ".").
Proof.
  apply (normalize_for_dedup_drops_trailing_note
           (str "Foo, 2020 ") (str " ") (str "in press") (str " . "));
    solve [reflexivity | discriminate].
Defined.

Lemma drop_while_app_found q (r x : list ascii) :
  drop_while q r <> [] -> drop_while q (r ++ x) = drop_while q r ++ x.
Proof.
  induction r as [|c r IH]; [contradiction|]. simpl.
  destruct (q c); [exact IH|reflexivity].
Qed.

Lemma drop_while_nil_all q (r : list ascii) : drop_while q r = [] -> forallb q r = true.
Proof.
  induction r as [|c r IH]; [reflexivity|]. simpl.
  destruct (q c); [exact IH|discriminate].
Qed.

Lemma dots_bol_free : bol_free DOTS_RE = true.
Proof. reflexivity. Qed.

Lemma sub_dots_hit s :
  sub_const DOTS_RE (str ".") ("."%char :: s)
  = "."%char :: sub_const DOTS_RE (str ".") (drop_while is_dot s).
Proof.
  unfold sub_const, sub.
  rewrite (sub_from_hit DOTS_RE dots_min_len _ _ _ _ _ _ (dots_hit _ s)).
  simpl app. f_equal. now apply sub_const_from.
Qed.

Lemma sub_dots_miss c s :
  is_dot c = false ->
  sub_const DOTS_RE (str ".") (c :: s) = c :: sub_const DOTS_RE (str ".") s.
Proof.
  intros Hc. unfold sub_const, sub. rewrite sub_from_miss by (now apply dots_miss).
  f_equal. now apply sub_const_from.
Qed.

(** One more period at the end of a text that ends with a period makes no
    difference after the third rule. *)
Lemma sub_dots_double r :
  sub_const DOTS_RE (str ".") (r ++ str "..") = sub_const DOTS_RE (str ".") (r ++ str ".").
Proof.
  remember (length r) as n eqn:Hn. revert r Hn.
  induction n as [n IH] using lt_wf_ind. intros r ->.
  destruct r as [|c r]; [reflexivity|]. rewrite <- !app_comm_cons.
  destruct (is_dot c) eqn:Ec.
  - apply is_dot_eq in Ec as ->. rewrite !sub_dots_hit. f_equal.
    destruct (drop_while is_dot r) as [|d y] eqn:E.
    + apply drop_while_nil_all in E. now rewrite !drop_while_app by assumption.
    + rewrite !drop_while_app_found by (rewrite E; discriminate). rewrite E.
      apply (IH (length (d :: y))); [|reflexivity].
      pose proof (drop_while_length is_dot r) as Hl. rewrite E in Hl. simpl in *. lia.
  - rewrite !sub_dots_miss by assumption. f_equal.
    apply (IH (length r)); [simpl; lia|reflexivity].
Qed.

(** X5: the purpose of the second rule: a text that ends with a period and
    the same text followed by a note in parentheses have the same
    normalized text, so that the two are one reference. *)
Theorem normalize_for_dedup_note_after_period :
  forall r ws note tail : list ascii,
    free_of "(" r = true -> free_of "<" r = true ->
    forallb is_space ws = true ->
    note <> [] -> free_of ")" note = true -> free_of "<" note = true ->
    is_note_tail tail = true ->
    normalize_for_dedup ((r ++ str ".") ++ trailing_note ws note tail)
    = normalize_for_dedup (r ++ str ".").
Proof.
  intros r ws note tail Hr Hr' Hws Hne Hnote Hnote' Htail.
  assert (free_of "(" (r ++ str ".") = true) as Hp by (rewrite free_of_app, Hr; reflexivity).
  assert (free_of "<" (r ++ str ".") = true) as Hl by (rewrite free_of_app, Hr'; reflexivity).
  assert (free_of "<" (r ++ str "..") = true) as Hl2
    by (rewrite free_of_app, Hr'; reflexivity).
  unfold normalize_for_dedup.
  rewrite (sub_page_break_free ((r ++ str ".") ++ trailing_note ws note tail))
    by (rewrite free_of_app, Hl; now apply trailing_note_free_of).
  rewrite sub_trailing_note by assumption.
  assert (rstrip (r ++ str ".") = r ++ str ".") as ->
    by (apply (rstrip_end r "."%char); reflexivity).
  rewrite <- app_assoc. change (str "." ++ str ".") with (str "..").
  rewrite sub_dots_double, (sub_page_break_free (r ++ str ".")) by assumption.
  assert (sub_const TRAILING_NOTE_RE (str ".") (r ++ str ".") = r ++ str ".") as ->;
    [|reflexivity].
  now apply sub_no_match, search_trailing_note_free.
Qed.

Lemma normalize_for_dedup_note_after_period_witness :
  normalize_for_dedup
    ((str "Foo" ++ str ".") ++ trailing_note (str " ") (str "see also appendix") (str "."))
  = normalize_for_dedup (str "Foo" ++ str ".").
Proof.
  apply (normalize_for_dedup_note_after_period
           (str "Foo") (str " ") (str "see also appendix") (str "."));
    solve [reflexivity | discriminate].
Defined.

(** ** What the first pass keeps true of the registry *)

Lemma registry_sound_extend cells h h' self :
  registry_sound cells (h, self) -> registry_sound cells (h ++ h', self).
Proof.
  intros (Hok & Hnd & Hcan & Hloc). pose proof Hok as [_ Hall]. simpl in *.
  assert (forall a, a ∈ global_order self -> norm_at (h ++ h') a = norm_at h a) as Hn.
  { intros a Ha. apply norm_at_app. now apply Hall. }
  split; [now apply registry_ok_extend|]. simpl. repeat split.
  - erewrite map_ext_in; [exact Hnd|]. intros a Ha%list_elem_of_In. now apply Hn.
  - destruct (Hcan k c H) as [E Hc]. now rewrite Hn.
  - now destruct (Hcan k c H).
  - now destruct (Hloc i n a H).
  - destruct (Hloc i n a H) as (Ha & cell & r & H1 & H2 & H3 & H4).
    exists cell, r. rewrite Hn by assumption. auto.
Qed.

Lemma registry_sound_register cells i h self a cell r :
  registry_sound cells (h, self) ->
  h !! a = Some r -> cells !! i = Some cell -> r ∈ found_in_cell i cell ->
  registry_sound cells (h, register_definition i h self a).
Proof.
  intros (Hok & Hnd & Hcan & Hloc) Ha Hcell Hr.
  assert (h !!! a = r) as Er by (now apply list_lookup_total_correct).
  split; [apply register_definition_ok; [exact Hok|now apply lookup_lt_Some in Ha]|].
  destruct Hok as [_ Hall]. simpl in *.
  unfold register_definition. fold (norm_at h a). rewrite Er.
  destruct (unique_references self !! norm_at h a) as [existing|] eqn:E; simpl.
  - split; [exact Hnd|]. split; [exact Hcan|]. intros i' n' a'.
    destruct (decide ((i, local_num r) = (i', n'))) as [[= <- <-]|Hne].
    + rewrite lookup_insert_eq. intros [= <-].
      destruct (Hcan _ _ E) as [E' Hex]. split; [exact Hex|].
      exists cell, r. rewrite E'. unfold norm_at. rewrite Er. auto.
    + rewrite lookup_insert_ne by assumption. apply Hloc.
  - split; [|split].
    + rewrite map_app. apply NoDup_app. split; [exact Hnd|]. split; [|apply NoDup_singleton].
      intros k Hk Hk'. simpl in Hk'. apply list_elem_of_singleton in Hk'. subst k.
      apply list_elem_of_In, in_map_iff in Hk as (b & Eb & Hb%list_elem_of_In).
      destruct (Hall b Hb) as [_ [x Hx]]. congruence.
    + unfold canonical. simpl. intros k c.
      destruct (decide (norm_at h a = k)) as [<-|Hne].
      * rewrite lookup_insert_eq. intros [= <-]. split; [reflexivity|].
        apply elem_of_app. right. now left.
      * rewrite lookup_insert_ne by assumption. intros Hk.
        destruct (Hcan _ _ Hk) as [E' Hc]. split; [exact E'|]. apply elem_of_app. now left.
    + intros i' n' a'.
      destruct (decide ((i, local_num r) = (i', n'))) as [[= <- <-]|Hne].
      * rewrite lookup_insert_eq. intros [= <-]. split; [apply elem_of_app; right; now left|].
        exists cell, r. unfold norm_at. rewrite Er. auto.
      * rewrite lookup_insert_ne by assumption. intros Hk.
        destruct (Hloc _ _ _ Hk) as (Ha' & Hex). split; [|exact Hex].
        apply elem_of_app. now left.
Qed.

(** The entries of [defined_refs] are addresses of the objects made for
    the matches of the cell. *)
Lemma extract_definitions_entries_gen cell_index t (P : Reference -> Prop) ms d h :
  (forall e, e ∈ d -> exists r, h !! e.2 = Some r /\ P r) ->
  (forall m, m ∈ ms -> P (reference_of_match cell_index t m)) ->
  forall e, e ∈ (foldl (definitions_step cell_index t) (d, h) ms).1 ->
            exists r, (foldl (definitions_step cell_index t) (d, h) ms).2 !! e.2 = Some r /\ P r.
Proof.
  revert d h. induction ms as [|m ms IH]; intros d h Hd Hms; [exact Hd|].
  cbn [foldl]. unfold definitions_step at 2 4. cbn [fst snd]. apply IH.
  - intros e [->|He]%dict_set_values.
    + exists (reference_of_match cell_index t m). split; [|apply Hms; now left].
      rewrite lookup_app_r by reflexivity. now rewrite Nat.sub_diag.
    + destruct (Hd e He) as (r & Hr & HP). exists r. split; [|exact HP].
      now apply lookup_app_l_Some.
  - intros m' Hm'. apply Hms. now right.
Qed.

Lemma extract_definitions_entries cell_index t h e :
  e ∈ (extract_definitions cell_index t h).1 ->
  exists r, (extract_definitions cell_index t h).2 !! e.2 = Some r
            /\ r ∈ map (reference_of_match cell_index t) (finditer DEFINITION_START_PATTERN t).
Proof.
  rewrite extract_definitions_fold.
  apply (extract_definitions_entries_gen cell_index t
           (fun r => r ∈ map (reference_of_match cell_index t)
                             (finditer DEFINITION_START_PATTERN t))).
  - intros e' He'. inversion He'.
  - intros m Hm. apply list_elem_of_In, in_map. now apply list_elem_of_In.
Qed.

Lemma registry_sound_register_all cells i cell h self (d : list (list ascii * nat)) :
  cells !! i = Some cell ->
  (forall e, e ∈ d -> exists r, h !! e.2 = Some r /\ r ∈ found_in_cell i cell) ->
  registry_sound cells (h, self) ->
  registry_sound cells
    (h, foldl (fun self '(ref_id, ref) => register_definition i h self ref) self d).
Proof.
  intros Hcell. revert self. induction d as [|[k a] d IH]; intros self Hd Hs; [exact Hs|].
  simpl. apply IH; [intros e He; apply Hd; now right|].
  destruct (Hd (k, a)) as (r & Hr & Hin); [now left|].
  now apply (registry_sound_register cells i h self a cell r).
Qed.

Lemma registry_sound_scan_cell cells st i cell :
  cells !! i = Some cell -> registry_sound cells st ->
  registry_sound cells (scan_cell st (i, cell)).
Proof.
  destruct st as [h self]. intros Hcell Hs. rewrite scan_cell_unfold.
  destruct (is_markdown cell) eqn:Emd; [|exact Hs].
  destruct (extract_definitions_spec i (source_text cell) h) as [Eh _].
  apply (registry_sound_register_all cells i cell); [exact Hcell| |].
  - intros e He. apply extract_definitions_entries in He as (r & Hr & Hin).
    exists r. split; [exact Hr|]. unfold found_in_cell. now rewrite Emd.
  - rewrite Eh. now apply registry_sound_extend.
Qed.

Lemma registry_sound_scan_cells cells st (l : list (nat * Cell)) :
  (forall ic, ic ∈ l -> cells !! ic.1 = Some ic.2) ->
  registry_sound cells st -> registry_sound cells (foldl scan_cell st l).
Proof.
  revert st. induction l as [|[i cell] l IH]; intros st Hl Hs; [exact Hs|].
  simpl. apply IH; [intros ic Hic; apply Hl; now right|].
  apply registry_sound_scan_cell; [|exact Hs]. apply (Hl (i, cell)). now left.
Qed.

Lemma registry_sound_fresh cells : registry_sound cells fresh.
Proof.
  split; [exact fresh_ok|]. split; [constructor|]. split; [apply canonical_init|].
  intros i n a H. simpl in H. rewrite lookup_empty in H. discriminate.
Qed.

Lemma enumerated_cells (cells : list Cell) (ic : nat * Cell) :
  ic ∈ imap (fun i c => (i, c)) cells -> cells !! ic.1 = Some ic.2.
Proof. intros (i & c & -> & H)%elem_of_lookup_imap. exact H. Qed.

Lemma assign_global_numbers_length h order :
  length (assign_global_numbers h order) = length h.
Proof.
  unfold assign_global_numbers. generalize (enumerate_from 1 order) as l. intros l.
  revert h. induction l as [|[n a] l IH]; intros h; [reflexivity|].
  simpl. rewrite IH. apply length_alter.
Qed.

Lemma assign_global_numbers_norm h order a :
  norm_at (assign_global_numbers h order) a = norm_at h a.
Proof. unfold norm_at, assign_global_numbers. now rewrite number_step_definition. Qed.

(** The registry after [build_global_reference_map] is sound. *)
Lemma build_sound cells : registry_sound cells (build_global_reference_map cells fresh).
Proof.
  unfold build_global_reference_map.
  pose proof (registry_sound_scan_cells cells fresh _ (enumerated_cells cells)
                (registry_sound_fresh cells)) as Hs.
  destruct (foldl scan_cell fresh (imap (fun i c => (i, c)) cells)) as [h self].
  destruct Hs as ([Hnd0 Hall] & Hnd & Hcan & Hloc). simpl in *.
  split; [split; [exact Hnd0|]|]; simpl.
  - intros a Ha. rewrite assign_global_numbers_length, assign_global_numbers_norm.
    now apply Hall.
  - split; [|split].
    + erewrite map_ext; [exact Hnd|]. intros a. apply assign_global_numbers_norm.
    + intros k c Hk. rewrite assign_global_numbers_norm. now apply Hcan.
    + intros i n a Hk. destruct (Hloc i n a Hk) as (Ha & cell & r & H1 & H2 & H3 & H4).
      split; [exact Ha|]. exists cell, r. rewrite assign_global_numbers_norm. auto.
Qed.

(** ** The registry after [build_global_reference_map] *)

Lemma list_lookup_map {A B} (f : A -> B) (l : list A) i : map f l !! i = f <$> l !! i.
Proof.
  revert i. induction l as [|x l IH]; intros [|i]; simpl; try reflexivity. apply IH.
Qed.

(** X6: the consolidated list has no reference twice: no two entries of
    [global_order] are equal in the sense of [Reference.__eq__], that is,
    have the same normalized definition text. *)
Theorem global_order_no_equal_references :
  forall (cells : list Cell) (i j a b : nat),
    let st := build_global_reference_map cells fresh in
    global_order st.2 !! i = Some a ->
    global_order st.2 !! j = Some b ->
    Reference_eq (st.1 !!! a) (st.1 !!! b) = true ->
    i = j.
Proof.
  intros cells i j a b st Hi Hj Heq.
  destruct (build_sound cells) as (_ & Hnd & _). fold st in Hnd.
  apply bool_decide_eq_true in Heq.
  apply (NoDup_lookup _ i j (norm_at st.1 a) Hnd); rewrite list_lookup_map.
  - now rewrite Hi.
  - rewrite Hj. simpl. f_equal. symmetry. exact Heq.
Qed.

Lemma global_order_no_equal_references_witness :
  global_order (build_global_reference_map scenario_A fresh).2 !! 0 = Some 0
  /\ 0 = 0.
Proof.
  split; [reflexivity|].
  apply (global_order_no_equal_references scenario_A 0 0 0 0); vm_compute; reflexivity.
Defined.

(** X7: every entry of [cell_local_refs] is a listed reference with a
    global number: the reference stands at some position [k] of
    [global_order] and its number is [k + 1], so that a citation that
    resolves is rewritten with a number between 1 and the number of unique
    references, never with [None]. *)
Theorem cell_local_refs_numbered :
  forall (cells : list Cell) (i : nat) (n : Z) (a : nat),
    let st := build_global_reference_map cells fresh in
    cell_local_refs st.2 !! (i, n) = Some a ->
    exists k : nat,
      global_order st.2 !! k = Some a
      /\ global_num (st.1 !!! a) = Some (Z.of_nat k + 1)%Z
      /\ k < length (global_order st.2).
Proof.
  intros cells i n a st Hk.
  destruct (build_sound cells) as (_ & _ & _ & Hloc). fold st in Hloc.
  destruct (Hloc i n a Hk) as [Ha _].
  apply list_elem_of_lookup_1 in Ha as [k Hpos]. exists k. split; [exact Hpos|]. split.
  - apply (build_numbers_dense cells st.1 st.2 k a); [|exact Hpos].
    subst st. now destruct (build_global_reference_map cells fresh).
  - now apply lookup_lt_Some in Hpos.
Qed.

Lemma cell_local_refs_numbered_witness :
  exists k : nat,
    global_order (build_global_reference_map scenario_B fresh).2 !! k = Some 0
    /\ global_num ((build_global_reference_map scenario_B fresh).1 !!! 0)
       = Some (Z.of_nat k + 1)%Z
    /\ k < length (global_order (build_global_reference_map scenario_B fresh).2).
Proof.
  apply (cell_local_refs_numbered scenario_B 1 1%Z 0). vm_compute. reflexivity.
Defined.

(** X8: every entry of [cell_local_refs] comes from a definition: a key
    (cell index, bracket number) is present only if the cell at that index
    is a markdown cell in which a definition with that bracket number was
    found, and the reference it resolves to is equal, in the sense of
    [Reference.__eq__], to such a definition. *)
Theorem cell_local_refs_from_definitions :
  forall (cells : list Cell) (i : nat) (n : Z) (a : nat),
    let st := build_global_reference_map cells fresh in
    cell_local_refs st.2 !! (i, n) = Some a ->
    exists (cell : Cell) (r : Reference),
      cells !! i = Some cell /\ is_markdown cell = true
      /\ r ∈ found_in_cell i cell /\ local_num r = n
      /\ Reference_eq r (st.1 !!! a) = true.
Proof.
  intros cells i n a st Hk.
  destruct (build_sound cells) as (_ & _ & _ & Hloc). fold st in Hloc.
  destruct (Hloc i n a Hk) as (_ & cell & r & Hc & Hr & Hn & He).
  exists cell, r. repeat split; try assumption.
  - unfold found_in_cell in Hr. destruct (is_markdown cell); [reflexivity|inversion Hr].
  - now apply bool_decide_eq_true.
Qed.

Lemma cell_local_refs_from_definitions_witness :
  exists (cell : Cell) (r : Reference),
    scenario_B !! 1 = Some cell /\ is_markdown cell = true
    /\ r ∈ found_in_cell 1 cell /\ local_num r = 1%Z
    /\ Reference_eq r ((build_global_reference_map scenario_B fresh).1 !!! 0) = true.
Proof.
  apply (cell_local_refs_from_definitions scenario_B 1 1%Z 0). vm_compute. reflexivity.
Defined.

(** X9: [unique_references] is the index of [global_order] by normalized
    text: a normalized text is a key with value [c] exactly when [c] is a
    listed reference with that normalized definition text. *)
Theorem unique_references_index :
  forall (cells : list Cell) (k : list ascii) (c : nat),
    let st := build_global_reference_map cells fresh in
    unique_references st.2 !! k = Some c
    <-> (c ∈ global_order st.2 /\ normalize_for_dedup (definition (st.1 !!! c)) = k).
Proof.
  intros cells k c st.
  destruct (build_sound cells) as ([_ Hall] & Hnd & Hcan & _).
  fold st in Hall, Hnd, Hcan. split.
  - intros Hk. destruct (Hcan k c Hk) as [E Hc]. auto.
  - intros [Hc <-]. destruct (Hall c Hc) as [_ [c' Hc']]. fold (norm_at st.1 c).
    destruct (Hcan _ _ Hc') as [E Hin]. rewrite Hc'. f_equal.
    apply list_elem_of_lookup_1 in Hc as [i Hi]. apply list_elem_of_lookup_1 in Hin as [j Hj].
    assert (j = i) as ->; [|congruence].
    apply (NoDup_lookup _ j i (norm_at st.1 c) Hnd); rewrite list_lookup_map.
    + rewrite Hj. simpl. now rewrite E.
    + now rewrite Hi.
Qed.

(** ** Citations resolve within their own cell *)

Lemma defines_number_false cells i n cell r :
  defines_number cells i n = false ->
  cells !! i = Some cell -> r ∈ found_in_cell i cell -> local_num r <> n.
Proof.
  unfold defines_number, definitions_of_cell. intros H Hc Hr E. rewrite Hc in H.
  assert (existsb (fun r => bool_decide (local_num r = n)) (found_in_cell i cell) = true)
    as Ht; [|congruence].
  apply existsb_exists. exists r. split; [now apply list_elem_of_In|].
  now apply bool_decide_eq_true.
Qed.

(** X10: citations are resolved within their own cell: after
    [build_global_reference_map], a citation whose bracket number is not
    the number of a definition found in the same cell is left as it is,
    whatever the other cells define. *)
Theorem citation_without_local_definition_unchanged :
  forall (cells : list Cell) (i : nat) (pre N D post : list ascii),
    let st := build_global_reference_map cells fresh in
    is_digits N = true -> is_digits D = true ->
    defines_number cells i (int_of N) = false ->
    update_citations_in_text st.1 st.2 i (pre ++ citation N D ++ post)
    = update_citations_in_text st.1 st.2 i pre
      ++ citation N D
      ++ update_citations_in_text st.1 st.2 i post.
Proof.
  intros cells i pre N D post st HN HD Hdef.
  rewrite update_citations_split by assumption.
  unfold replace_citation. cbn [group m_groups nth].
  destruct (cell_local_refs st.2 !! (i, int_of N)) as [a|] eqn:Hk; [|reflexivity].
  exfalso. destruct (build_sound cells) as (_ & _ & _ & Hloc). fold st in Hloc.
  destruct (Hloc _ _ _ Hk) as (_ & cell & r & Hc & Hr & Hn & _).
  now apply (defines_number_false cells i (int_of N) cell r).
Qed.

Lemma citation_without_local_definition_unchanged_witness :
  update_citations_in_text (build_global_reference_map scenario_A fresh).1
    (build_global_reference_map scenario_A fresh).2 1
    (str "x = " ++ citation (str "1") (str "1") ++ [])
  = update_citations_in_text (build_global_reference_map scenario_A fresh).1
      (build_global_reference_map scenario_A fresh).2 1 (str "x = ")
    ++ citation (str "1") (str "1")
    ++ update_citations_in_text (build_global_reference_map scenario_A fresh).1
         (build_global_reference_map scenario_A fresh).2 1 [].
Proof.
  apply (citation_without_local_definition_unchanged scenario_A 1 (str "x = ")
           (str "1") (str "1") []); reflexivity.
Defined.

(** ** Rewriting a citation, end to end *)

Lemma found_in_all_definitions cells i cell r :
  cells !! i = Some cell -> r ∈ found_in_cell i cell -> r ∈ all_definitions cells.
Proof.
  intros Hc Hr. unfold all_definitions. apply list_elem_of_In, in_concat.
  exists (found_in_cell i cell). split; [|now apply list_elem_of_In].
  apply list_elem_of_In. now apply (elem_of_lookup_imap_2 found_in_cell cells cell i).
Qed.

(** X11: in a document where no cell gives two of its definitions the same
    anchor or the same bracket number, a citation whose bracket number is
    the number of a definition [r] of its cell is rewritten to the
    canonical citation of the number [k + 1], where [k] is the position,
    among the first occurrences of the distinct references of the document,
    of the reference equal to [r]. *)
Theorem citation_rewritten_to_first_occurrence :
  forall (cells : list Cell) (i : nat) (cell : Cell) (r : Reference)
         (pre N D post : list ascii),
    let st := build_global_reference_map cells fresh in
    distinct_anchors cells = true -> distinct_numbers cells = true ->
    cells !! i = Some cell -> r ∈ found_in_cell i cell -> local_num r = int_of N ->
    is_digits N = true -> is_digits D = true ->
    exists (k : nat) (r0 : Reference),
      first_occurrences (all_definitions cells) !! k = Some r0
      /\ Reference_eq r0 r = true
      /\ update_citations_in_text st.1 st.2 i (pre ++ citation N D ++ post)
         = update_citations_in_text st.1 st.2 i pre
           ++ global_citation (str_of_int (Z.of_nat k + 1))
           ++ update_citations_in_text st.1 st.2 i post.
Proof.
  intros cells i cell r pre N D post st Ha Hn Hcell Hr Hnum HN HD.
  pose proof (build_numbers_dense cells) as Hdense.
  pose proof (global_order_first_occurrences cells Ha) as Hfirst. cbv zeta in Hfirst.
  pose proof (found_in_cell_index _ _ _ Hr) as Hidx.
  apply (found_in_all_definitions cells i cell r Hcell) in Hr.
  apply list_elem_of_lookup_1 in Hr as [j Hj].
  subst st. unfold build_global_reference_map in *.
  rewrite scan_document in * by assumption.
  set (h := all_definitions cells) in *.
  set (self := foldl (register_at h) ReferenceManager_init (seq 0 (length h))) in *.
  cbn [fst snd] in *.
  assert (NoDup (map (key_at h) (seq 0 (length h)))) as Hkeys
    by (rewrite map_key_at_seq; now apply distinct_numbers_keys).
  assert (j ∈ seq 0 (length h)) as Hin
    by (apply elem_of_seq; apply lookup_lt_Some in Hj; lia).
  assert (h !!! j = r) as Ej by (now apply list_lookup_total_correct).
  destruct (fold_local h _ ReferenceManager_init j Hkeys Hin) as (c & Hl & Hu).
  fold self in Hl, Hu. unfold key_at in Hl. rewrite Ej, Hidx, Hnum in Hl.
  destruct (fold_canonical h (seq 0 (length h)) _ (canonical_init h) _ _ Hu) as [Hc Hord].
  fold self in Hord. apply list_elem_of_lookup_1 in Hord as [k Hk].
  exists k, (h !!! c). split; [|split].
  - rewrite <- Hfirst, list_lookup_map, Hk. reflexivity.
  - apply bool_decide_eq_true. unfold norm_at in Hc. now rewrite Hc, Ej.
  - rewrite update_citations_split by assumption.
    unfold replace_citation. cbn [group m_groups nth]. rewrite Hl.
    rewrite (Hdense _ self k c eq_refl Hk). unfold global_citation, format_num.
    now rewrite <- !app_assoc.
Qed.

Lemma citation_rewritten_to_first_occurrence_witness :
  exists (k : nat) (r0 : Reference),
    first_occurrences (all_definitions scenario_A) !! k = Some r0
    /\ Reference_eq r0
         (MkReference (str "ref1") 1 (str "Smith, J. (2020). Title. Press.") None 2) = true
    /\ update_citations_in_text (build_global_reference_map scenario_A fresh).1
         (build_global_reference_map scenario_A fresh).2 2
         (str "Again " ++ citation (str "1") (str "1") ++ str ".")
       = update_citations_in_text (build_global_reference_map scenario_A fresh).1
           (build_global_reference_map scenario_A fresh).2 2 (str "Again ")
         ++ global_citation (str_of_int (Z.of_nat k + 1))
         ++ update_citations_in_text (build_global_reference_map scenario_A fresh).1
              (build_global_reference_map scenario_A fresh).2 2 (str ".").
Proof.
  apply (citation_rewritten_to_first_occurrence scenario_A 2
           (markdown_cell (str "Again " ++ citation (str "1") (str "1") ++ str "." ++ [newline]
                             ++ definition_markup (str "1") (str "1")
                                  (str "Smith, J. (2020). Title. Press.")))
           (MkReference (str "ref1") 1 (str "Smith, J. (2020). Title. Press.") None 2)
           (str "Again ") (str "1") (str "1") (str "."));
    try (vm_compute; reflexivity).
  vm_compute. now left.
Defined.

(** ** The references section *)

Lemma foldl_snoc {A B} (f : B -> A) (l0 : list A) (l : list B) :
  foldl (fun lines x => lines ++ [f x]) l0 l = l0 ++ map f l.
Proof.
  revert l0. induction l as [|x l IH]; intros l0; simpl; [now rewrite app_nil_r|].
  now rewrite IH, <- app_assoc.
Qed.

Lemma imap_map {A B C} (g : nat -> B -> C) (f : A -> B) (l : list A) :
  imap g (map f l) = imap (fun k x => g k (f x)) l.
Proof.
  revert g. induction l as [|x l IH]; intros g; [reflexivity|]. simpl. f_equal. apply IH.
Qed.

Lemma imap_ext_lookup {A B} (f g : nat -> A -> B) (l : list A) :
  (forall k x, l !! k = Some x -> f k x = g k x) -> imap f l = imap g l.
Proof.
  revert f g. induction l as [|x l IH]; intros f g H; [reflexivity|]. simpl. f_equal.
  - now apply (H 0).
  - apply IH. intros k y Hk. now apply (H (S k)).
Qed.

Lemma map_as_imap {A B} (f : A -> B) (l : list A) : map f l = imap (fun _ x => f x) l.
Proof. induction l as [|x l IH]; [reflexivity|]. simpl. now rewrite IH. Qed.

Lemma generate_references_section_unfold h self :
  generate_references_section h self
  = match global_order self with
    | [] => []
    | _ => section_header
           ++ concat (map (fun a => str "<a id=" ++ [dquote]
                                      ++ (str "global_ref" ++ format_num (global_num (h !!! a)))
                                      ++ [dquote] ++ str "></a>**["
                                      ++ format_num (global_num (h !!! a)) ++ str "]** "
                                      ++ definition (h !!! a) ++ [newline; newline])
                          (global_order self))
    end.
Proof.
  unfold generate_references_section. destruct (global_order self) as [|a order] eqn:E;
    [reflexivity|].
  rewrite foldl_snoc, concat_app. reflexivity.
Qed.

Lemma numbered_definitions l : map definition (numbered l) = map definition l.
Proof.
  unfold numbered.
  assert (forall (g : nat -> Reference -> Reference),
             (forall i r, definition (g i r) = definition r) ->
             map definition (imap g l) = map definition l) as H.
  { induction l as [|x l IH]; intros g Hg; [reflexivity|]. simpl. rewrite Hg. f_equal.
    apply IH. intros i r. apply Hg. }
  apply H. reflexivity.
Qed.

(** X12: the references section lists the unique references in the order
    of [global_order], numbered 1, 2, ... without gap, each with its
    definition text as it was first found; in a document where no cell
    gives two definitions the same anchor these are the first occurrences
    of the distinct references, in the order of the document. *)
Theorem references_section_content :
  forall cells : list Cell,
    let st := build_global_reference_map cells fresh in
    generate_references_section st.1 st.2
    = references_section_of (map (fun a => definition (st.1 !!! a)) (global_order st.2))
    /\ (distinct_anchors cells = true ->
        generate_references_section st.1 st.2
        = references_section_of
            (map definition (first_occurrences (all_definitions cells)))).
Proof.
  intros cells st.
  assert (generate_references_section st.1 st.2
          = references_section_of (map (fun a => definition (st.1 !!! a)) (global_order st.2)))
    as E.
  { rewrite generate_references_section_unfold. unfold references_section_of.
    destruct (global_order st.2) as [|a order] eqn:Eo; [reflexivity|]. rewrite <- Eo.
    replace (map (fun a0 => definition (st.1 !!! a0)) (global_order st.2))
      with (map (fun a0 => definition (st.1 !!! a0)) (a :: order)) at 1 by now rewrite Eo.
    cbn [map]. f_equal. f_equal. rewrite imap_map, map_as_imap.
    apply imap_ext_lookup. intros k b Hk.
    rewrite (build_numbers_dense cells st.1 st.2 k b); [reflexivity| |exact Hk].
    subst st. now destruct (build_global_reference_map cells fresh). }
  split; [exact E|]. intros Hd. rewrite E. f_equal.
  subst st. unfold build_global_reference_map.
  pose proof (scan_cells_ok fresh (imap (fun i c => (i, c)) cells) fresh_ok) as [Hnd Hall].
  pose proof (global_order_first_occurrences cells Hd) as Ho. cbv zeta in Ho.
  destruct (foldl scan_cell fresh (imap (fun i c => (i, c)) cells)) as [h0 self0].
  cbn [fst snd] in *.
  rewrite <- (map_map (fun a => assign_global_numbers h0 (global_order self0) !!! a) definition).
  rewrite assign_global_numbers_map; [|exact Hnd|intros b Hb; now apply Hall].
  now rewrite Ho, numbered_definitions.
Qed.

Lemma references_section_content_witness :
  generate_references_section (build_global_reference_map scenario_A fresh).1
    (build_global_reference_map scenario_A fresh).2
  = references_section_of (map definition (first_occurrences (all_definitions scenario_A))).
Proof.
  apply (references_section_content scenario_A). reflexivity.
Defined.

(** ** The cells after [process_notebook] *)

(** The store after the first pass holds one object per definition found,
    in the order of the document. *)
Lemma scan_cell_store h self i cell :
  (scan_cell (h, self) (i, cell)).1 = h ++ found_in_cell i cell.
Proof.
  rewrite scan_cell_unfold. unfold found_in_cell.
  destruct (is_markdown cell); simpl; [|now rewrite app_nil_r].
  now destruct (extract_definitions_spec i (source_text cell) h) as [-> _].
Qed.

Lemma scan_cells_store (f : nat -> nat) cells st :
  (foldl scan_cell st (imap (fun i c => (f i, c)) cells)).1
  = st.1 ++ concat (imap (fun i c => found_in_cell (f i) c) cells).
Proof.
  revert f st. induction cells as [|cell cells IH]; intros f [h self].
  - simpl. now rewrite app_nil_r.
  - cbn [imap foldl concat]. rewrite (IH (f ∘ S)), scan_cell_store.
    cbn [fst]. now rewrite <- app_assoc.
Qed.

Lemma scan_document_store cells :
  (foldl scan_cell fresh (imap (fun i c => (i, c)) cells)).1 = all_definitions cells.
Proof. apply (scan_cells_store (fun i => i) cells fresh). Qed.

Lemma dict_set_not_nil {V} (k : list ascii) (v : V) d : dict_set k v d <> [].
Proof. destruct d as [|[k' v'] d]; simpl; [discriminate|]. now destruct (bool_decide (k' = k)). Qed.

Lemma extract_definitions_not_nil cell_index t ms d h :
  ms <> [] \/ d <> [] -> (foldl (definitions_step cell_index t) (d, h) ms).1 <> [].
Proof.
  revert d h. induction ms as [|m ms IH]; intros d h H.
  - destruct H as [H|H]; [contradiction|exact H].
  - cbn [foldl]. unfold definitions_step at 2. apply IH. right. apply dict_set_not_nil.
Qed.

Lemma register_definition_listed i h self a :
  (forall k c, unique_references self !! k = Some c -> c ∈ global_order self) ->
  (forall k c, unique_references (register_definition i h self a) !! k = Some c ->
               c ∈ global_order (register_definition i h self a))
  /\ global_order (register_definition i h self a) <> [].
Proof.
  intros HL. unfold register_definition.
  destruct (unique_references self !! normalize_for_dedup (definition (h !!! a)))
    as [existing|] eqn:E; simpl.
  - split; [exact HL|]. intros Hnil. apply HL in E. rewrite Hnil in E. inversion E.
  - split.
    + intros k c. destruct (decide (normalize_for_dedup (definition (h !!! a)) = k)) as [<-|Hne].
      * rewrite lookup_insert_eq. intros [= <-]. apply elem_of_app. right. now left.
      * rewrite lookup_insert_ne by assumption. intros Hk. apply elem_of_app. left.
        now apply (HL k).
    + now destruct (global_order self).
Qed.

Lemma register_all_listed i h (d : list (list ascii * nat)) self :
  (forall k c, unique_references self !! k = Some c -> c ∈ global_order self) ->
  let self' := foldl (fun self '(ref_id, ref) => register_definition i h self ref) self d in
  (forall k c, unique_references self' !! k = Some c -> c ∈ global_order self')
  /\ (d <> [] \/ global_order self <> [] -> global_order self' <> []).
Proof.
  revert self. induction d as [|[k a] d IH]; intros self HL.
  - simpl. split; [exact HL|]. intros [H|H]; [contradiction|exact H].
  - simpl. destruct (register_definition_listed i h self a HL) as [HL' Hne].
    destruct (IH _ HL') as [H1 H2]. split; [exact H1|]. intros _. apply H2. now right.
Qed.

Lemma scan_cell_listed st i cell :
  (forall k c, unique_references st.2 !! k = Some c -> c ∈ global_order st.2) ->
  (st.1 <> [] -> global_order st.2 <> []) ->
  (forall k c, unique_references (scan_cell st (i, cell)).2 !! k = Some c ->
               c ∈ global_order (scan_cell st (i, cell)).2)
  /\ ((scan_cell st (i, cell)).1 <> [] -> global_order (scan_cell st (i, cell)).2 <> []).
Proof.
  destruct st as [h self]. intros HL Hne.
  pose proof (scan_cell_store h self i cell) as Hstore. revert Hstore.
  rewrite scan_cell_unfold. unfold found_in_cell.
  destruct (is_markdown cell); [|simpl; auto]. cbn [fst snd].
  set (t := source_text cell). set (h' := (extract_definitions i t h).2).
  intros Hstore.
  destruct (register_all_listed i h' (extract_definitions i t h).1 self HL) as [H1 H2].
  split; [exact H1|]. intros Hh'. apply H2.
  destruct (finditer DEFINITION_START_PATTERN t) as [|m ms] eqn:Ems.
  - right. apply Hne. simpl in *. rewrite Hstore, app_nil_r in Hh'. exact Hh'.
  - left. rewrite extract_definitions_fold, Ems. apply extract_definitions_not_nil.
    left. discriminate.
Qed.

Lemma scan_cells_listed icells st :
  (forall k c, unique_references st.2 !! k = Some c -> c ∈ global_order st.2) ->
  (st.1 <> [] -> global_order st.2 <> []) ->
  (foldl scan_cell st icells).1 <> [] -> global_order (foldl scan_cell st icells).2 <> [].
Proof.
  revert st. induction icells as [|[i cell] icells IH]; intros st HL Hne; [exact Hne|].
  simpl. destruct (scan_cell_listed st i cell HL Hne) as [H1 H2]. now apply IH.
Qed.

(** There is a unique reference exactly when a definition was found. *)
Lemma global_order_nil_iff cells :
  global_order (build_global_reference_map cells fresh).2 = [] <-> all_definitions cells = [].
Proof.
  unfold build_global_reference_map.
  pose proof (scan_document_store cells) as Hstore.
  pose proof (scan_cells_ok fresh (imap (fun i c => (i, c)) cells) fresh_ok) as [_ Hall].
  pose proof (scan_cells_listed (imap (fun i c => (i, c)) cells) fresh) as Hne.
  destruct (foldl scan_cell fresh (imap (fun i c => (i, c)) cells)) as [h self].
  simpl in *. subst h. split.
  - intros Ho. destruct (all_definitions cells) as [|r l] eqn:E; [reflexivity|].
    exfalso. apply Hne; [| |discriminate|exact Ho].
    + intros k c H. rewrite lookup_empty in H. discriminate.
    + intros H. now contradiction H.
  - intros E. destruct (global_order self) as [|a order]; [reflexivity|].
    destruct (Hall a) as [Hlt _]; [now left|]. rewrite E in Hlt. simpl in Hlt. lia.
Qed.

(** X13: [process_notebook] keeps every cell in its place with its type;
    a cell that is not a markdown cell is left as it is, a markdown cell
    gets its citations rewritten and its reference section removed; and
    one markdown cell holding the references section, flagged
    [references_section], is appended exactly when a definition was found
    in some markdown cell. *)
Theorem process_notebook_cells :
  forall cells : list Cell,
    let st := build_global_reference_map cells fresh in
    let out := (process_notebook cells fresh).1 in
    map cell_type (firstn (length cells) out) = map cell_type cells
    /\ (forall i cell, cells !! i = Some cell ->
          out !! i = Some (if is_markdown cell
                           then MkCell (cell_type cell)
                                  (Some (SourceStr (remove_reference_section
                                     (update_citations_in_text st.1 st.2 i (source_text cell)))))
                                  (references_section cell)
                           else cell))
    /\ skipn (length cells) out
       = match all_definitions cells with
         | [] => []
         | _ => [references_cell (generate_references_section st.1 st.2)]
         end.
Proof.
  intros cells st out.
  pose proof (global_order_nil_iff cells) as Hnil. fold st in Hnil.
  set (body := imap (fun cell_idx cell =>
                       if is_markdown cell then process_markdown_cell st.1 st.2 cell_idx cell
                       else cell) cells).
  assert (length body = length cells) as Hlen by apply length_imap.
  assert (out = body ++ match all_definitions cells with
                        | [] => []
                        | _ => [references_cell (generate_references_section st.1 st.2)]
                        end) as Eout.
  { subst out body. unfold process_notebook. fold st. destruct st as [h self]. cbn [fst snd] in *.
    destruct (global_order self) as [|a order] eqn:Eo.
    - rewrite (proj1 Hnil eq_refl). simpl. now rewrite app_nil_r.
    - destruct (all_definitions cells) as [|r l] eqn:Ed; [|reflexivity].
      destruct Hnil as [_ Hnil]. now specialize (Hnil eq_refl). }
  assert (forall i cell, cells !! i = Some cell ->
            body !! i = Some (if is_markdown cell
                              then MkCell (cell_type cell)
                                     (Some (SourceStr (remove_reference_section
                                        (update_citations_in_text st.1 st.2 i
                                           (source_text cell)))))
                                     (references_section cell)
                              else cell)) as Hbody.
  { intros i cell Hi. subst body. rewrite list_lookup_imap, Hi. simpl.
    unfold process_markdown_cell. now destruct (is_markdown cell). }
  rewrite Eout. split; [|split].
  - rewrite <- Hlen, firstn_app, Nat.sub_diag, firstn_all, firstn_O, app_nil_r.
    subst body. apply map_imap_same. apply Forall_forall. intros cell _ i.
    unfold process_markdown_cell. now destruct (is_markdown cell).
  - intros i cell Hi. apply lookup_app_l_Some. now apply Hbody.
  - now apply skipn_app_length.
Qed.

Lemma process_notebook_cells_witness :
  (process_notebook scenario_A fresh).1 !! 1
  = Some (if is_markdown (MkCell "code" (Some (SourceStr (str "x = 1"))) false)
          then MkCell (cell_type (MkCell "code" (Some (SourceStr (str "x = 1"))) false))
                 (Some (SourceStr (remove_reference_section
                    (update_citations_in_text (build_global_reference_map scenario_A fresh).1
                       (build_global_reference_map scenario_A fresh).2 1
                       (source_text (MkCell "code" (Some (SourceStr (str "x = 1"))) false))))))
                 (references_section (MkCell "code" (Some (SourceStr (str "x = 1"))) false))
          else MkCell "code" (Some (SourceStr (str "x = 1"))) false).
Proof.
  apply (proj1 (proj2 (process_notebook_cells scenario_A))). reflexivity.
Defined.

(** ** What [remove_reference_section] returns *)

Lemma rstrip_rstrip t : rstrip (rstrip t) = rstrip t.
Proof.
  destruct (rstrip_last t) as [->|(x & e & -> & He)]; [reflexivity|]. now apply rstrip_end.
Qed.

Lemma join_firstn_prefix sep (l : list (list ascii)) i :
  exists r, join sep l = join sep (firstn i l) ++ r.
Proof.
  destruct (join_app sep (firstn i l) (skipn i l)) as (mid & E).
  rewrite firstn_skipn in E. rewrite E. eauto.
Qed.

Lemma separator_scan_Some lines todo r :
  separator_scan lines todo = Some r ->
  exists i, r = rstrip (join [newline] (firstn i lines)).
Proof.
  induction todo as [|[i line] todo IH]; [discriminate|]. cbn [separator_scan].
  destruct (bool_decide (strip line = str "---")); [|exact IH].
  destruct (search DEFINITION_START_PATTERN _); [|exact IH].
  destruct (_ && _); intros [= <-]; eauto.
Qed.

(** The shape of the result: the input, or a right-stripped prefix of
    it. *)
Lemma remove_reference_section_cases t :
  remove_reference_section t = t
  \/ exists u v, t = u ++ v /\ remove_reference_section t = rstrip u.
Proof.
  unfold remove_reference_section.
  destruct (search REFERENCE_SECTION_PATTERN t) as [m|].
  - right. exists (firstn (m_start m) t), (skipn (m_start m) t).
    rewrite firstn_skipn. split; [reflexivity|]. now destruct (search page_break_pattern _).
  - destruct (separator_scan _ _) as [r|] eqn:E.
    + right. apply separator_scan_Some in E as [i ->].
      destruct (join_firstn_prefix [newline] (split_on newline t) i) as [v Ev].
      rewrite join_split_on in Ev. eauto.
    + destruct (search DEFINITION_START_PATTERN t) as [m|]; [|now left].
      right. exists (firstn (m_start m) t), (skipn (m_start m) t).
      rewrite firstn_skipn. split; [reflexivity|]. now destruct (contains _ _).
Qed.

(** X14: [remove_reference_section] only cuts: its result is a prefix of
    the input, and it is either the input itself or a text without white
    space at its end. *)
Theorem remove_reference_section_truncates :
  forall t : list ascii,
    exists rest : list ascii,
      t = remove_reference_section t ++ rest
      /\ (rest = [] \/ rstrip (remove_reference_section t) = remove_reference_section t).
Proof.
  intros t. destruct (remove_reference_section_cases t) as [E|(u & v & Et & E)].
  - exists []. rewrite E, app_nil_r. auto.
  - destruct (rstrip_split u) as (tw & Eu & _). exists (tw ++ v). rewrite E. split.
    + rewrite app_assoc, <- Eu. exact Et.
    + right. apply rstrip_rstrip.
Qed.

(** A pattern that starts with [^] and has no other anchor: a match at the
    head of a text is a match at the head of every extension of it. *)
Lemma match_here_bol_mono p' st s t :
  anchor_free p' = true ->
  is_Some (match_here (Bol :: p') st s) -> is_Some (match_here (Bol :: p') st (s ++ t)).
Proof.
  intros Hp. simpl. destruct (at_bol st); [|now intros [? ?]].
  intros H. now apply (match_here_mono p' Hp st s H).
Qed.

Section prefixes.
Variable p : list item.
Hypothesis p_nonempty : 0 < min_len p.
Hypothesis p_mono :
  forall st s t, is_Some (match_here p st s) -> is_Some (match_here p st (s ++ t)).

Lemma match_here_prefix_None st u v :
  match_here p st (u ++ v) = None -> match_here p st u = None.
Proof using p_mono.
  intros H. destruct (match_here p st u) eqn:E; [|reflexivity].
  destruct (p_mono st u v) as [r Hr]; [rewrite E; eauto|]. congruence.
Qed.

Lemma search_from_prefix_None bol pos u v :
  search_from p bol pos (u ++ v) = None -> search_from p bol pos u = None.
Proof using p_mono p_nonempty.
  revert bol pos. induction u as [|c u IH]; intros bol pos H.
  - simpl. now rewrite match_here_nil.
  - rewrite <- app_comm_cons in H. apply search_from_None_inv in H as [H1 H2].
    rewrite search_from_miss by (now apply (match_here_prefix_None _ (c :: u) v)).
    now apply IH.
Qed.

Lemma search_from_before_match bol pos s m :
  search_from p bol pos s = Some m ->
  search_from p bol pos (firstn (m_start m - pos) s) = None /\ pos <= m_start m.
Proof using p_mono p_nonempty.
  revert bol pos. induction s as [|c s IH]; intros bol pos.
  - simpl. now rewrite match_here_nil.
  - cbn [search_from]. destruct (match_here p (start_state bol) (c :: s)) as [[st r]|] eqn:E.
    + intros [= <-]. simpl. rewrite Nat.sub_diag. simpl. now rewrite match_here_nil.
    + intros H. destruct (IH _ _ H) as [H1 H2]. split; [|lia].
      replace (m_start m - pos) with (S (m_start m - S pos)) by lia. cbn [firstn].
      rewrite search_from_miss; [exact H1|].
      apply (match_here_prefix_None _ _ (skipn (m_start m - S pos) s)).
      now rewrite <- app_comm_cons, firstn_skipn.
Qed.
End prefixes.

Lemma reference_section_min_len : 0 < min_len REFERENCE_SECTION_PATTERN.
Proof. vm_compute. lia. Qed.

Lemma reference_section_mono st s t :
  is_Some (match_here REFERENCE_SECTION_PATTERN st s) ->
  is_Some (match_here REFERENCE_SECTION_PATTERN st (s ++ t)).
Proof. now apply (match_here_bol_mono (tl REFERENCE_SECTION_PATTERN)). Qed.

(** X15: the result of [remove_reference_section] never contains the
    explicit separator of the reference section. *)
Theorem remove_reference_section_no_separator :
  forall t : list ascii,
    no_match REFERENCE_SECTION_PATTERN (remove_reference_section t) = true.
Proof.
  intros t.
  assert (search REFERENCE_SECTION_PATTERN (remove_reference_section t) = None) as H;
    [|unfold no_match; now rewrite H].
  pose proof (search_from_prefix_None _ reference_section_min_len reference_section_mono)
    as Hprefix.
  destruct (search REFERENCE_SECTION_PATTERN t) as [m|] eqn:Es.
  - unfold remove_reference_section. rewrite Es.
    assert (search REFERENCE_SECTION_PATTERN (rstrip (firstn (m_start m) t)) = None) as Hr;
      [|now destruct (search page_break_pattern _)].
    destruct (rstrip_split (firstn (m_start m) t)) as (tw & Eu & _).
    apply (Hprefix _ _ _ tw). rewrite <- Eu.
    destruct (search_from_before_match _ reference_section_min_len reference_section_mono
                _ _ _ _ Es) as [Hnone _].
    now rewrite Nat.sub_0_r in Hnone.
  - destruct (remove_reference_section_cases t) as [->|(u & v & Et & ->)]; [exact Es|].
    destruct (rstrip_split u) as (tw & Eu & _).
    apply (Hprefix _ _ _ (tw ++ v)). now rewrite app_assoc, <- Eu, <- Et.
Qed.

(** ** The characters of a printed number *)

Lemma free_of_cons_eq c x t : free_of c (x :: t) = negb (Ascii.eqb x c) && free_of c t.
Proof. reflexivity. Qed.

Lemma digit_is_not c d : is_digit c = false -> is_digit d = true -> Ascii.eqb d c = false.
Proof. intros Hc Hd. destruct (Ascii.eqb_spec d c) as [->|]; [congruence|reflexivity]. Qed.

Lemma pretty_N_char_digit d : is_digit (pretty_N_char d) = true.
Proof. unfold pretty_N_char. repeat case_match; reflexivity. Qed.

Lemma pretty_N_go_free c :
  is_digit c = false ->
  forall x s, free_of c (str s) = true -> free_of c (str (pretty_N_go x s)) = true.
Proof.
  intros Hc x. induction (N.lt_wf_0 x) as [x _ IH]. intros s Hs.
  destruct (decide (x = 0)%N) as [->|Hx]; [now rewrite pretty_N_go_0|].
  rewrite pretty_N_go_step by lia. apply IH; [apply N.div_lt; lia|].
  change (str (String ?a s)) with (a :: str s).
  now rewrite free_of_cons_eq, Hs, (digit_is_not c) by (assumption || apply pretty_N_char_digit).
Qed.

(** A printed global number has no character but digits and the minus
    sign; [None] prints as its name. *)
Lemma format_num_free c g :
  is_digit c = false -> free_of c (str "-None") = true -> free_of c (format_num g) = true.
Proof.
  intros Hc Hn. change (str "-None") with ("-"%char :: str "None") in Hn.
  rewrite free_of_cons_eq in Hn. apply andb_true_iff in Hn as [Hm Hn].
  destruct g as [[|x|x]|]; [| | |exact Hn].
  - change (format_num (Some 0%Z)) with ["0"%char].
    now rewrite free_of_cons_eq, (digit_is_not c).
  - change (format_num (Some (Z.pos x))) with (str (pretty_N_go (N.pos x) "")).
    now apply pretty_N_go_free.
  - change (format_num (Some (Z.neg x))) with ("-"%char :: str (pretty_N_go (N.pos x) "")).
    rewrite free_of_cons_eq, Hm. now apply pretty_N_go_free.
Qed.

(** ** Rewriting a rewritten text *)

Lemma global_citation_unfold f :
  global_citation f = "["%char :: "["%char :: (f ++ str "]](#global_ref" ++ f ++ str ")").
Proof. reflexivity. Qed.

Lemma app_eq_first_char (x : ascii) u v a b :
  Forall (fun c => c <> x) u -> Forall (fun c => c <> x) v ->
  u ++ x :: a = v ++ x :: b -> u = v /\ a = b.
Proof.
  revert v. induction u as [|c u IH]; intros v Hu Hv E.
  - destruct v as [|c' v]; simpl in E; [now injection E|].
    injection E as <- _. now apply Forall_cons_iff in Hv as [Hv _].
  - apply Forall_cons_iff in Hu as [Hc Hu]. destruct v as [|c' v]; simpl in E.
    + injection E as -> _. congruence.
    + injection E as -> E. apply Forall_cons_iff in Hv as [_ Hv].
      destruct (IH v Hu Hv E) as [-> ->]. auto.
Qed.

Lemma free_of_Forall c t : free_of c t = true -> Forall (fun x => x <> c) t.
Proof.
  apply forallb_Forall. intros x Hx ->. now rewrite Ascii.eqb_refl in Hx.
Qed.

Lemma is_digits_free c N : is_digit c = false -> is_digits N = true -> free_of c N = true.
Proof.
  intros Hc [_ HN]%is_digits_inv. induction N as [|d N IH]; [reflexivity|].
  simpl in HN. apply andb_true_iff in HN as [Hd HN].
  now rewrite free_of_cons_eq, (digit_is_not c d), IH.
Qed.

(** The canonical citation is not a citation in the local form. *)
Lemma global_citation_miss st f rest :
  free_of "]" f = true ->
  match_here CITATION_PATTERN st (global_citation f ++ rest) = None.
Proof.
  intros Hf. destruct (match_here CITATION_PATTERN st (global_citation f ++ rest))
    as [r|] eqn:E; [|reflexivity].
  exfalso. apply citation_match_inv in E as (N & D & rest' & HN & HD & E).
  rewrite global_citation_unfold, citation_unfold in E. simpl in E.
  injection E as E. rewrite <- !app_assoc in E.
  change (str "]](#global_ref" ++ ?y) with ("]"%char :: str "](#global_ref" ++ y) in E.
  change (str "]](#ref" ++ ?y) with ("]"%char :: str "](#ref" ++ y) in E.
  apply app_eq_first_char in E as [_ E];
    [discriminate E|now apply free_of_Forall|apply free_of_Forall; now apply is_digits_free].
Qed.

Lemma citation_second_char st x rest :
  x <> "["%char -> match_here CITATION_PATTERN st ("["%char :: x :: rest) = None.
Proof.
  intros Hx. destruct (match_here CITATION_PATTERN st ("["%char :: x :: rest)) as [r|] eqn:E;
    [|reflexivity].
  exfalso. apply citation_match_inv in E as (N & D & rest' & _ & _ & E).
  rewrite citation_unfold in E. simpl in E. congruence.
Qed.

Lemma citation_first_chr : first_chr CITATION_PATTERN = Some "["%char.
Proof. reflexivity. Qed.

Section rewriting.
Variable h : list Reference.
Variable self : ReferenceManager.
Variable cell_index : nat.

Lemma replace_citation_at bol pos N D :
  replace_citation h self cell_index (match_at pos (citation_state (start_state bol) N D))
  = match cell_local_refs self !! (cell_index, int_of N) with
    | None => citation N D
    | Some ref => global_citation (format_num (global_num (h !!! ref)))
    end.
Proof.
  unfold replace_citation, match_at, citation_state, start_state.
  cbn [group m_groups nth matched closed app].
  destruct (cell_local_refs self !! (cell_index, int_of N)); [|reflexivity].
  unfold global_citation. now rewrite <- !app_assoc.
Qed.

Lemma replace_citation_head bol pos N D :
  exists y, replace_citation h self cell_index
              (match_at pos (citation_state (start_state bol) N D))
            = "["%char :: "["%char :: y.
Proof.
  rewrite replace_citation_at. destruct (cell_local_refs self !! _).
  - rewrite global_citation_unfold. eauto.
  - rewrite citation_unfold. eauto.
Qed.

(** The scan copies the text up to the first bracket. *)
Lemma sub_citation_prefix u :
  free_of "[" u = true ->
  forall s bol pos rest,
    sub_from CITATION_PATTERN (replace_citation h self cell_index) 0 bol pos s = u ++ rest ->
    exists rest0, s = u ++ rest0.
Proof.
  induction u as [|x u IH]; intros Hu s bol pos rest E; [simpl; eauto|].
  apply free_of_cons in Hu as [Hx Hu].
  destruct s as [|c s]; [discriminate E|].
  destruct (match_here CITATION_PATTERN (start_state bol) (c :: s)) as [[st r]|] eqn:Em.
  - exfalso. rewrite (sub_from_hit _ citation_min_len _ _ _ _ _ _ Em) in E.
    apply citation_match_start in Em as (N & D & _ & _ & _ & ->).
    destruct (replace_citation_head bol pos N D) as [y Ey]. rewrite Ey in E.
    simpl in E. congruence.
  - rewrite sub_from_miss in E by assumption. simpl in E. injection E as -> E.
    apply IH in E as [rest0 ->]; [eauto|assumption].
Qed.

(** A position where no citation starts in the text is one where none
    starts in the rewritten text. *)
Lemma sub_citation_miss bol bol' pos st c s :
  match_here CITATION_PATTERN (start_state bol) (c :: s) = None ->
  match_here CITATION_PATTERN st
    (c :: sub_from CITATION_PATTERN (replace_citation h self cell_index) 0 bol' pos s) = None.
Proof.
  intros Hmiss.
  set (X := sub_from CITATION_PATTERN (replace_citation h self cell_index) 0 bol' pos s).
  destruct (match_here CITATION_PATTERN st (c :: X)) as [r|] eqn:E; [|reflexivity].
  exfalso. apply citation_match_inv in E as (N & D & rest & HN & HD & E).
  rewrite citation_unfold in E. simpl in E. injection E as -> EX.
  assert (free_of "[" (N ++ str "]](#ref" ++ D ++ str ")") = true) as Hfree.
  { rewrite !free_of_app, (is_digits_free "[" N), (is_digits_free "[" D)
      by (assumption || reflexivity). reflexivity. }
  assert (exists n t, N = n :: t /\ n <> "["%char) as (n & t & EN & Hn).
  { destruct N as [|n t]; [discriminate HN|]. exists n, t. split; [reflexivity|].
    apply is_digits_inv in HN as [_ HN]. simpl in HN. apply andb_true_iff in HN as [HN _].
    now apply is_digit_not_bracket. }
  subst X. destruct s as [|c' s]; [discriminate EX|].
  destruct (match_here CITATION_PATTERN (start_state bol') (c' :: s)) as [[st' r']|] eqn:Em.
  - rewrite (sub_from_hit _ citation_min_len _ _ _ _ _ _ Em) in EX.
    apply citation_match_start in Em as (N' & D' & _ & _ & _ & ->).
    destruct (replace_citation_head bol' pos N' D') as [y Ey]. rewrite Ey, EN in EX.
    simpl in EX. congruence.
  - rewrite sub_from_miss in EX by assumption. injection EX as -> EX.
    apply sub_citation_prefix in EX as [rest0 ->]; [|exact Hfree].
    assert (match_here CITATION_PATTERN (start_state bol) (citation N D ++ rest0) = None) as Hm.
    { exact Hmiss. }
    rewrite citation_match in Hm by assumption. discriminate.
Qed.

Lemma sub_global_citation bol pos f rest :
  free_of "[" f = true -> free_of "]" f = true ->
  sub_from CITATION_PATTERN (replace_citation h self cell_index) 0 bol pos
    (global_citation f ++ rest)
  = global_citation f
    ++ sub_from CITATION_PATTERN (replace_citation h self cell_index) 0 true 0 rest.
Proof.
  intros Hf Hf'.
  pose proof (global_citation_miss (start_state bol) f rest Hf') as Hm0.
  rewrite global_citation_unfold in *. rewrite <- !app_comm_cons in *.
  rewrite sub_from_miss by exact Hm0. f_equal.
  assert (free_of "[" (f ++ str "]](#global_ref" ++ f ++ str ")") = true) as Hall
    by (rewrite !free_of_app, Hf; reflexivity).
  destruct (f ++ str "]](#global_ref" ++ f ++ str ")") as [|x y] eqn:E;
    [destruct f; discriminate E|].
  pose proof Hall as [Hx _]%free_of_cons.
  rewrite <- app_comm_cons, sub_from_miss by (now apply citation_second_char). f_equal.
  rewrite app_comm_cons.
  rewrite (sub_from_free_prefix _ _ _ _ _ _ _ citation_first_chr Hall). f_equal.
  apply sub_citation_from. apply replace_citation_groups.
Qed.

End rewriting.

(** X16: [update_citations_in_text] is idempotent: rewriting a rewritten
    text changes nothing.  The canonical citations it wrote are not
    citations in the local form, and the citations it left are left
    again. *)
Theorem update_citations_idempotent :
  forall (h : list Reference) (self : ReferenceManager) (cell_index : nat)
         (markdown_text : list ascii),
    update_citations_in_text h self cell_index
      (update_citations_in_text h self cell_index markdown_text)
    = update_citations_in_text h self cell_index markdown_text.
Proof.
  intros h self cell_index t. unfold update_citations_in_text at 2 3. unfold sub.
  apply (scan_ind CITATION_PATTERN citation_min_len
           (fun bol pos s =>
              update_citations_in_text h self cell_index
                (sub_from CITATION_PATTERN (replace_citation h self cell_index) 0 bol pos s)
              = sub_from CITATION_PATTERN (replace_citation h self cell_index) 0 bol pos s)).
  - reflexivity.
  - intros bol pos c s Hmiss IH. rewrite sub_from_miss by assumption.
    unfold update_citations_in_text, sub in *.
    rewrite sub_from_miss by (now apply (sub_citation_miss h self cell_index bol)).
    f_equal. rewrite <- IH at 2. apply sub_citation_from. apply replace_citation_groups.
  - intros bol pos st rest Hhit _ IH.
    rewrite (sub_from_hit _ citation_min_len _ _ _ _ _ _ Hhit).
    apply citation_match_start in Hhit as (N & D & HN & HD & _ & ->).
    rewrite replace_citation_at.
    destruct (cell_local_refs self !! (cell_index, int_of N)) as [ref|] eqn:Hk.
    + unfold update_citations_in_text, sub in *.
      rewrite sub_global_citation by (apply format_num_free; reflexivity).
      f_equal. rewrite <- IH at 2. apply sub_citation_from. apply replace_citation_groups.
    + assert (replace_citation h self cell_index (MkMatch 0 0 [citation N D; N; str "ref" ++ D])
              = citation N D) as Er
        by (unfold replace_citation; cbn [group m_groups nth]; now rewrite Hk).
      set (Y := sub_from _ _ _ _ _ rest) in *.
      change (citation N D ++ Y) with ([] ++ citation N D ++ Y) at 1.
      rewrite update_citations_split, Er, IH by assumption. reflexivity.
Qed.

Lemma search_from_free_prefix p c0 bol pos pre s :
  first_chr p = Some c0 -> free_of c0 pre = true ->
  search_from p bol pos (pre ++ s) = search_from p (bol_after bol pre) (pos + length pre) s.
Proof.
  intros Hp. revert bol pos. induction pre as [|c pre IH]; intros bol pos Hpre.
  - simpl. now rewrite Nat.add_0_r.
  - apply free_of_cons in Hpre as [Hc Hpre]. rewrite <- app_comm_cons.
    rewrite search_from_miss by (now apply first_chr_fail with c0).
    rewrite IH by assumption. simpl. now rewrite Nat.add_succ_r.
Qed.

Lemma search_citation_None_from bol pos bol' pos' s :
  search_from CITATION_PATTERN bol pos s = None ->
  search_from CITATION_PATTERN bol' pos' s = None.
Proof.
  rewrite !search_from_None_iff. intros H pre rest E.
  apply (citation_miss_bol (bol_after bol pre)). now apply H.
Qed.

Lemma search_global_citation bol pos f rest :
  free_of "[" f = true -> free_of "]" f = true ->
  search_from CITATION_PATTERN true 0 rest = None ->
  search_from CITATION_PATTERN bol pos (global_citation f ++ rest) = None.
Proof.
  intros Hf Hf' Hrest.
  pose proof (global_citation_miss (start_state bol) f rest Hf') as Hm0.
  rewrite global_citation_unfold in *. rewrite <- !app_comm_cons in *.
  rewrite search_from_miss by exact Hm0.
  assert (free_of "[" (f ++ str "]](#global_ref" ++ f ++ str ")") = true) as Hall
    by (rewrite !free_of_app, Hf; reflexivity).
  destruct (f ++ str "]](#global_ref" ++ f ++ str ")") as [|x y] eqn:E;
    [destruct f; discriminate E|].
  pose proof Hall as [Hx _]%free_of_cons.
  rewrite <- app_comm_cons, search_from_miss by (now apply citation_second_char).
  rewrite app_comm_cons.
  rewrite (search_from_free_prefix _ _ _ _ _ _ citation_first_chr Hall).
  now apply (search_citation_None_from true 0).
Qed.

Lemma update_citations_all_resolved h self cell_index bol pos s :
  forallb (fun m => match cell_local_refs self !! (cell_index, int_of (group m 1)) with
                    | Some _ => true
                    | None => false
                    end) (finditer_from CITATION_PATTERN 0 bol pos s) = true ->
  search_from CITATION_PATTERN true 0
    (sub_from CITATION_PATTERN (replace_citation h self cell_index) 0 bol pos s) = None.
Proof.
  pattern bol, pos, s. apply (scan_ind CITATION_PATTERN citation_min_len); clear bol pos s.
  - reflexivity.
  - intros bol pos c s Hmiss IH. rewrite finditer_from_miss, sub_from_miss by assumption.
    intros Hall. rewrite search_from_miss by (now apply (sub_citation_miss _ _ _ bol)).
    apply (search_citation_None_from true 0). now apply IH.
  - intros bol pos st rest Hhit _ IH.
    rewrite (finditer_from_hit _ citation_min_len _ _ _ _ _ Hhit).
    rewrite (sub_from_hit _ citation_min_len _ _ _ _ _ _ Hhit).
    apply citation_match_start in Hhit as (N & D & HN & HD & _ & ->).
    rewrite replace_citation_at. cbn [forallb].
    change (group (match_at pos (citation_state (start_state bol) N D)) 1) with N.
    destruct (cell_local_refs self !! (cell_index, int_of N)) as [ref|]; [|discriminate].
    intros Hall. apply search_global_citation; try (apply format_num_free; reflexivity).
    now apply IH.
Qed.

(** X17: when every citation of a text has an entry in [cell_local_refs]
    for its cell, the rewritten text contains no citation in the local
    form any more. *)
Theorem update_citations_leaves_no_local_citation :
  forall (h : list Reference) (self : ReferenceManager) (cell_index : nat)
         (markdown_text : list ascii),
    all_citations_resolve self cell_index markdown_text = true ->
    no_match CITATION_PATTERN (update_citations_in_text h self cell_index markdown_text) = true.
Proof.
  intros h self cell_index t H. unfold no_match, search, update_citations_in_text, sub.
  now rewrite (update_citations_all_resolved h self cell_index true 0 t H).
Qed.

Lemma update_citations_leaves_no_local_citation_witness :
  no_match CITATION_PATTERN
    (update_citations_in_text join_registry.1 join_registry.2 0 join_text) = true.
Proof.
  apply (update_citations_leaves_no_local_citation join_registry.1 join_registry.2 0 join_text).
  vm_compute. reflexivity.
Defined.

(** ** Strategy 3 of [remove_reference_section] *)

Lemma search_from_hit p bol pos s st rest :
  match_here p (start_state bol) s = Some (st, rest) ->
  search_from p bol pos s = Some (match_at pos st).
Proof. intros H. destruct s; simpl; now rewrite H. Qed.

Lemma separator_scan_no_rule lines (todo : list (nat * list ascii)) :
  (forall il, il ∈ todo -> strip il.2 <> str "---") -> separator_scan lines todo = None.
Proof.
  induction todo as [|[i line] todo IH]; intros H; [reflexivity|]. cbn [separator_scan].
  rewrite bool_decide_eq_false_2 by (apply (H (i, line)); now left).
  apply IH. intros il Hil. apply H. now right.
Qed.

Lemma definition_first_chr : first_chr DEFINITION_START_PATTERN = Some "<"%char.
Proof. reflexivity. Qed.

Lemma search_first_definition pre D N c body :
  free_of "<" pre = true -> is_digits D = true -> is_digits N = true -> is_space c = false ->
  exists m, search DEFINITION_START_PATTERN (pre ++ definition_markup D N (c :: body)) = Some m
            /\ m_start m = length pre.
Proof.
  intros Hpre HD HN Hc. unfold search.
  rewrite (search_from_free_prefix _ _ _ _ _ _ definition_first_chr Hpre).
  destruct (definition_match (start_state (bol_after true pre)) D N c body HD HN Hc)
    as (st' & Hm & _).
  rewrite (search_from_hit _ _ _ _ _ _ Hm). eexists. split; [reflexivity|]. reflexivity.
Qed.

(** X18: strategy 3: in a text that has no explicit separator and no rule
    line, the reference section is taken to begin at the first definition
    markup, wherever on its line the markup stands: the result is the text
    before the markup, stripped on the right. *)
Theorem remove_reference_section_cuts_at_first_definition :
  forall (pre D N : list ascii) (c : ascii) (body : list ascii),
    free_of "<" pre = true -> is_digits D = true -> is_digits N = true ->
    is_space c = false ->
    no_match REFERENCE_SECTION_PATTERN (pre ++ definition_markup D N (c :: body)) = true ->
    has_rule_line (pre ++ definition_markup D N (c :: body)) = false ->
    remove_reference_section (pre ++ definition_markup D N (c :: body)) = rstrip pre.
Proof.
  intros pre D N c body Hpre HD HN Hc Hsep Hrule.
  unfold remove_reference_section. rewrite (no_match_true _ _ Hsep).
  rewrite separator_scan_no_rule.
  - destruct (search_first_definition pre D N c body Hpre HD HN Hc) as (m & -> & ->).
    rewrite firstn_app, Nat.sub_diag, firstn_all, firstn_O, app_nil_r.
    now destruct (contains _ _).
  - intros il (i & line & -> & Hl)%elem_of_lookup_imap. simpl. intros E.
    unfold has_rule_line in Hrule.
    assert (existsb (fun line => bool_decide (strip line = str "---"))
              (split_on newline (pre ++ definition_markup D N (c :: body))) = true) as Ht;
      [|congruence].
    apply existsb_exists. exists line. split; [|now apply bool_decide_eq_true].
    apply list_elem_of_In. now apply list_elem_of_lookup_2 in Hl.
Qed.

Lemma remove_reference_section_cuts_at_first_definition_witness :
  remove_reference_section
    (str "Body - see " ++ definition_markup (str "1") (str "1") ("F"%char :: str "oo."))
  = rstrip (str "Body - see ").
Proof.
  apply (remove_reference_section_cuts_at_first_definition
           (str "Body - see ") (str "1") (str "1") "F"%char (str "oo.")); reflexivity.
Defined.

(** ** Extraction from a footer of definitions *)

Lemma definition_markup_app D N body x :
  definition_markup D N body ++ x = definition_markup D N (body ++ x).
Proof. unfold definition_markup. now rewrite <- !app_assoc. Qed.

Lemma take_while_app_found q (r x : list ascii) :
  drop_while q r <> [] -> take_while q (r ++ x) = take_while q r.
Proof.
  induction r as [|c r IH]; [contradiction|]. simpl.
  destruct (q c); [|reflexivity]. intros H. now rewrite IH.
Qed.

Lemma drop_while_newline rest :
  existsb is_newline rest = true -> drop_while not_newline rest <> [].
Proof.
  induction rest as [|c rest IH]; [discriminate|]. simpl. unfold not_newline at 1.
  destruct (is_newline c); simpl; [discriminate|exact IH].
Qed.

(** The first line of a definition ends before the next definition. *)
Lemma first_line_split rest (es : list Entry) :
  match es with [] => true | _ => existsb is_newline rest end = true ->
  take_while not_newline (rest ++ entries_text es) = take_while not_newline rest
  /\ drop_while not_newline (rest ++ entries_text es)
     = drop_while not_newline rest ++ entries_text es.
Proof.
  destruct es as [|e es]; intros H.
  - cbn [entries_text]. now rewrite !app_nil_r.
  - apply drop_while_newline in H.
    now rewrite take_while_app_found, drop_while_app_found.
Qed.

Lemma entries_text_search (g3 gap : list ascii) (es : list Entry) :
  free_of "<" gap = true -> entries_ok es = true ->
  match search DEFINITION_START_PATTERN (gap ++ entries_text es) with
  | Some next_match => g3 ++ firstn (m_start next_match) (gap ++ entries_text es)
  | None => g3 ++ gap ++ entries_text es
  end = g3 ++ gap.
Proof.
  intros Hgap Hes. destruct es as [|e es].
  - simpl. rewrite app_nil_r. unfold search.
    now rewrite (search_from_free _ _ _ _ _ definition_first_chr Hgap).
  - simpl in Hes. repeat (apply andb_true_iff in Hes as [Hes ?]).
    cbn [entries_text]. unfold entry_markup. rewrite definition_markup_app, <- app_comm_cons.
    destruct (search_first_definition gap (e_anchor e) (e_number e) (e_first e)
                (e_rest e ++ entries_text es)) as (m & -> & ->); try assumption.
    + now apply negb_true_iff.
    + now rewrite firstn_app, Nat.sub_diag, firstn_all, firstn_O, app_nil_r.
Qed.

Lemma finditer_entries cell_index (es : list Entry) :
  entries_ok es = true ->
  forall done gap bol,
    free_of "<" gap = true ->
    let ms := finditer_from DEFINITION_START_PATTERN 0 bol (length done)
                (gap ++ entries_text es) in
    map (reference_of_match cell_index (done ++ gap ++ entries_text es)) ms
    = map (entry_reference cell_index) es
    /\ map (fun m => group m 1) ms = map entry_id es.
Proof.
  induction es as [|e es IH]; intros Hes done gap bol Hgap ms; subst ms.
  - simpl entries_text. rewrite app_nil_r, finditer_from_no_match; [now split|].
    now apply (search_from_free _ "<"%char).
  - pose proof Hes as Hes0. simpl in Hes. repeat (apply andb_true_iff in Hes as [Hes ?]).
    rename Hes into HD. rename H into Hes. rename H0 into Hnl. rename H1 into Hrest.
    rename H2 into Hc. rename H3 into HN. apply negb_true_iff in Hc.
    rewrite (finditer_from_free_prefix _ _ _ _ _ _ definition_first_chr Hgap).
    cbn [entries_text]. unfold entry_markup. rewrite !definition_markup_app.
    rewrite <- !app_comm_cons.
    destruct (definition_match (start_state (bol_after bol gap)) (e_anchor e) (e_number e)
                (e_first e) (e_rest e ++ entries_text es) HD HN Hc) as (st' & Hm & Hcl).
    destruct (first_line_split (e_rest e) es Hnl) as [Etake Edrop].
    rewrite Etake in Hcl. rewrite Edrop in Hm.
    pose proof (match_here_start _ _ _ _ _ Hm) as (Es & _ & _).
    rewrite (finditer_from_hit _ definition_min_len _ _ _ _ _ Hm).
    set (gap' := drop_while not_newline (e_rest e)) in *.
    assert (free_of "<" gap' = true) as Hgap' by (now apply free_of_drop_while).
    assert (done ++ gap ++ definition_markup (e_anchor e) (e_number e)
                              (e_first e :: e_rest e ++ entries_text es)
            = (done ++ gap ++ matched st') ++ gap' ++ entries_text es) as Etext.
    { rewrite Es, <- !app_assoc. reflexivity. }
    rewrite Etext.
    destruct (IH Hes (done ++ gap ++ matched st') gap' (at_bol st') Hgap') as [IH1 IH2].
    rewrite !length_app in IH1, IH2. rewrite Nat.add_assoc in IH1, IH2.
    cbn [map]. rewrite IH1, IH2. split; f_equal.
    + unfold reference_of_match, definition_text_at, entry_reference, entry_id.
      unfold group, match_at. cbn [m_groups m_end nth]. rewrite Hcl.
      cbn [start_state closed]. rewrite app_nil_l. cbn [nth].
      rewrite skipn_app_length by (rewrite !length_app; lia).
      rewrite entries_text_search by assumption.
      rewrite <- app_comm_cons. subst gap'. now rewrite take_drop_while.
    + unfold group, match_at. cbn [m_groups nth]. rewrite Hcl.
      cbn [start_state closed]. now rewrite app_nil_l.
Qed.

Lemma NoDup_entry_ids (es : list Entry) :
  NoDup (map e_anchor es) -> NoDup (map entry_id es).
Proof.
  intros H. rewrite <- (map_map e_anchor (fun D => str "ref" ++ D)).
  assert (Inj (=) (=) (fun D : list ascii => str "ref" ++ D)) as Hinj
    by (intros x y E; now apply app_inv_head in E).
  exact (NoDup_fmap_2 (fun D : list ascii => str "ref" ++ D) (map e_anchor es) H).
Qed.

(** X19: extraction from a well-formed footer: for a text that ends with
    definitions, each on its own lines, with distinct anchors and no other
    ['<'], [extract_references_from_cell] returns one entry per definition,
    in order, under its anchor; each new [Reference] has the bracket number
    of its definition and, as definition text, everything from the markup
    to the next definition, over several lines if need be, stripped. *)
Theorem extract_references_from_footer :
  forall (cell_index : nat) (h : list Reference) (pre : list ascii) (es : list Entry),
    free_of "<" pre = true -> entries_ok es = true ->
    bool_decide (NoDup (map e_anchor es)) = true ->
    let r := extract_references_from_cell cell_index (pre ++ entries_text es) h in
    r.1.2 = zip (map entry_id es) (seq (length h) (length es))
    /\ r.2 = h ++ map (entry_reference cell_index) es.
Proof.
  intros cell_index h pre es Hpre Hes Hnd r. apply bool_decide_eq_true in Hnd.
  destruct (finditer_entries cell_index es Hes [] pre true Hpre) as [E1 E2].
  cbn [app length] in E1, E2.
  change (finditer_from DEFINITION_START_PATTERN 0 true 0 (pre ++ entries_text es))
    with (finditer DEFINITION_START_PATTERN (pre ++ entries_text es)) in E1, E2.
  subst r. unfold extract_references_from_cell.
  pose proof (extract_definitions_spec cell_index (pre ++ entries_text es) h) as [Es _].
  pose proof (extract_definitions_fold cell_index (pre ++ entries_text es) h) as Ef.
  destruct (extract_definitions cell_index (pre ++ entries_text es) h) as [d h'] eqn:Ed.
  cbn [fst snd] in *. split.
  - replace d with (d, h').1 by reflexivity.
    rewrite Ef, extract_definitions_distinct; rewrite E2.
    + cbn [app]. apply (f_equal length) in E2. rewrite !length_map in E2. now rewrite E2.
    + cbn [map app]. now apply NoDup_entry_ids.
  - now rewrite Es, E1.
Qed.

Lemma extract_references_from_footer_witness :
  let r := extract_references_from_cell 0
             ((str "Body." ++ [newline]) ++ entries_text footer_entries) [] in
  r.1.2 = zip (map entry_id footer_entries) (seq (length (@nil Reference)) (length footer_entries))
  /\ r.2 = [] ++ map (entry_reference 0) footer_entries.
Proof.
  apply (extract_references_from_footer 0 [] (str "Body." ++ [newline]) footer_entries);
    vm_compute; reflexivity.
Defined.

Example footer_entries_extracted :
  map definition (extract_references_from_cell 0
                    ((str "Body." ++ [newline]) ++ entries_text footer_entries) []).2
  = [str "Author," ++ [newline] ++ str "Title."; str "Book."].
Proof. vm_compute. reflexivity. Qed.

(** ** Normalizing again and again *)

Lemma normalize_for_dedup_fixed_or_shorter t :
  normalize_for_dedup (normalize_for_dedup t) = normalize_for_dedup t
  \/ length (normalize_for_dedup (normalize_for_dedup t)) < length (normalize_for_dedup t).
Proof.
  destruct (no_match PAGE_BREAK_RE (normalize_for_dedup t)) eqn:E1;
    [destruct (no_match TRAILING_NOTE_RE (normalize_for_dedup t)) eqn:E2|].
  - left. destruct (normalize_for_dedup_shape t) as (x & Hx & E).
    rewrite E in *. apply no_match_true in E1, E2.
    now apply normalize_for_dedup_squeezed.
  - right. apply normalize_for_dedup_shrinks. now right.
  - right. apply normalize_for_dedup_shrinks. now left.
Qed.

Lemma iter_normalize_fixed n :
  forall t, length (normalize_for_dedup t) <= n ->
  exists k, k <= n
            /\ normalize_for_dedup (Nat.iter (S k) normalize_for_dedup t)
               = Nat.iter (S k) normalize_for_dedup t.
Proof.
  induction n as [|n IH]; intros t Hlen.
  - exists 0. split; [lia|]. simpl.
    destruct (normalize_for_dedup_fixed_or_shorter t) as [E|Hlt]; [exact E|lia].
  - destruct (normalize_for_dedup_fixed_or_shorter t) as [E|Hlt].
    + exists 0. split; [lia|exact E].
    + destruct (IH (normalize_for_dedup t)) as (k & Hk & E); [lia|].
      exists (S k). split; [lia|].
      assert (forall j x, Nat.iter j normalize_for_dedup (normalize_for_dedup x)
                          = Nat.iter (S j) normalize_for_dedup x) as Hshift.
      { induction j as [|j IHj]; intros x; [reflexivity|]. simpl. now rewrite IHj. }
      now rewrite <- Hshift.
Qed.

(** X20: normalization is not idempotent, but it converges: applied again
    and again to a text [t], it reaches a text that it leaves unchanged,
    after at most as many rounds as the normalized text of [t] has
    characters, plus one. *)
Theorem normalize_for_dedup_converges :
  forall t : list ascii,
    exists k : nat,
      1 <= k <= length (normalize_for_dedup t) + 1
      /\ normalize_for_dedup (Nat.iter k normalize_for_dedup t)
         = Nat.iter k normalize_for_dedup t.
Proof.
  intros t.
  destruct (iter_normalize_fixed (length (normalize_for_dedup t)) t (le_n _))
    as (k & Hk & E).
  exists (S k). split; [lia|exact E].
Qed.

(** ** Where a definition ends, and what is not a definition *)

Lemma finditer_definition_line pre D N c line :
  free_of "<" pre = true -> is_digits D = true -> is_digits N = true ->
  is_space c = false -> forallb not_newline line = true ->
  exists m,
    finditer DEFINITION_START_PATTERN (pre ++ definition_markup D N (c :: line)) = [m]
    /\ group m 1 = str "ref" ++ D /\ group m 2 = N /\ group m 3 = c :: line
    /\ skipn (m_end m) (pre ++ definition_markup D N (c :: line)) = [].
Proof.
  intros Hpre HD HN Hc Hline.
  destruct (definition_match (start_state (bol_after true pre)) D N c line HD HN Hc)
    as (st' & Hm & Hcl).
  rewrite take_while_all_true in Hcl by assumption.
  rewrite drop_while_all_true in Hm by assumption.
  pose proof (match_here_start _ _ _ _ _ Hm) as (Es & _ & _).
  exists (match_at (length pre) st'). unfold finditer. repeat split.
  - rewrite (finditer_from_free_prefix _ "<"%char) by (reflexivity || assumption).
    rewrite (finditer_from_hit _ definition_min_len _ _ _ _ _ Hm). reflexivity.
  - unfold group. simpl. now rewrite Hcl.
  - unfold group. simpl. now rewrite Hcl.
  - unfold group. simpl. now rewrite Hcl.
  - rewrite Es. simpl m_end. rewrite app_assoc. apply skipn_app_length.
    now rewrite length_app.
Qed.

(** X21: a definition takes the rest of its line: whatever follows the
    markup on the same line, even the markup of another definition, is part
    of the text of the one definition that is extracted. *)
Theorem definition_takes_rest_of_line :
  forall (cell_index : nat) (h : list Reference) (pre D N : list ascii) (c : ascii)
         (line : list ascii),
    free_of "<" pre = true -> is_digits D = true -> is_digits N = true ->
    is_space c = false -> forallb not_newline line = true ->
    let r := extract_references_from_cell cell_index
               (pre ++ definition_markup D N (c :: line)) h in
    r.1.2 = [(str "ref" ++ D, length h)]
    /\ r.2 = h ++ [Reference_init (str "ref" ++ D) (int_of N) (strip (c :: line)) cell_index].
Proof.
  intros cell_index h pre D N c line Hpre HD HN Hc Hline.
  destruct (finditer_definition_line pre D N c line Hpre HD HN Hc Hline)
    as (m & Hfi & Hg1 & Hg2 & Hg3 & Hrest).
  assert (reference_of_match cell_index (pre ++ definition_markup D N (c :: line)) m
          = Reference_init (str "ref" ++ D) (int_of N) (strip (c :: line)) cell_index) as Href.
  { unfold reference_of_match, definition_text_at. rewrite Hg1, Hg2, Hg3, Hrest.
    unfold search. rewrite (search_from_free _ "<"%char) by reflexivity.
    now rewrite app_nil_r. }
  unfold extract_references_from_cell, extract_definitions. rewrite Hfi. simpl.
  rewrite Href, Hg1. split; reflexivity.
Qed.

Lemma definition_takes_rest_of_line_witness :
  let r := extract_references_from_cell 0
             (str "" ++ definition_markup (str "1") (str "1")
                          ("A"%char :: str ". "
                             ++ definition_markup (str "2") (str "2") (str "B."))) [] in
  r.1.2 = [(str "ref" ++ str "1", 0)]
  /\ r.2 = [] ++ [Reference_init (str "ref" ++ str "1") (int_of (str "1"))
                    (strip ("A"%char :: str ". "
                              ++ definition_markup (str "2") (str "2") (str "B."))) 0].
Proof.
  apply (definition_takes_rest_of_line 0 [] (str "") (str "1") (str "1") "A"%char
           (str ". " ++ definition_markup (str "2") (str "2") (str "B.")));
    vm_compute; reflexivity.
Defined.

Lemma definition_second_char st x rest :
  x <> "a"%char -> match_here DEFINITION_START_PATTERN st ("<"%char :: x :: rest) = None.
Proof.
  intros Hx. unfold DEFINITION_START_PATTERN. cbn [lit str list_ascii_of_string map app].
  rewrite match_here_one_chr. cbn [match_here accepts].
  now apply Ascii.eqb_neq in Hx as ->.
Qed.

Lemma definition_head_miss st D N nl :
  is_digits D = true -> is_digits N = true -> forallb is_newline nl = true ->
  match_here DEFINITION_START_PATTERN st (definition_head D N ++ nl) = None.
Proof.
  intros [HD1 HD2]%is_digits_inv [HN1 HN2]%is_digits_inv Hnl.
  unfold DEFINITION_START_PATTERN, definition_head. rewrite <- ?app_assoc.
  cbn [lit str list_ascii_of_string map app].
  step_match.
  change (accepts Digit) with is_digit.
  rewrite take_while_app, drop_while_app by assumption. eval_class. rewrite app_nil_r.
  destruct D as [|d D]; [congruence|]. cbv beta iota.
  step_match.
  change (accepts Digit) with is_digit.
  rewrite take_while_app, drop_while_app by assumption. eval_class. rewrite app_nil_r.
  destruct N as [|n N]; [congruence|]. cbv beta iota.
  step_match. rewrite match_here_star.
  match goal with |- star Space ?k ?st0 nl = None =>
    destruct (star Space k st0 nl) as [r|] eqn:E; [|reflexivity];
    assert (is_Some (star Space k st0 nl)) as Hs by (rewrite E; eauto)
  end.
  exfalso. apply star_Some_iff in Hs as (w & rest & -> & _ & [r' Hr]).
  rewrite forallb_app in Hnl. apply andb_true_iff in Hnl as [_ Hrest].
  rewrite match_here_open in Hr. cbn [match_here] in Hr.
  destruct rest as [|x rest]; [discriminate Hr|].
  simpl in Hrest. apply andb_true_iff in Hrest as [Hx _].
  cbn [accepts] in Hr. rewrite Hx in Hr. discriminate Hr.
Qed.

Lemma search_definition_head pre D N nl :
  free_of "<" pre = true -> is_digits D = true -> is_digits N = true ->
  forallb is_newline nl = true ->
  search DEFINITION_START_PATTERN (pre ++ definition_head D N ++ nl) = None.
Proof.
  intros Hpre HD HN Hnl. unfold search.
  rewrite (search_from_free_prefix _ _ _ _ _ _ definition_first_chr Hpre).
  pose proof (definition_head_miss (start_state (bol_after true pre)) D N nl HD HN Hnl) as Hm.
  assert (free_of "<" nl = true) as Hnl'.
  { clear Hm. induction nl as [|x nl IH]; [reflexivity|]. simpl in Hnl.
    apply andb_true_iff in Hnl as [Hx Hnl]. rewrite free_of_cons_eq, (IH Hnl), andb_true_r.
    apply Ascii.eqb_eq in Hx. now subst x. }
  unfold definition_head in *. rewrite <- ?app_assoc in *.
  change (str "<a id=" ++ ?y) with ("<"%char :: str "a id=" ++ y) in *.
  rewrite search_from_miss by exact Hm.
  rewrite (app_assoc (str "a id=")), (app_assoc _ (str "ref")), (app_assoc _ D),
    (app_assoc _ [dquote]).
  change (str "></a>[" ++ ?y) with ([">"%char] ++ "<"%char :: "/"%char :: str "a>[" ++ y).
  rewrite (app_assoc _ [">"%char]).
  rewrite (search_from_free_prefix _ _ _ _ _ _ definition_first_chr);
    [|rewrite !free_of_app, (is_digits_free "<" D) by (assumption || reflexivity);
      reflexivity].
  rewrite search_from_miss by (now apply definition_second_char).
  apply (search_from_free _ "<"%char); [reflexivity|].
  rewrite free_of_cons_eq, !free_of_app, (is_digits_free "<" N), Hnl'
    by (assumption || reflexivity).
  reflexivity.
Qed.

(** X22: a definition needs a text: a markup that is followed, up to the
    end of the cell text, by line ends only is no definition, and nothing
    is extracted for it. *)
Theorem definition_without_text_ignored :
  forall (cell_index : nat) (h : list Reference) (pre D N nl : list ascii),
    free_of "<" pre = true -> is_digits D = true -> is_digits N = true ->
    forallb is_newline nl = true ->
    let r := extract_references_from_cell cell_index (pre ++ definition_head D N ++ nl) h in
    r.1.2 = [] /\ r.2 = h.
Proof.
  intros cell_index h pre D N nl Hpre HD HN Hnl r. subst r.
  rewrite extract_no_definition by (now apply search_definition_head). auto.
Qed.

Lemma definition_without_text_ignored_witness :
  let r := extract_references_from_cell 0
             (str "Body." ++ definition_head (str "1") (str "1") ++ [newline]) [] in
  r.1.2 = [] /\ r.2 = [].
Proof.
  apply (definition_without_text_ignored 0 [] (str "Body.") (str "1") (str "1") [newline]);
    reflexivity.
Defined.

(** ** Definition texts are stripped *)

Lemma lstrip_rstrip_stable t : rstrip t = t -> rstrip (lstrip t) = lstrip t.
Proof.
  intros Ht. destruct (rstrip_last t) as [E|(x & e & E & He)]; rewrite Ht in E.
  - subst t. reflexivity.
  - subst t. unfold lstrip.
    destruct (drop_while is_space (x ++ [e])) as [|d y] eqn:Ed.
    + apply drop_while_nil_all in Ed. rewrite forallb_app in Ed. simpl in Ed.
      rewrite He in Ed. now rewrite andb_false_r in Ed.
    + assert (exists y', d :: y = y' ++ [e]) as [y' ->].
      { clear He Ht. revert d y Ed. induction x as [|c x IH]; intros d y Ed; simpl in Ed.
        - destruct (is_space e); [discriminate|]. injection Ed as <- <-. now exists [].
        - destruct (is_space c); [now apply IH|]. injection Ed as <- <-.
          now exists (c :: x). }
      now apply rstrip_end.
Qed.

Lemma strip_strip t : strip (strip t) = strip t.
Proof.
  unfold strip. rewrite (lstrip_rstrip_stable (rstrip t)) by apply rstrip_rstrip.
  unfold lstrip. destruct (drop_while is_space (rstrip t)) as [|c s] eqn:E; [reflexivity|].
  apply drop_while_head in E. now rewrite drop_while_stop.
Qed.

Lemma found_in_cell_stripped i cell r :
  r ∈ found_in_cell i cell -> strip (definition r) = definition r.
Proof.
  unfold found_in_cell. destruct (is_markdown cell); [|intros H; inversion H].
  intros H. apply list_elem_of_In, in_map_iff in H as (m & <- & _).
  apply strip_strip.
Qed.

Lemma all_definitions_stripped cells r :
  r ∈ all_definitions cells -> strip (definition r) = definition r.
Proof.
  unfold all_definitions. intros H. apply list_elem_of_In, in_concat in H as (l & Hl & Hr).
  apply list_elem_of_In, elem_of_lookup_imap in Hl as (i & cell & -> & _).
  apply (found_in_cell_stripped i cell). now apply list_elem_of_In.
Qed.

(** X23: the definition text of every [Reference] of the store is
    stripped: it neither starts nor ends with white space, whatever stood
    around the definition in the cell. *)
Theorem definitions_are_stripped :
  forall cells : list Cell,
    Forall (fun r => strip (definition r) = definition r)
           (build_global_reference_map cells fresh).1.
Proof.
  intros cells. apply Forall_lookup. intros a r Ha.
  apply list_lookup_total_correct in Ha as Er. subst r.
  apply lookup_lt_Some in Ha. revert Ha. unfold build_global_reference_map.
  pose proof (scan_document_store cells) as Hstore.
  destruct (foldl scan_cell fresh (imap (fun i c => (i, c)) cells)) as [h0 self].
  cbn [fst snd] in *. subst h0. rewrite assign_global_numbers_length. intros Ha.
  unfold assign_global_numbers. rewrite number_step_definition.
  apply (all_definitions_stripped cells).
  apply lookup_lt_is_Some_2 in Ha as [r Hr].
  rewrite (list_lookup_total_correct _ _ _ Hr). now apply list_elem_of_lookup_2 in Hr.
Qed.

(** ** Strategy 2 of [remove_reference_section] *)

Lemma split_on_free sep l : free_of sep l = true -> split_on sep l = [l].
Proof.
  induction l as [|c l IH]; [reflexivity|]. rewrite free_of_cons_eq.
  intros [Hc Hl]%andb_true_iff. simpl. apply negb_true_iff in Hc. now rewrite Hc, IH.
Qed.

Lemma split_on_app_free sep l rest :
  free_of sep l = true -> split_on sep (l ++ sep :: rest) = l :: split_on sep rest.
Proof.
  induction l as [|c l IH].
  - intros _. simpl. now rewrite Ascii.eqb_refl.
  - rewrite free_of_cons_eq. intros [Hc Hl]%andb_true_iff. simpl.
    apply negb_true_iff in Hc. now rewrite Hc, IH.
Qed.

Lemma split_on_join sep (lines : list (list ascii)) :
  lines <> [] -> Forall (fun l => free_of sep l = true) lines ->
  split_on sep (join [sep] lines) = lines.
Proof.
  induction lines as [|l lines IH]; [contradiction|]. intros _ Hall.
  apply Forall_cons_iff in Hall as [Hl Hall]. destruct lines as [|l2 lines].
  - simpl. now apply split_on_free.
  - change (join [sep] (l :: l2 :: lines)) with (l ++ sep :: join [sep] (l2 :: lines)).
    rewrite split_on_app_free by assumption. f_equal. now apply IH.
Qed.

Lemma separator_scan_skip lines (todo1 todo2 : list (nat * list ascii)) :
  (forall il, il ∈ todo1 -> strip il.2 <> str "---") ->
  separator_scan lines (todo1 ++ todo2) = separator_scan lines todo2.
Proof.
  induction todo1 as [|[i line] todo1 IH]; intros H; [reflexivity|].
  rewrite <- app_comm_cons. cbn [separator_scan].
  rewrite bool_decide_eq_false_2 by (apply (H (i, line)); now left).
  apply IH. intros il Hil. apply H. now right.
Qed.

Lemma window_at_rule {A} (before : list A) rule after :
  slice (length before) (min (length before + 5) (length (before ++ rule :: after)))
        (before ++ rule :: after)
  = rule :: firstn 4 after.
Proof.
  unfold slice. rewrite skipn_app_length by reflexivity. rewrite length_app. cbn [length].
  destruct (Nat.le_gt_cases 4 (length after)) as [Hle|Hgt].
  - replace (_ - _) with 5 by lia. reflexivity.
  - replace (_ - _) with (S (length after)) by lia. cbn [firstn].
    now rewrite !firstn_all2 by lia.
Qed.

(** X24: strategy 2: in a text without the explicit separator, the first
    rule line that has a definition start on one of the four lines after
    it (the window of the code is the rule line and the four lines that
    follow) begins the reference section: the result is the lines before
    the rule, stripped on the right.  Here [before] has no rule line. *)
Theorem remove_reference_section_cuts_at_rule :
  forall (before : list (list ascii)) (rule : list ascii) (after : list (list ascii)),
    forallb (free_of newline) (before ++ rule :: after) = true ->
    no_match REFERENCE_SECTION_PATTERN (join [newline] (before ++ rule :: after)) = true ->
    forallb (fun l => negb (bool_decide (strip l = str "---"))) before = true ->
    strip rule = str "---" ->
    no_match DEFINITION_START_PATTERN (join [newline] (rule :: firstn 4 after)) = false ->
    remove_reference_section (join [newline] (before ++ rule :: after))
    = rstrip (join [newline] before).
Proof.
  intros before rule after Hlines Hsep Hbefore Hrule Hdef.
  assert (Forall (fun l => free_of newline l = true) (before ++ rule :: after)) as Hall.
  { apply Forall_forall. intros l Hl%list_elem_of_In. rewrite forallb_forall in Hlines. auto. }
  unfold remove_reference_section. rewrite (no_match_true _ _ Hsep).
  rewrite split_on_join by (assumption || now destruct before).
  rewrite imap_app, separator_scan_skip.
  - cbn [imap separator_scan]. rewrite Nat.add_0_r.
    rewrite bool_decide_eq_true_2 by assumption. rewrite window_at_rule.
    unfold no_match in Hdef.
    destruct (search DEFINITION_START_PATTERN (join [newline] (rule :: firstn 4 after)));
      [|discriminate].
    rewrite firstn_app, Nat.sub_diag, firstn_all, firstn_O, app_nil_r.
    now destruct (_ && _).
  - intros il (i & line & -> & Hl)%elem_of_lookup_imap. simpl.
    rewrite forallb_forall in Hbefore.
    apply list_elem_of_lookup_2, list_elem_of_In, Hbefore in Hl.
    apply negb_true_iff in Hl. now apply bool_decide_eq_false in Hl.
Qed.

Lemma remove_reference_section_cuts_at_rule_witness :
  remove_reference_section
    (join [newline]
       ([str "Body."; str ""]
          ++ str "---" :: [str ""; definition_markup (str "1") (str "1") (str "Foo.")]))
  = rstrip (join [newline] [str "Body."; str ""]).
Proof.
  apply (remove_reference_section_cuts_at_rule
           [str "Body."; str ""] (str "---")
           [str ""; definition_markup (str "1") (str "1") (str "Foo.")]);
    reflexivity.
Defined.

(** ** Numerals *)

Lemma int_of_fold acc s :
  fold_left (fun acc c => (10 * acc + digit_value c)%Z) s acc
  = (acc * 10 ^ Z.of_nat (length s) + int_of s)%Z.
Proof.
  unfold int_of. revert acc. induction s as [|c s IH]; intros acc.
  - simpl. lia.
  - cbn [fold_left length]. rewrite IH, (IH (10 * 0 + digit_value c)%Z).
    rewrite Nat2Z.inj_succ, Z.pow_succ_r by lia. ring.
Qed.

Lemma int_of_cons c s :
  int_of (c :: s) = (digit_value c * 10 ^ Z.of_nat (length s) + int_of s)%Z.
Proof.
  unfold int_of at 1. cbn [fold_left]. rewrite int_of_fold. f_equal.
Qed.










Lemma int_of_nonneg s : (0 <= int_of s)%Z.
Proof.
  induction s as [|c s IH]; [reflexivity|].
  rewrite int_of_cons. unfold digit_value.
  pose proof (Z.pow_nonneg 10 (Z.of_nat (length s)) ltac:(lia)). nia.
Qed.

(** Every non-empty string of digits is a numeral. *)
Lemma pretty_N_go_app x s1 s2 : pretty_N_go x (s1 +:+ s2) = pretty_N_go x s1 +:+ s2.
Proof.
  revert s1. induction (N.lt_wf_0 x) as [x _ IH]. intros s1.
  destruct (decide (x = 0)%N) as [->|Hx]; [now rewrite !pretty_N_go_0|].
  rewrite (pretty_N_go_step x (s1 +:+ s2)), (pretty_N_go_step x s1) by lia.
  change (String ?c (s1 +:+ s2)) with (String c s1 +:+ s2). apply IH. apply N.div_lt; lia.
Qed.

Lemma str_append a b : str (a +:+ b) = str a ++ str b.
Proof. induction a as [|c a IH]; [reflexivity|]. simpl. f_equal. exact IH. Qed.

Lemma str_of_int_pos n : (0 < n)%Z -> str_of_int n = str (pretty_N_go (Z.to_N n) "").
Proof. destruct n; [lia|reflexivity|lia]. Qed.

Lemma digit_value_range c : is_digit c = true -> (0 <= digit_value c < 10)%Z.
Proof.
  unfold is_digit, in_range, digit_value, code. intros [H1 H2]%andb_true_iff.
  apply Nat.leb_le in H1, H2. lia.
Qed.

Lemma pretty_N_char_digit_value c :
  is_digit c = true -> pretty_N_char (Z.to_N (digit_value c)) = c.
Proof.
  destruct c as [[] [] [] [] [] [] [] []]; intros H; try discriminate H; reflexivity.
Qed.

Lemma int_of_snoc s c : int_of (s ++ [c]) = (10 * int_of s + digit_value c)%Z.
Proof. unfold int_of. now rewrite fold_left_app. Qed.

Lemma str_of_int_int_of s :
  forallb is_digit s = true ->
  match s with c :: _ => c <> "0"%char | [] => False end ->
  str_of_int (int_of s) = s.
Proof.
  induction s as [|c s IH] using rev_ind; [intros _ []|].
  rewrite forallb_app. intros [Hs Hc]%andb_true_iff Hfirst.
  cbn [forallb] in Hc. rewrite andb_true_r in Hc.
  pose proof (digit_value_range c Hc) as Hr.
  destruct s as [|c0 s].
  - destruct c as [[] [] [] [] [] [] [] []]; try discriminate Hc; reflexivity.
  - simpl in Hfirst. specialize (IH Hs Hfirst).
    assert (0 < int_of (c0 :: s))%Z as Hpos.
    { pose proof (int_of_nonneg (c0 :: s)) as H0.
      destruct (decide (int_of (c0 :: s) = 0%Z)) as [E|]; [|lia].
      rewrite E in IH. injection IH as <- _. now destruct Hfirst. }
    rewrite int_of_snoc. set (v := int_of (c0 :: s)) in *.
    rewrite str_of_int_pos by lia. rewrite pretty_N_go_step by lia.
    replace (Z.to_N (10 * v + digit_value c) `div` 10)%N with (Z.to_N v).
    2:{ apply (N.div_unique _ _ _ (Z.to_N (digit_value c))); lia. }
    replace (Z.to_N (10 * v + digit_value c) `mod` 10)%N with (Z.to_N (digit_value c)).
    2:{ apply (N.mod_unique _ _ (Z.to_N v)); lia. }
    rewrite pretty_N_char_digit_value by assumption.
    rewrite (pretty_N_go_app _ "" (String c "")), str_append.
    now rewrite <- str_of_int_pos, IH by lia.
Qed.

Lemma is_digits_numeral N :
  is_digits N = true -> exists (z : nat) (n : Z), (0 <= n)%Z /\ N = numeral z n.
Proof.
  intros H. assert (N <> [] /\ forallb is_digit N = true) as [Hne Hd]
    by (destruct N; [discriminate|split; [discriminate|exact H]]).
  clear H. induction N as [|c N IH]; [congruence|].
  destruct (decide (c = "0"%char)) as [->|Hc].
  - destruct N as [|c' N].
    + exists 0, 0%Z. split; [lia|reflexivity].
    + cbn [forallb] in Hd. apply andb_true_iff in Hd as [_ Hd].
      destruct (IH ltac:(discriminate) Hd) as (z & n & Hn & E).
      exists (S z), n. split; [assumption|]. unfold numeral in *. cbn [repeat app]. now rewrite E.
  - exists 0, (int_of (c :: N)). split; [apply int_of_nonneg|].
    unfold numeral. cbn [repeat app]. symmetry. now apply str_of_int_int_of.
Qed.

(** ** The join of a citation to its definition *)



Example join_by_number_not_by_anchor :
  update_citations_in_text join_registry.1 join_registry.2 0
    (str "See " ++ citation (str "2") (str "9") ++ str " and "
       ++ citation (str "5") (str "2") ++ str "." ++ [newline; newline]
       ++ definition_markup (str "2") (str "2") (str "Foo."))
  = str "See [[1]](#global_ref1) and [[5]](#ref2)." ++ [newline; newline]
      ++ definition_markup (str "2") (str "2") (str "Foo.").
Proof. vm_compute. reflexivity. Qed.

(** ** [update_citations_in_text] as a call *)

Section calls.
Variable p : list item.
Variable repl : Match -> list ascii.
Variable repl_call : Match -> result (list ascii).
Variable good : Match -> bool.


(** What the call returns is the text of [sub]. *)
Lemma sub_from_call_value skip bol pos s v :
  (forall m w, repl_call m = Return w -> w = repl m) ->
  sub_from_call p repl_call skip bol pos s = Return v ->
  v = sub_from p repl skip bol pos s.
Proof.
  intros Hval. revert skip bol pos v. induction s as [|c s IH]; intros skip bol pos v H.
  - injection H as <-. reflexivity.
  - cbn [sub_from_call sub_from] in *. destruct skip as [|k]; [|now apply IH].
    destruct (match_here p (start_state bol) (c :: s)) as [[st rest]|].
    + destruct (repl_call (match_at pos st)) as [w|e] eqn:Ew; [|discriminate H].
      cbn in H.
      destruct (sub_from_call p repl_call (length (matched st) - 1) (is_newline c) (S pos) s)
        as [u|e] eqn:Eu; [|discriminate H].
      injection H as <-. now rewrite (Hval _ _ Ew), (IH _ _ _ _ Eu).
    + destruct (sub_from_call p repl_call 0 (is_newline c) (S pos) s) as [u|e] eqn:Eu;
        [|discriminate H].
      injection H as <-. now rewrite (IH _ _ _ _ Eu).
Qed.

(** Where the replacement function raises at some match, and raises
    nothing but [err], the call raises [err]. *)
Lemma sub_from_call_raises err skip bol pos s :
  (forall m, good m = false -> repl_call m = Raise err) ->
  (forall m e, repl_call m = Raise e -> e = err) ->
  forallb good (finditer_from p skip bol pos s) = false ->
  sub_from_call p repl_call skip bol pos s = Raise err.
Proof.
  intros Hbad Herr. revert skip bol pos. induction s as [|c s IH]; intros skip bol pos Hall;
    [discriminate Hall|].
  cbn [sub_from_call finditer_from] in *. destruct skip as [|k]; [|now apply IH].
  destruct (match_here p (start_state bol) (c :: s)) as [[st rest]|].
  - cbn [forallb] in Hall.
    destruct (repl_call (match_at pos st)) as [w|e] eqn:Ew.
    + destruct (good (match_at pos st)) eqn:Eg; [|rewrite (Hbad _ Eg) in Ew; discriminate Ew].
      rewrite (IH _ _ _ Hall). reflexivity.
    + now rewrite (Herr _ _ Ew).
  - rewrite (IH _ _ _ Hall). reflexivity.
Qed.
End calls.


Lemma int_call_long s :
  Nat.leb (length s) int_max_str_digits = false -> int_call s = Raise ValueError.
Proof.
  intros H. unfold int_call. apply Nat.leb_gt in H.
  destruct (Nat.ltb_spec int_max_str_digits (length s)); [reflexivity|lia].
Qed.


Lemma format_num_call_cases g :
  format_num_call g = Return (format_num g) \/ format_num_call g = Raise ValueError.
Proof.
  destruct g as [n|]; [|now left]. unfold format_num_call.
  destruct (Nat.ltb int_max_str_digits (length (str_of_int (Z.abs n)))); auto.
Qed.



Lemma replace_citation_call_long h self cell_index m :
  short_number m = false -> replace_citation_call h self cell_index m = Raise ValueError.
Proof. intros Hm. unfold replace_citation_call. now rewrite (int_call_long _ Hm). Qed.

Lemma replace_citation_call_cases h self cell_index m :
  replace_citation_call h self cell_index m = Return (replace_citation h self cell_index m)
  \/ replace_citation_call h self cell_index m = Raise ValueError.
Proof.
  unfold replace_citation_call, replace_citation, int_call.
  destruct (Nat.ltb int_max_str_digits (length (group m 1))); [now right|]. cbn.
  destruct (cell_local_refs self !! (cell_index, int_of (group m 1))) as [ref|];
    [|now left].
  destruct (format_num_call_cases (global_num (h !!! ref))) as [-> | ->]; auto.
Qed.


Lemma update_citations_in_text_call_value h self cell_index t v :
  update_citations_in_text_call h self cell_index t = Return v ->
  v = update_citations_in_text h self cell_index t.
Proof.
  apply sub_from_call_value. intros m w Hw.
  destruct (replace_citation_call_cases h self cell_index m) as [E|E];
    rewrite E in Hw; [now injection Hw|discriminate Hw].
Qed.

(** It raises [ValueError] where a bracket number is too long. *)
Lemma update_citations_in_text_call_raises h self cell_index t :
  bracket_numbers_within_limit t = false ->
  update_citations_in_text_call h self cell_index t = Raise ValueError.
Proof.
  intros Ht. apply (sub_from_call_raises _ _ short_number); [| |exact Ht].
  - intros m. apply replace_citation_call_long.
  - intros m e He.
    destruct (replace_citation_call_cases h self cell_index m) as [E|E];
      rewrite E in He; [discriminate He|now injection He].
Qed.

(** A citation occurrence of a text is among the matches of the scan. *)
Lemma finditer_citation_found bol pos pre N D post :
  is_digits N = true -> is_digits D = true ->
  exists m, m ∈ finditer_from CITATION_PATTERN 0 bol pos (pre ++ citation N D ++ post)
            /\ group m 1 = N.
Proof.
  intros HN HD. pattern bol, pos, pre.
  apply (scan_ind CITATION_PATTERN citation_min_len); clear bol pos pre.
  - intros bol pos. simpl app.
    rewrite (finditer_from_hit CITATION_PATTERN citation_min_len _ _ _ _ _
               (citation_match _ N D post HN HD)).
    eexists. split; [apply list_elem_of_here|reflexivity].
  - intros bol pos c s Hmiss (m & Hm & Hg).
    assert (match_here CITATION_PATTERN (start_state bol) ((c :: s) ++ citation N D ++ post)
            = None) as Hmiss'.
    { destruct (match_here CITATION_PATTERN (start_state bol) ((c :: s) ++ citation N D ++ post))
        as [[st rest]|] eqn:E; [|reflexivity].
      apply citation_match_start in E as (N' & D' & HN' & HD' & E & _).
      symmetry in E.
      apply citation_boundary in E as [u2 E]; [|assumption..|discriminate].
      rewrite E, citation_match in Hmiss by assumption. discriminate. }
    rewrite <- app_comm_cons in Hmiss' |- *. rewrite finditer_from_miss by assumption.
    eauto.
  - intros bol pos st rest Hhit _ (m & Hm & Hg).
    pose proof Hhit as (N' & D' & HN' & HD' & E & ->)%citation_match_start.
    rewrite E, <- app_assoc.
    rewrite (finditer_from_hit CITATION_PATTERN citation_min_len _ _ _ _ _
               (citation_match _ N' D' _ HN' HD')).
    exists m. split; [|exact Hg]. apply list_elem_of_further. exact Hm.
Qed.

(** A citation whose bracket number has more than [int_max_str_digits]
    digits makes the call raise, wherever it stands and whatever the
    registry holds. *)
Lemma long_bracket_number_raises h self cell_index pre N D post :
  is_digits N = true -> is_digits D = true ->
  int_max_str_digits < length N ->
  update_citations_in_text_call h self cell_index (pre ++ citation N D ++ post)
  = Raise ValueError.
Proof.
  intros HN HD Hlen. apply update_citations_in_text_call_raises.
  destruct (finditer_citation_found true 0 pre N D post HN HD) as (m & Hm & Hg).
  unfold bracket_numbers_within_limit, finditer.
  destruct (forallb short_number _) eqn:Hall; [|reflexivity].
  rewrite forallb_forall in Hall. apply list_elem_of_In, Hall in Hm.
  unfold short_number in Hm. rewrite Hg in Hm. apply Nat.leb_le in Hm. lia.
Qed.

Example long_number_citation_raises :
  length (numeral 4300 1) = 4301
  /\ update_citations_in_text_call [] ReferenceManager_init 0 long_number_citation
     = Raise ValueError.
Proof. split; vm_compute; reflexivity. Qed.




Example scenario_D_call :
  update_citations_in_text_call scenario_D_registry.1 scenario_D_registry.2 0 scenario_D
  = Return scenario_D.
Proof. vm_compute. reflexivity. Qed.
